(** * A LISP2 mark-compact collector: model and verification

    Shallow embedding of the two C programs of the repository:
    - [lisp2.c], the collector over one heap of fixed size (module [Fixed]);
    - [lisp2-reallocate.c], the collector that resizes its heap with
      [realloc] in the middle of a collection (module [Realloc]).

    Pointers are byte addresses in [Z], [NULL] is [0], and memory is a finite
    map from the address of a cell to the [Object] stored there.  Reading
    through a pointer that is [NULL] or at which no object is stored is
    undefined behaviour in C and yields [Undef] here. *)

From Stdlib Require Import ZArith Lia List.
From stdpp Require Import base decidable option list numbers gmap fin_maps.
From stdpp Require Import strings pretty.

Local Open Scope Z_scope.

(** ** Outcomes of a run *)

(** The three ways the programs stop with [exit(1)]. *)
Inductive Failure : Type :=
| StackOverflow
| StackUnderflow
| OutOfMemory.

(** A run returns a value, exits with a failure, has undefined behaviour, or
    uses up the recursion budget that [mark] is given in this model. *)
Inductive outcome (A : Type) : Type :=
| Ret (a : A)
| Exit (f : Failure)
| Undef
| OutOfFuel.

Arguments Ret {A} a.
Arguments Exit {A} f.
Arguments Undef {A}.
Arguments OutOfFuel {A}.

Definition bind {A B : Type} (x : outcome A) (k : A -> outcome B) : outcome B :=
  match x with
  | Ret a => k a
  | Exit f => Exit f
  | Undef => Undef
  | OutOfFuel => OutOfFuel
  end.

Notation "'do' x <- e ; k" := (bind e (fun x => k))
  (at level 10, x pattern, e at level 100, k at level 200).

(** Monadic left fold: the body of a [for] loop run over the values the loop
    variable takes. *)
Fixpoint foldM {A S : Type} (f : S -> A -> outcome S) (l : list A) (s : S)
  : outcome S :=
  match l with
  | [] => Ret s
  | a :: l' => do s' <- f s a; foldM f l' s'
  end.

(** ** Objects *)

Inductive ObjectType : Type :=
| OBJ_INT
| OBJ_PAIR.

Global Instance ObjectType_eq_dec : EqDecision ObjectType.
Proof. solve_decision. Defined.

(** [struct sObject].  The C union overlays [value] with [head]/[tail]; the
    programs read [value] only under tag [OBJ_INT] and [head]/[tail] only under
    tag [OBJ_PAIR], and the tag of a cell is written once, when the cell is
    allocated, so the two views are kept as separate fields. *)
Record Object : Type := mkObject {
  type : ObjectType;
  moveTo : Z;
  value : Z;
  head : Z;
  tail : Z
}.

Global Instance Object_eq_dec : EqDecision Object.
Proof. solve_decision. Defined.

Definition NULL : Z := 0.

(** [sizeof(Object)] on an LP64 target: a 4-byte tag padded to 8, an 8-byte
    [moveTo] and a 16-byte union. *)
Definition sizeof_Object : Z := 32.

Definition STACK_MAX : Z := 256.

Definition set_type (t : ObjectType) (o : Object) : Object :=
  mkObject t (moveTo o) (value o) (head o) (tail o).
Definition set_moveTo (p : Z) (o : Object) : Object :=
  mkObject (type o) p (value o) (head o) (tail o).
Definition set_value (v : Z) (o : Object) : Object :=
  mkObject (type o) (moveTo o) v (head o) (tail o).
Definition set_head (p : Z) (o : Object) : Object :=
  mkObject (type o) (moveTo o) (value o) p (tail o).
Definition set_tail (p : Z) (o : Object) : Object :=
  mkObject (type o) (moveTo o) (value o) (head o) p.

(** ** Memory *)

Abbreviation memory := (gmap Z Object).

(** [*p] for an [Object* p]. *)
Definition load (m : memory) (p : Z) : outcome Object :=
  if decide (p = NULL) then Undef
  else match m !! p with
       | Some o => Ret o
       | None => Undef
       end.

(** The bytes found at an address a fresh cell is carved from: what an earlier
    cell left there, or the indeterminate contents of untouched memory (here
    all zero; the callers of [newObject] overwrite them before any read). *)
Definition raw (m : memory) (p : Z) : Object :=
  default (mkObject OBJ_INT NULL 0 NULL NULL) (m !! p).

(** The values [from] takes in
    [for (from = lo; from < hi; from += sizeof(Object))]. *)
Definition cell_addrs (lo hi : Z) : list Z :=
  (fun i => lo + sizeof_Object * Z.of_nat i)
    <$> seq 0 (Z.to_nat ((hi - lo + sizeof_Object - 1) `div` sizeof_Object)).

(** [p] is the address of a whole cell of the block [[base, limit)]. *)
Definition in_block (base limit p : Z) : Prop :=
  base <= p /\ p + sizeof_Object <= limit /\ (p - base) `mod` sizeof_Object = 0.

Global Instance in_block_dec base limit p : Decision (in_block base limit p).
Proof. unfold in_block. apply _. Defined.

(** ** The mark phase (identical in both programs) *)

(** [mark(object)].  [fuel] bounds the depth of the recursion.  The calls on
    the fields change no [type], [head] or [tail] (lemma [mark_ext_lookup]),
    so the fields of [object] are read once, before the calls. *)
Fixpoint mark (fuel : nat) (object : Z) (m : memory) : outcome memory :=
  match fuel with
  | O => OutOfFuel
  | S fuel' =>
      do o <- load m object;
      if decide (moveTo o = NULL) then
        let m1 := <[object := set_moveTo object o]> m in
        match type o with
        | OBJ_PAIR =>
            do m2 <- mark fuel' (head o) m1;
            mark fuel' (tail o) m2
        | OBJ_INT => Ret m1
        end
      else Ret m
  end.

(** The loop of [markAll(vm)]: the roots are marked from the bottom of the
    stack up.  The recursion budget is one more than the number of objects in
    memory, which [mark] never uses up (lemma [mark_roots_fuel_enough]). *)
Definition mark_roots (stack : list Z) (m : memory) : outcome memory :=
  foldM (fun m' root => mark (S (size m)) root m') stack m.

(** [mark] with a log of the objects it marks: every execution of the store
    [object->moveTo = object] appends [object] to the log. *)
Fixpoint mark_log (fuel : nat) (object : Z) (s : memory * list Z)
  : outcome (memory * list Z) :=
  match fuel with
  | O => OutOfFuel
  | S fuel' =>
      do o <- load s.1 object;
      if decide (moveTo o = NULL) then
        let s1 := (<[object := set_moveTo object o]> s.1, s.2 ++ [object]) in
        match type o with
        | OBJ_PAIR =>
            do s2 <- mark_log fuel' (head o) s1;
            mark_log fuel' (tail o) s2
        | OBJ_INT => Ret s1
        end
      else Ret s
  end.

Definition mark_roots_log (stack : list Z) (m : memory)
  : outcome (memory * list Z) :=
  foldM (fun s root => mark_log (S (size m)) root s) stack (m, []).

(** ** Phase one: forwarding addresses *)

Definition plan_step (s : memory * Z) (from : Z) : outcome (memory * Z) :=
  let '(m, to) := s in
  do o <- load m from;
  if decide (moveTo o = NULL) then Ret (m, to)
  else Ret (<[from := set_moveTo to o]> m, to + sizeof_Object).

(** The loop of [calculateNewLocations]: returns the memory and the final
    value of [to]. *)
Definition plan (heap next : Z) (m : memory) : outcome (memory * Z) :=
  foldM plan_step (cell_addrs heap next) (m, heap).

(** ** The operations of the mutator *)

Inductive Op : Type :=
| PushInt (v : Z)
| PushPair
| Pop.

(** ** The fixed-heap program, [lisp2.c] *)

Module Fixed.

Definition HEAP_SIZE : Z := 1024 * 1024.

(** [struct VM].  [stack] holds the entries [stack[0]] to
    [stack[stackSize - 1]], bottom first, so [stackSize] is its length; [mem]
    is the contents of the block [heap] points to; [out] collects the numbers
    printed by [gc], one per collection. *)
Record VM : Type := mkVM {
  stack : list Z;
  heap : Z;
  next : Z;
  mem : memory;
  out : list Z
}.

Definition stackSize (vm : VM) : Z := Z.of_nat (length (stack vm)).

(** [actualCount] of [assertLive]. *)
Definition liveCount (vm : VM) : Z := (next vm - heap vm) `div` sizeof_Object.

(** [newVM()], where [base] is the address [malloc(HEAP_SIZE)] returns. *)
Definition newVM (base : Z) : VM := mkVM [] base base ∅ [].

Definition push (vm : VM) (v : Z) : outcome VM :=
  if decide (stackSize vm = STACK_MAX) then Exit StackOverflow
  else Ret (mkVM (stack vm ++ [v]) (heap vm) (next vm) (mem vm) (out vm)).

(** [pop(vm)] has no guard: on an empty stack it reads [stack[-1]]. *)
Definition pop (vm : VM) : outcome (VM * Z) :=
  match last (stack vm) with
  | Some v =>
      Ret (mkVM (removelast (stack vm)) (heap vm) (next vm) (mem vm) (out vm), v)
  | None => Undef
  end.

Definition markAll (vm : VM) : outcome VM :=
  do m <- mark_roots (stack vm) (mem vm);
  Ret (mkVM (stack vm) (heap vm) (next vm) m (out vm)).

Definition calculateNewLocations (vm : VM) : outcome (VM * Z) :=
  do (m, to) <- plan (heap vm) (next vm) (mem vm);
  Ret (mkVM (stack vm) (heap vm) (next vm) m (out vm), to).

(** [vm->stack[i] = vm->stack[i]->moveTo] for every slot. *)
Fixpoint update_roots (m : memory) (roots : list Z) : outcome (list Z) :=
  match roots with
  | [] => Ret []
  | r :: roots' =>
      do o <- load m r;
      do rest <- update_roots m roots';
      Ret (moveTo o :: rest)
  end.

Definition update_step (m : memory) (from : Z) : outcome memory :=
  do o <- load m from;
  if decide (moveTo o <> NULL /\ type o = OBJ_PAIR) then
    do h <- load m (head o);
    let o1 := set_head (moveTo h) o in
    let m1 := <[from := o1]> m in
    do t <- load m1 (tail o1);
    Ret (<[from := set_tail (moveTo t) o1]> m1)
  else Ret m.

Definition updateAllObjectPointers (vm : VM) : outcome VM :=
  do roots <- update_roots (mem vm) (stack vm);
  do m <- foldM update_step (cell_addrs (heap vm) (next vm)) (mem vm);
  Ret (mkVM roots (heap vm) (next vm) m (out vm)).

(** One turn of the loop of [compact]: [memmove] to the planned address, then
    clear the mark of the copy.  A [memmove] to an address that is not a cell
    of the block is undefined. *)
Definition compact_step (base : Z) (m : memory) (from : Z) : outcome memory :=
  do o <- load m from;
  if decide (moveTo o = NULL) then Ret m
  else
    let to := moveTo o in
    if decide (in_block base (base + HEAP_SIZE) to) then
      Ret (<[to := set_moveTo NULL o]> (<[to := o]> m))
    else Undef.

Definition compact (vm : VM) : outcome VM :=
  do m <- foldM (compact_step (heap vm)) (cell_addrs (heap vm) (next vm)) (mem vm);
  Ret (mkVM (stack vm) (heap vm) (next vm) m (out vm)).

Definition gc (vm : VM) : outcome VM :=
  do vm1 <- markAll vm;
  do (vm2, end_) <- calculateNewLocations vm1;
  do vm3 <- updateAllObjectPointers vm2;
  do vm4 <- compact vm3;
  Ret (mkVM (stack vm4) (heap vm4) end_ (mem vm4)
            (out vm4 ++ [end_ - heap vm4])).

(** The tail of [newObject]: carve the cell at [next] and set its tag and
    mark. *)
Definition bump (vm : VM) (t : ObjectType) : outcome (VM * Z) :=
  let object := next vm in
  if decide (object = NULL) then Undef
  else
    Ret (mkVM (stack vm) (heap vm) (next vm + sizeof_Object)
              (<[object := set_moveTo NULL (set_type t (raw (mem vm) object))]>
                 (mem vm))
              (out vm),
         object).

Definition newObject (vm : VM) (t : ObjectType) : outcome (VM * Z) :=
  if decide (next vm + sizeof_Object > heap vm + HEAP_SIZE) then
    do vm' <- gc vm;
    if decide (next vm' + sizeof_Object > heap vm' + HEAP_SIZE)
    then Exit OutOfMemory
    else bump vm' t
  else bump vm t.

(** [object->field = v] for a field setter [f]. *)
Definition store (f : Object -> Object) (object : Z) (vm : VM) : outcome VM :=
  do o <- load (mem vm) object;
  Ret (mkVM (stack vm) (heap vm) (next vm) (<[object := f o]> (mem vm)) (out vm)).

Definition pushInt (vm : VM) (intValue : Z) : outcome VM :=
  do (vm1, object) <- newObject vm OBJ_INT;
  do vm2 <- store (set_value intValue) object vm1;
  push vm2 object.

Definition pushPair (vm : VM) : outcome (VM * Z) :=
  do (vm1, object) <- newObject vm OBJ_PAIR;
  do (vm2, t) <- pop vm1;
  do vm3 <- store (set_tail t) object vm2;
  do (vm4, h) <- pop vm3;
  do vm5 <- store (set_head h) object vm4;
  do vm6 <- push vm5 object;
  Ret (vm6, object).

Definition step (vm : VM) (op : Op) : outcome VM :=
  match op with
  | PushInt v => pushInt vm v
  | PushPair => do (vm', _) <- pushPair vm; Ret vm'
  | Pop => do (vm', _) <- pop vm; Ret vm'
  end.

(** A sequence of mutator operations. *)
Definition run (ops : list Op) (vm : VM) : outcome VM := foldM step ops vm.

End Fixed.

(** ** Double-precision arithmetic *)

(** The value a non-negative integer [n] is rounded to in [double] (IEEE 754
    binary64, round to nearest, ties to even): the nearest integer with at
    most 53 significant bits.  Below [2^53] that is [n] itself; above, the
    [s] low bits are dropped and the last bit kept takes the rounding.  Only
    the significand is bounded here, not the exponent: no size comes near
    [2^1024]. *)
Definition round53 (n : Z) : Z :=
  if decide (n < 2 ^ 53) then n
  else
    let s := Z.log2 n - 52 in
    let q := n `div` 2 ^ s in
    let r := n `mod` 2 ^ s in
    let half := 2 ^ (s - 1) in
    let q' := if decide (r < half) then q
              else if decide (half < r) then q + 1
              else if Z.even q then q else q + 1 in
    q' * 2 ^ s.

(** ** The reallocating program, [lisp2-reallocate.c] *)

Module Realloc.

Definition HEAP_MIN : Z := 16.

(** [struct VM]; [end_] is the field [end].  [out] collects the pairs
    (live bytes, heap size) printed by [gc]. *)
Record VM : Type := mkVM {
  stack : list Z;
  heap : Z;
  end_ : Z;
  next : Z;
  mem : memory;
  out : list (Z * Z)
}.

Definition stackSize (vm : VM) : Z := Z.of_nat (length (stack vm)).

Definition liveCount (vm : VM) : Z := (next vm - heap vm) `div` sizeof_Object.

(** [newVM()], where [base] is the address [malloc(HEAP_MIN)] returns. *)
Definition newVM (base : Z) : VM := mkVM [] base (base + HEAP_MIN) base ∅ [].

Definition push (vm : VM) (v : Z) : outcome VM :=
  if decide (stackSize vm < STACK_MAX) then
    Ret (mkVM (stack vm ++ [v]) (heap vm) (end_ vm) (next vm) (mem vm) (out vm))
  else Exit StackOverflow.

Definition pop (vm : VM) : outcome (VM * Z) :=
  if decide (stackSize vm > 0) then
    match last (stack vm) with
    | Some v =>
        Ret (mkVM (removelast (stack vm)) (heap vm) (end_ vm) (next vm) (mem vm)
                  (out vm), v)
    | None => Undef
    end
  else Exit StackUnderflow.

Definition markAll (vm : VM) : outcome VM :=
  do m <- mark_roots (stack vm) (mem vm);
  Ret (mkVM (stack vm) (heap vm) (end_ vm) (next vm) m (out vm)).

(** Returns [to - vm->heap], the number of live bytes. *)
Definition calculateNewLocations (vm : VM) : outcome (VM * Z) :=
  do (m, to) <- plan (heap vm) (next vm) (mem vm);
  Ret (mkVM (stack vm) (heap vm) (end_ vm) (next vm) m (out vm), to - heap vm).

(** The contents of the block after [realloc(old, size)] returned [new]:
    every cell that lies whole within the first [size] bytes is found at the
    same offset from [new], nothing else is addressable.  When [realloc] fails
    ([new] is [NULL]) the old block is left as it was. *)
Definition realloc_mem (m : memory) (old new size : Z) : memory :=
  if decide (new = NULL) then m
  else
    list_to_map
      (omap (fun off => (fun o => (new + off, o)) <$> m !! (old + off))
            (cell_addrs 0 (size - sizeof_Object + 1))).

(** One turn of the first loop of [updateAllObjectPointers].  The fields of
    a live pair are dereferenced as they are, not rebased. *)
Definition update_step (base oldHeap : Z) (m : memory) (from : Z)
  : outcome memory :=
  do o <- load m from;
  if decide (moveTo o = NULL) then Ret m
  else
    match type o with
    | OBJ_INT => Ret m
    | OBJ_PAIR =>
        do h <- load m (head o);
        let o1 := set_head (base + (moveTo h - oldHeap)) o in
        let m1 := <[from := o1]> m in
        do t <- load m1 (tail o1);
        Ret (<[from := set_tail (base + (moveTo t - oldHeap)) o1]> m1)
    end.

(** The second loop of [updateAllObjectPointers], over the stack. *)
Fixpoint update_roots (base oldHeap : Z) (m : memory) (roots : list Z)
  : outcome (list Z) :=
  match roots with
  | [] => Ret []
  | r :: roots' =>
      let object := (r - oldHeap) + base in
      do o <- load m object;
      do rest <- update_roots base oldHeap m roots';
      Ret (base + (moveTo o - oldHeap) :: rest)
  end.

Definition updateAllObjectPointers (vm : VM) (oldHeap : Z) : outcome VM :=
  do m <- foldM (update_step (heap vm) oldHeap)
                (cell_addrs (heap vm) (next vm)) (mem vm);
  do roots <- update_roots (heap vm) oldHeap m (stack vm);
  Ret (mkVM roots (heap vm) (end_ vm) (next vm) m (out vm)).

(** One turn of the loop of [compact]; the destination is rebased from
    [oldHeap] to the block at [base], which ends at [limit]. *)
Definition compact_step (base limit oldHeap : Z) (m : memory) (from : Z)
  : outcome memory :=
  do o <- load m from;
  if decide (moveTo o = NULL) then Ret m
  else
    let to := base + (moveTo o - oldHeap) in
    if decide (in_block base limit to) then
      Ret (<[to := set_moveTo NULL o]> (<[to := o]> m))
    else Undef.

Definition compact (vm : VM) (oldHeap : Z) : outcome VM :=
  do m <- foldM (compact_step (heap vm) (end_ vm) oldHeap)
                (cell_addrs (heap vm) (next vm)) (mem vm);
  Ret (mkVM (stack vm) (heap vm) (end_ vm) (next vm) m (out vm)).

Section WithAllocator.

(** [allocator old size] is the address [realloc(old, size)] returns; [NULL]
    when it fails. *)
Variable allocator : Z -> Z -> Z.

(** The heap size [gc] asks for,
    [size_t heapSize = liveSize * HEAP_HEADROOM + additionalSize], raised to
    [HEAP_MIN].  [HEAP_HEADROOM] is the [double] [1.5], so both sizes are
    converted to [double], the product and the sum are formed in [double],
    each rounded, and the result is converted back to [size_t], which
    truncates.  The product can be an odd multiple of one half: the two
    [double] values are counted in halves, which does not change what
    rounding to 53 significant bits does.  Sizes are natural numbers here,
    like addresses without the bound [2^64] of the machine; the theorems
    that give the value of a size state that it is not negative. *)
Definition heapSize_for (liveSize additionalSize : Z) : Z :=
  let product := round53 (3 * round53 liveSize) in
  let sum := round53 (product + 2 * round53 additionalSize) in
  let heapSize := sum `div` 2 in
  if decide (heapSize < HEAP_MIN) then HEAP_MIN else heapSize.

(** The first half of [gc]: mark, plan, resize the heap and set [heap], [end]
    and [next].  Returns the machine and [oldHeap]. *)
Definition gc_resize (vm : VM) (additionalSize : Z) : outcome (VM * Z) :=
  do vm1 <- markAll vm;
  do (vm2, liveSize) <- calculateNewLocations vm1;
  let heapSize := heapSize_for liveSize additionalSize in
  let oldHeap := heap vm2 in
  let newHeap := allocator oldHeap heapSize in
  Ret (mkVM (stack vm2) newHeap (newHeap + heapSize) (newHeap + liveSize)
            (realloc_mem (mem vm2) oldHeap newHeap heapSize) (out vm2),
       oldHeap).

Definition gc (vm : VM) (additionalSize : Z) : outcome VM :=
  do (vm3, oldHeap) <- gc_resize vm additionalSize;
  do vm4 <- updateAllObjectPointers vm3 oldHeap;
  do vm5 <- compact vm4 oldHeap;
  Ret (mkVM (stack vm5) (heap vm5) (end_ vm5) (next vm5) (mem vm5)
            (out vm5 ++ [(next vm5 - heap vm5, end_ vm5 - heap vm5)])).

Definition bump (vm : VM) (t : ObjectType) : outcome (VM * Z) :=
  let object := next vm in
  if decide (object = NULL) then Undef
  else
    Ret (mkVM (stack vm) (heap vm) (end_ vm) (next vm + sizeof_Object)
              (<[object := set_moveTo NULL (set_type t (raw (mem vm) object))]>
                 (mem vm))
              (out vm),
         object).

Definition newObject (vm : VM) (t : ObjectType) : outcome (VM * Z) :=
  if decide (next vm + sizeof_Object > end_ vm) then
    do vm' <- gc vm sizeof_Object;
    bump vm' t
  else bump vm t.

Definition store (f : Object -> Object) (object : Z) (vm : VM) : outcome VM :=
  do o <- load (mem vm) object;
  Ret (mkVM (stack vm) (heap vm) (end_ vm) (next vm)
            (<[object := f o]> (mem vm)) (out vm)).

Definition pushInt (vm : VM) (intValue : Z) : outcome VM :=
  do (vm1, object) <- newObject vm OBJ_INT;
  do vm2 <- store (set_value intValue) object vm1;
  push vm2 object.

Definition pushPair (vm : VM) : outcome (VM * Z) :=
  do (vm1, object) <- newObject vm OBJ_PAIR;
  do (vm2, t) <- pop vm1;
  do vm3 <- store (set_tail t) object vm2;
  do (vm4, h) <- pop vm3;
  do vm5 <- store (set_head h) object vm4;
  do vm6 <- push vm5 object;
  Ret (vm6, object).

Definition step (vm : VM) (op : Op) : outcome VM :=
  match op with
  | PushInt v => pushInt vm v
  | PushPair => do (vm', _) <- pushPair vm; Ret vm'
  | Pop => do (vm', _) <- pop vm; Ret vm'
  end.

(** A sequence of mutator operations. *)
Definition run (ops : list Op) (vm : VM) : outcome VM := foldM step ops vm.

End WithAllocator.

End Realloc.

(** ** Printing (identical in both programs) *)

(** [objectPrint(object)]: the text the call writes to the standard output.
    [fuel] bounds the depth of the recursion, which does not end on a cyclic
    structure.  [%d] prints a value in decimal, with a sign when negative. *)
Fixpoint objectPrint (fuel : nat) (m : memory) (object : Z) : outcome string :=
  match fuel with
  | O => OutOfFuel
  | S fuel' =>
      do o <- load m object;
      match type o with
      | OBJ_INT => Ret (pretty (value o))
      | OBJ_PAIR =>
          do h <- objectPrint fuel' m (head o);
          do t <- objectPrint fuel' m (tail o);
          Ret ("(" +:+ h +:+ ", " +:+ t +:+ ")")
      end
  end.

(** ** The performance test (identical in both programs) *)

(** The operations of [perfTest]: in round [i], twenty times [pushInt(vm, i)],
    then twenty times [pop(vm)]. *)
Definition perfTest_round (i : Z) : list Op :=
  replicate 20 (PushInt i) ++ replicate 20 Pop.

Definition perfTest_ops (rounds : nat) : list Op :=
  flat_map (fun i => perfTest_round (Z.of_nat i)) (seq 0 rounds).

(** * Specification vocabulary *)

(** ** Runs and machines used in examples *)

(** An allocator that always resizes the block where it is. *)
Definition in_place (old size : Z) : Z := old.

(** An allocator that always moves the block, far away. *)
Definition moving (old size : Z) : Z := old + 65536.

(** The machine an outcome returns. *)
Definition fixed_state (x : outcome Fixed.VM) : Fixed.VM :=
  match x with
  | Ret vm => vm
  | _ => Fixed.newVM NULL
  end.

Definition realloc_state (x : outcome Realloc.VM) : Realloc.VM :=
  match x with
  | Ret vm => vm
  | _ => Realloc.newVM NULL
  end.

Definition outcome_map {A B : Type} (f : A -> B) (x : outcome A) : outcome B :=
  do a <- x; Ret (f a).

(** The specification's [round(liveBytes × HEAP_HEADROOM)], in exact integer
    arithmetic, to compare [Realloc.heapSize_for] with. *)
Definition spec_headroom (liveBytes : Z) : Z := (liveBytes * 3) `div` 2.

(** There is room for one more cell. *)
Definition fixed_room (vm : Fixed.VM) : Prop :=
  Fixed.next vm + sizeof_Object <= Fixed.heap vm + Fixed.HEAP_SIZE.

Definition realloc_room (vm : Realloc.VM) : Prop :=
  Realloc.next vm + sizeof_Object <= Realloc.end_ vm.

Global Instance fixed_room_dec vm : Decision (fixed_room vm).
Proof. unfold fixed_room. apply _. Defined.

Global Instance realloc_room_dec vm : Decision (realloc_room vm).
Proof. unfold realloc_room. apply _. Defined.

(** A fixed heap that is one cell short of full. *)
Definition fixed_brim : Fixed.VM :=
  Fixed.mkVM [] 4096 (4096 + Fixed.HEAP_SIZE - sizeof_Object) ∅ [].

Definition realloc_two : Realloc.VM :=
  realloc_state (Realloc.run in_place [PushInt 1; PushInt 2] (Realloc.newVM 4096)).

Definition realloc_two_collected : Realloc.VM :=
  realloc_state (Realloc.gc in_place realloc_two 0).

Definition realloc_three : Realloc.VM :=
  realloc_state (Realloc.run in_place [PushInt 1; PushInt 2; PushInt 3]
                   (Realloc.newVM 4096)).

Definition realloc_four : Realloc.VM :=
  realloc_state (Realloc.run in_place [PushInt 1; PushInt 2; PushInt 3; PushInt 4]
                   (Realloc.newVM 4096)).

(** Three integers, the last one dropped, a fourth pushed. *)
Definition realloc_lost : Realloc.VM :=
  realloc_state (Realloc.run in_place
                   [PushInt 1; PushInt 2; PushInt 3; Pop; PushInt 4]
                   (Realloc.newVM 4096)).

Definition realloc_lost_resized : Realloc.VM * Z :=
  match Realloc.gc_resize in_place realloc_lost 0 with
  | Ret x => x
  | _ => (Realloc.newVM NULL, NULL)
  end.

(** Five integers, the last one dropped, three more pushed (the last of them
    makes [newObject] collect), two dropped. *)
Definition realloc_stale : Realloc.VM :=
  realloc_state
    (Realloc.run in_place
       (replicate 5 (PushInt 1) ++ [Pop] ++ replicate 3 (PushInt 2) ++ [Pop; Pop])
       (Realloc.newVM 4096)).

(** Five integers, the last one dropped, two more pushed. *)
Definition realloc_gap : Realloc.VM :=
  realloc_state
    (Realloc.run in_place
       (replicate 5 (PushInt 1) ++ [Pop] ++ [PushInt 6; PushInt 7])
       (Realloc.newVM 4096)).

(** Six integers, the last one dropped, the two before it paired. *)
Definition realloc_pair_on_top : Realloc.VM :=
  realloc_state
    (Realloc.run in_place (replicate 6 (PushInt 1) ++ [Pop; PushPair])
       (Realloc.newVM 4096)).

(** Twelve integers, the last two paired and the pair dropped, three more
    integers; the allocator moves the block at every [realloc]. *)
Definition realloc_dead_pair : Realloc.VM :=
  realloc_state
    (Realloc.run moving
       (replicate 12 (PushInt 7) ++ [PushPair; Pop] ++ replicate 3 (PushInt 9))
       (Realloc.newVM 4096)).

(** Three integers, the last one dropped, the other two paired. *)
Definition realloc_small_pair : Realloc.VM :=
  realloc_state
    (Realloc.run in_place [PushInt 1; PushInt 2; PushInt 3; Pop; PushPair]
       (Realloc.newVM 4096)).

(** The tags of the objects the stack refers to. *)
Definition root_tags (vm : Realloc.VM) : list (option ObjectType) :=
  (fun p => type <$> Realloc.mem vm !! p) <$> Realloc.stack vm.

(** A graph with a cycle: a pair whose tail is the pair itself and whose head
    is a second pair that points back to the first one and to an integer. *)
Definition cyclic_cells : list Z := [4096; 4128; 4160].

Definition cyclic_memory : memory :=
  <[4096 := mkObject OBJ_PAIR NULL 0 4128 4096]>
  (<[4128 := mkObject OBJ_PAIR NULL 0 4096 4160]>
  (<[4160 := mkObject OBJ_INT NULL 7 NULL NULL]> ∅)).

(** ** Cells, marks and reachability *)

(** Address of the [i]-th cell of a block that starts at [base]. *)
Definition cell (base : Z) (i : nat) : Z := base + sizeof_Object * Z.of_nat i.

Definition cells (base : Z) (n : nat) : list Z := cell base <$> seq 0 n.

(** [p] is one of the first [n] cells of the block at [base]. *)
Definition is_cell (base : Z) (n : nat) (p : Z) : Prop :=
  exists i, (i < n)%nat /\ p = cell base i.

(** The object at [p] carries a mark: its [moveTo] is not [NULL]. *)
Definition marked (m : memory) (p : Z) : Prop :=
  exists o, m !! p = Some o /\ moveTo o <> NULL.

Global Instance marked_dec m p : Decision (marked m p).
Proof.
  unfold marked. destruct (m !! p) as [o|] eqn:E.
  - destruct (decide (moveTo o = NULL)) as [Ho|Ho].
    + right. intros [o' [H1 H2]]. congruence.
    + left. eauto.
  - right. intros [o' [H1 _]]. discriminate.
Defined.

Definition unmarked_count (m : memory) : nat :=
  size (filter (fun kv : Z * Object => moveTo kv.2 = NULL) m).

(** [m'] is [m] with some unmarked objects marked with their own address. *)
Definition mark_ext (m m' : memory) : Prop :=
  forall q, m' !! q = m !! q \/
    exists o, m !! q = Some o /\ moveTo o = NULL /\ q <> NULL /\
              m' !! q = Some (set_moveTo q o).

(** The addresses in [D] hold objects, and the fields of the pairs among them
    stay in [D]. *)
Definition closed_on (D : Z -> Prop) (m : memory) : Prop :=
  forall p, D p ->
    p <> NULL /\ exists o, m !! p = Some o /\
      (type o = OBJ_PAIR -> D (head o) /\ D (tail o)).

(** Paths through the fields of pairs. *)
Inductive reach (m : memory) (p : Z) : Z -> Prop :=
| reach_refl : reach m p p
| reach_head q o :
    reach m p q -> m !! q = Some o -> type o = OBJ_PAIR -> reach m p (head o)
| reach_tail q o :
    reach m p q -> m !! q = Some o -> type o = OBJ_PAIR -> reach m p (tail o).

Definition reachable (m : memory) (roots : list Z) (q : Z) : Prop :=
  exists r, r ∈ roots /\ reach m r q.

Definition children_marked (m : memory) (q : Z) : Prop :=
  forall o, m !! q = Some o -> type o = OBJ_PAIR ->
    marked m (head o) /\ marked m (tail o).

(** An object of a graph laid out at the addresses [cells]: it is unmarked and
    the fields of a pair are among [cells]. *)
Definition node_ok (cells : list Z) (m : memory) (p : Z) : Prop :=
  p <> NULL /\
  match m !! p with
  | Some o => moveTo o = NULL /\
              (type o = OBJ_PAIR -> head o ∈ cells /\ tail o ∈ cells)
  | None => False
  end.

Global Instance node_ok_dec cells m p : Decision (node_ok cells m p).
Proof. unfold node_ok. destruct (m !! p); apply _. Defined.

Definition graph_ok (cells : list Z) (m : memory) : Prop :=
  Forall (node_ok cells m) cells.

Global Instance graph_ok_dec cells m : Decision (graph_ok cells m).
Proof. unfold graph_ok. apply _. Defined.

(** Every root is an integer object. *)
Definition all_ints (m : memory) (roots : list Z) : Prop :=
  Forall (fun r => match m !! r with
                   | Some o => type o = OBJ_INT
                   | None => False
                   end) roots.

Global Instance all_ints_dec m roots : Decision (all_ints m roots).
Proof.
  unfold all_ints. apply Forall_dec. intros r. destruct (m !! r); apply _.
Defined.

(** ** The phases, cell by cell *)

(** Number of marked cells among the first [k] cells of the block. *)
Fixpoint rank (m : memory) (base : Z) (k : nat) : nat :=
  match k with
  | O => O
  | S k' => (rank m base k' + if decide (marked m (cell base k')) then 1 else 0)%nat
  end.

(** The forwarding address stored in the object at [p]. *)
Definition fwd (m : memory) (p : Z) : Z :=
  match m !! p with
  | Some o => moveTo o
  | None => NULL
  end.

(** [p] can be dereferenced in [m]. *)
Definition valid (m : memory) (p : Z) : Prop := p <> NULL /\ is_Some (m !! p).

(** An object after the pointer-update phase of the fixed-heap program that
    ran on memory [m]. *)
Definition upd (m : memory) (o : Object) : Object :=
  if decide (moveTo o <> NULL /\ type o = OBJ_PAIR)
  then set_tail (fwd m (tail o)) (set_head (fwd m (head o)) o)
  else o.

(** Every marked cell holds the address of the slot it slides to. *)
Definition planned (base : Z) (n : nat) (m : memory) : Prop :=
  forall i, (i < n)%nat -> exists o, m !! cell base i = Some o /\
    (moveTo o <> NULL -> moveTo o = cell base (rank m base i)).

(** An object after the collection, with [f] the forwarding function. *)
Definition relocate (f : Z -> Z) (o : Object) : Object :=
  match type o with
  | OBJ_PAIR => mkObject OBJ_PAIR NULL (value o) (f (head o)) (f (tail o))
  | OBJ_INT => set_moveTo NULL o
  end.

(** ** Machines of the fixed-heap program *)

Module FixedSpec.
Import Fixed.

Definition in_heap (vm : VM) (p : Z) : Prop := in_block (heap vm) (next vm) p.

(** The state invariant between collections (I1 to I5 of the data model). *)
Definition wf (vm : VM) : Prop :=
  0 < heap vm /\
  heap vm <= next vm <= heap vm + HEAP_SIZE /\
  (next vm - heap vm) `mod` sizeof_Object = 0 /\
  closed_on (in_heap vm) (mem vm) /\
  (forall q, in_heap vm q -> ~ marked (mem vm) q) /\
  Forall (in_heap vm) (stack vm).

(** The same, with the number of cells made explicit. *)
Definition wf_n (n : nat) (vm : VM) : Prop :=
  0 < heap vm /\
  next vm = cell (heap vm) n /\
  cell (heap vm) n <= heap vm + HEAP_SIZE /\
  closed_on (is_cell (heap vm) n) (mem vm) /\
  (forall q, is_cell (heap vm) n q -> ~ marked (mem vm) q) /\
  Forall (is_cell (heap vm) n) (stack vm).

(** The machines the mutator can build.  [ms_setHead] and [ms_setTail] are the
    direct field assignments of the driver ([a->tail = b]), which can tie
    cycles. *)
Inductive mutator_state : VM -> Prop :=
| ms_new base : 0 < base -> mutator_state (newVM base)
| ms_pushInt vm v vm' :
    mutator_state vm -> pushInt vm v = Ret vm' -> mutator_state vm'
| ms_pushPair vm vm' p :
    mutator_state vm -> pushPair vm = Ret (vm', p) -> mutator_state vm'
| ms_pop vm vm' p :
    mutator_state vm -> pop vm = Ret (vm', p) -> mutator_state vm'
| ms_setHead vm a b o vm' :
    mutator_state vm -> in_heap vm a -> in_heap vm b ->
    mem vm !! a = Some o -> type o = OBJ_PAIR ->
    store (set_head b) a vm = Ret vm' -> mutator_state vm'
| ms_setTail vm a b o vm' :
    mutator_state vm -> in_heap vm a -> in_heap vm b ->
    mem vm !! a = Some o -> type o = OBJ_PAIR ->
    store (set_tail b) a vm = Ret vm' -> mutator_state vm'
| ms_gc vm vm' :
    mutator_state vm -> gc vm = Ret vm' -> mutator_state vm'.

End FixedSpec.

(** A run that neither exits nor exhausts the recursion budget: it returns or
    its behaviour is undefined. *)
Definition plain {A : Type} (x : outcome A) : Prop :=
  match x with
  | Ret _ | Undef => True
  | Exit _ | OutOfFuel => False
  end.

(** The four scenarios of the driver, in both programs. *)
Definition fixed_test3 : outcome Fixed.VM :=
  Fixed.run [PushInt 1; PushInt 2; PushPair; PushInt 3; PushInt 4; PushPair; PushPair]
    (Fixed.newVM 4096).

Definition fixed_test4 : outcome Fixed.VM :=
  do vm <- Fixed.run [PushInt 1; PushInt 2] (Fixed.newVM 4096);
  do (vm, a) <- Fixed.pushPair vm;
  do vm <- Fixed.run [PushInt 3; PushInt 4] vm;
  do (vm, b) <- Fixed.pushPair vm;
  do vm <- Fixed.store (set_tail b) a vm;
  Fixed.store (set_tail a) b vm.

Definition realloc_test3 (al : Z -> Z -> Z) : outcome Realloc.VM :=
  Realloc.run al
    [PushInt 1; PushInt 2; PushPair; PushInt 3; PushInt 4; PushPair; PushPair]
    (Realloc.newVM 4096).

Definition realloc_test4 (al : Z -> Z -> Z) : outcome Realloc.VM :=
  do vm <- Realloc.run al [PushInt 1; PushInt 2] (Realloc.newVM 4096);
  do (vm, a) <- Realloc.pushPair al vm;
  do vm <- Realloc.run al [PushInt 3; PushInt 4] vm;
  do (vm, b) <- Realloc.pushPair al vm;
  do vm <- Realloc.store (set_tail b) a vm;
  Realloc.store (set_tail a) b vm.

(** Settles a closed decidable proposition by evaluation. *)
Ltac by_decide := apply (bool_decide_unpack _); vm_compute; exact I.

(** ** Machines of the reallocating program *)

Module ReallocSpec.
Import Realloc.

(** The state invariant of the fixed-heap program, read on a machine of the
    reallocating one whose heap holds [n] cells. *)
Definition wf_n (n : nat) (vm : VM) : Prop :=
  0 < heap vm /\
  next vm = cell (heap vm) n /\
  closed_on (is_cell (heap vm) n) (mem vm) /\
  (forall q, is_cell (heap vm) n q -> ~ marked (mem vm) q) /\
  Forall (is_cell (heap vm) n) (stack vm).

(** The reachable cells are the lowest [k] of the [n] cells: no dead cell lies
    below a live one. *)
Definition live_prefix (n k : nat) (vm : VM) : Prop :=
  (k <= n)%nat /\
  forall i, (i < n)%nat ->
    (reachable (mem vm) (stack vm) (cell (heap vm) i) <-> (i < k)%nat).

(** A heap of [n] cells without garbage, with the frontier inside the block. *)
Definition tidy (n : nat) (vm : VM) : Prop :=
  wf_n n vm /\ live_prefix n n vm /\ next vm <= end_ vm.

(** The outcome of a run that never pops: it returns a tidy machine, or it
    stops at a guard of the stack. *)
Definition tidy_outcome (n : nat) (x : outcome VM) : Prop :=
  match x with
  | Ret vm => tidy n vm
  | Exit StackOverflow | Exit StackUnderflow => True
  | _ => False
  end.

End ReallocSpec.

(** ** Machines of the performance test *)

Module FixedChurnSpec.
Import Fixed FixedSpec.

(** Every cell of the heap holds an integer. *)
Definition heap_of_ints (vm : VM) : Prop :=
  forall q, in_heap vm q -> exists o, mem vm !! q = Some o /\ type o = OBJ_INT.

(** The machines of [perfTest]: built by the mutator, integers only, [s]
    entries on the stack. *)
Definition churning (s : nat) (vm : VM) : Prop :=
  mutator_state vm /\ heap_of_ints vm /\ length (stack vm) = s.

End FixedChurnSpec.

(** ** More machines used in examples *)

(** Two integers paired, a third pushed and dropped, a fourth paired with the
    pair: one dead cell lies between live ones. *)
Definition garbage_ops : list Op :=
  [PushInt 1; PushInt 2; PushPair; PushInt 3; Pop; PushInt 4; PushPair].

Definition fixed_garbage : Fixed.VM :=
  fixed_state (Fixed.run garbage_ops (Fixed.newVM 4096)).

Definition fixed_garbage_collected : Fixed.VM :=
  fixed_state (Fixed.gc fixed_garbage).

(** Two integers pushed and dropped. *)
Definition fixed_emptied : Fixed.VM :=
  fixed_state (Fixed.run [PushInt 1; PushInt 2; Pop; Pop] (Fixed.newVM 4096)).

(** A pair of two integers below a third integer. *)
Definition fixed_pair_and_int : Fixed.VM :=
  fixed_state (Fixed.run [PushInt 1; PushInt 2; PushPair; PushInt 3]
                 (Fixed.newVM 4096)).

Definition fixed_pair_of_pair : Fixed.VM :=
  fixed_state (outcome_map fst (Fixed.pushPair fixed_pair_and_int)).

(** Stacks with [STACK_MAX] entries. *)
Definition fixed_full_stack : Fixed.VM :=
  fixed_state (Fixed.run (replicate 256 (PushInt 7)) (Fixed.newVM 4096)).

Definition realloc_full_stack : Realloc.VM :=
  realloc_state (Realloc.run in_place (replicate 256 (PushInt 7)) (Realloc.newVM 4096)).

(** A pair of two integers, and a third integer pushed and dropped: the only
    dead cell is the topmost one. *)
Definition realloc_top_dropped : Realloc.VM :=
  realloc_state
    (Realloc.run in_place [PushInt 1; PushInt 2; PushPair; PushInt 3; Pop]
       (Realloc.newVM 4096)).



(** Five integers, the last one dropped, the two before it paired, the pair
    paired with the second integer, and a sixth integer pushed, which makes
    [newObject] collect. *)
Definition realloc_stale_root : Realloc.VM :=
  realloc_state
    (Realloc.run in_place
       (replicate 5 (PushInt 1) ++ [Pop; PushPair; PushPair; PushInt 9])
       (Realloc.newVM 4096)).

(** The cyclic graph after [mark] ran on its integer. *)
Definition cyclic_marked : memory :=
  match mark_roots [4160] cyclic_memory with
  | Ret m => m
  | _ => ∅
  end.

(** * Proofs *)

(** ** Outcome monad *)

Lemma bind_Ret {A B} (x : outcome A) (k : A -> outcome B) b :
  bind x k = Ret b <-> exists a, x = Ret a /\ k a = Ret b.
Proof.
  destruct x as [a| | |]; simpl; split.
  - intros H. exists a. auto.
  - intros [a' [Ha H]]. inversion Ha; subst; auto.
  - discriminate.
  - intros [a' [Ha _]]. discriminate.
  - discriminate.
  - intros [a' [Ha _]]. discriminate.
  - discriminate.
  - intros [a' [Ha _]]. discriminate.
Qed.

Lemma bind_Ret_l {A B} (a : A) (k : A -> outcome B) : bind (Ret a) k = k a.
Proof. reflexivity. Qed.

Lemma foldM_app {A S} (f : S -> A -> outcome S) l1 l2 s :
  foldM f (l1 ++ l2) s = do s' <- foldM f l1 s; foldM f l2 s'.
Proof.
  revert s; induction l1 as [|a l1 IH]; intros s; simpl; [reflexivity|].
  destruct (f s a); simpl; auto.
Qed.

Lemma foldM_snoc {A S} (f : S -> A -> outcome S) l a s :
  foldM f (l ++ [a]) s = do s' <- foldM f l s; f s' a.
Proof.
  rewrite foldM_app. destruct (foldM f l s); simpl; auto.
  destruct (f a0 a); reflexivity.
Qed.

Lemma load_Ret m p o : load m p = Ret o <-> p <> NULL /\ m !! p = Some o.
Proof.
  unfold load. destruct (decide (p = NULL)).
  - split; [discriminate | tauto].
  - destruct (m !! p); split; intros H; try discriminate.
    + inversion H; auto.
    + destruct H as [_ H]; inversion H; auto.
    + destruct H; discriminate.
Qed.

Lemma load_Some m p o : p <> NULL -> m !! p = Some o -> load m p = Ret o.
Proof. intros. apply load_Ret; auto. Qed.

Lemma load_not_exit m p f : load m p <> Exit f.
Proof. unfold load. destruct (decide _); [discriminate|]. destruct (m !! p); discriminate. Qed.

Lemma load_not_out_of_fuel m p : load m p <> OutOfFuel.
Proof. unfold load. destruct (decide _); [discriminate|]. destruct (m !! p); discriminate. Qed.

(** ** Cells *)

Lemma cell_inj base i j : cell base i = cell base j -> i = j.
Proof. unfold cell, sizeof_Object. lia. Qed.

Lemma cell_S base i : cell base (S i) = cell base i + sizeof_Object.
Proof. unfold cell, sizeof_Object. lia. Qed.

Lemma cells_S base n : cells base (S n) = cells base n ++ [cell base n].
Proof. unfold cells. rewrite seq_S, fmap_app. reflexivity. Qed.

Lemma cell_addrs_cells base n : cell_addrs base (cell base n) = cells base n.
Proof.
  unfold cell_addrs, cells, cell, sizeof_Object. f_equal. f_equal.
  replace (base + 32 * Z.of_nat n - base + 32 - 1) with (31 + Z.of_nat n * 32) by lia.
  rewrite Z.div_add by lia. change (31 `div` 32) with 0. lia.
Qed.

Lemma elem_of_cells base n p :
  p ∈ cells base n <-> exists i, (i < n)%nat /\ p = cell base i.
Proof.
  unfold cells. rewrite list_elem_of_fmap. split.
  - intros [i [-> Hi]]. apply elem_of_seq in Hi. exists i. split; [lia|auto].
  - intros [i [Hi ->]]. exists i. split; auto. apply elem_of_seq. lia.
Qed.

(** ** Marking *)

Lemma mark_ext_refl m : mark_ext m m.
Proof. intros q. left. reflexivity. Qed.

Lemma mark_ext_step m p o :
  m !! p = Some o -> moveTo o = NULL -> p <> NULL ->
  mark_ext m (<[p := set_moveTo p o]> m).
Proof.
  intros Hp Ho Hn q. destruct (decide (q = p)) as [->|Hq].
  - right. exists o. rewrite lookup_insert_eq. auto.
  - left. rewrite lookup_insert_ne; auto.
Qed.

Lemma mark_ext_trans m1 m2 m3 : mark_ext m1 m2 -> mark_ext m2 m3 -> mark_ext m1 m3.
Proof.
  intros H12 H23 q. destruct (H23 q) as [E|[o [Hq [Ho [Hn E]]]]].
  - rewrite E. apply H12.
  - destruct (H12 q) as [E'|[o' [Hq' [Ho' [_ E']]]]].
    + right. exists o. rewrite <- E'. auto.
    + rewrite E' in Hq. inversion Hq; subst o. simpl in Ho. contradiction.
Qed.

Lemma mark_ext_lookup m m' q o :
  mark_ext m m' -> m !! q = Some o ->
  exists o', m' !! q = Some o' /\ type o' = type o /\ value o' = value o /\
             head o' = head o /\ tail o' = tail o /\
             (moveTo o <> NULL -> o' = o) /\
             (moveTo o' <> NULL -> moveTo o = NULL -> q <> NULL /\ moveTo o' = q).
Proof.
  intros H Hq. destruct (H q) as [E|[o0 [Hq0 [Ho0 [Hn E]]]]].
  - exists o. rewrite E. repeat split; auto. intros; contradiction.
  - rewrite Hq in Hq0. inversion Hq0; subst o0. exists (set_moveTo q o).
    repeat split; auto. intros; contradiction.
Qed.

Lemma mark_ext_lookup_inv m m' q o' :
  mark_ext m m' -> m' !! q = Some o' ->
  exists o, m !! q = Some o /\ type o' = type o /\ value o' = value o /\
            head o' = head o /\ tail o' = tail o /\
            (moveTo o' = NULL -> o' = o).
Proof.
  intros H Hq. destruct (H q) as [E|[o0 [Hq0 [Ho0 [Hn E]]]]].
  - exists o'. rewrite <- E. repeat split; auto.
  - rewrite Hq in E. inversion E; subst o'. exists o0. repeat split; auto.
    simpl. intros; contradiction.
Qed.

Lemma mark_ext_marked m m' q : mark_ext m m' -> marked m q -> marked m' q.
Proof.
  intros H [o [Hq Ho]]. destruct (mark_ext_lookup _ _ _ _ H Hq) as [o' [Hq' [_ [_ [_ [_ [E _]]]]]]].
  rewrite (E Ho) in Hq'. exists o. auto.
Qed.

Lemma mark_ext_closed D m m' : mark_ext m m' -> closed_on D m -> closed_on D m'.
Proof.
  intros H Hc p Hp. destruct (Hc p Hp) as [Hn [o [Hq Hch]]]. split; auto.
  destruct (mark_ext_lookup _ _ _ _ H Hq) as [o' [Hq' [Ht [_ [Hh [Htl _]]]]]].
  exists o'. split; auto. rewrite Ht, Hh, Htl. auto.
Qed.

Lemma mark_ext_dom m m' : mark_ext m m' -> dom m' = dom m.
Proof.
  intros H. apply set_eq. intros q. rewrite !elem_of_dom.
  destruct (H q) as [E|[o [Hq [_ [_ E]]]]].
  - rewrite E. reflexivity.
  - rewrite E, Hq. split; eauto.
Qed.

Lemma mark_ext_size m m' : mark_ext m m' -> size m' = size m.
Proof. intros H. rewrite <- !size_dom. rewrite (mark_ext_dom _ _ H). reflexivity. Qed.

Lemma mark_ext_unmarked_count m m' :
  mark_ext m m' -> (unmarked_count m' <= unmarked_count m)%nat.
Proof.
  intros H. unfold unmarked_count. rewrite <- !size_dom.
  apply subseteq_size. intros q. rewrite !elem_of_dom.
  intros [o' Hq]. apply map_lookup_filter_Some in Hq. destruct Hq as [Hq Ho]. simpl in Ho.
  destruct (mark_ext_lookup_inv _ _ _ _ H Hq) as [o [Hq0 [_ [_ [_ [_ E]]]]]].
  exists o. apply map_lookup_filter_Some. split; auto. simpl. rewrite <- (E Ho). auto.
Qed.

Lemma unmarked_count_le_size m : (unmarked_count m <= size m)%nat.
Proof. apply map_subseteq_size, map_filter_subseteq. Qed.

Lemma unmarked_count_step m p o :
  m !! p = Some o -> moveTo o = NULL -> p <> NULL ->
  S (unmarked_count (<[p := set_moveTo p o]> m)) = unmarked_count m.
Proof.
  intros Hp Ho Hn. unfold unmarked_count.
  rewrite map_filter_insert_False by (simpl; auto).
  rewrite map_filter_delete.
  assert (Hf : filter (fun kv : Z * Object => moveTo kv.2 = NULL) m !! p = Some o).
  { apply map_lookup_filter_Some. auto. }
  rewrite map_size_delete_Some by eauto.
  assert (size (filter (fun kv : Z * Object => moveTo kv.2 = NULL) m) <> 0%nat).
  { apply map_size_ne_0_lookup_2 with p. eauto. }
  lia.
Qed.

Lemma mark_ext_of_mark fuel : forall p m m',
  mark fuel p m = Ret m' -> mark_ext m m'.
Proof.
  induction fuel as [|fuel IH]; intros p m m' H; simpl in H; [discriminate|].
  apply bind_Ret in H. destruct H as [o [Hl H]]. apply load_Ret in Hl.
  destruct Hl as [Hn Hp].
  destruct (decide (moveTo o = NULL)) as [Ho|Ho].
  - pose proof (mark_ext_step _ _ _ Hp Ho Hn) as H1.
    destruct (type o).
    + inversion H; subst. auto.
    + apply bind_Ret in H. destruct H as [m2 [H2 H3]].
      eapply mark_ext_trans; [exact H1|].
      eapply mark_ext_trans; eauto.
  - inversion H; subst. apply mark_ext_refl.
Qed.

(** [mark] never exhausts a budget larger than the number of unmarked
    objects. *)
Lemma mark_fuel_enough fuel : forall p m,
  (unmarked_count m < fuel)%nat -> mark fuel p m <> OutOfFuel.
Proof.
  induction fuel as [|fuel IH]; intros p m Hf; [lia|]. simpl.
  destruct (load m p) as [o| | |] eqn:Hl; simpl; try discriminate.
  { apply load_Ret in Hl. destruct Hl as [Hn Hp].
    destruct (decide (moveTo o = NULL)) as [Ho|Ho]; [|discriminate].
    pose proof (unmarked_count_step _ _ _ Hp Ho Hn) as Hc.
    destruct (type o); [discriminate|].
    destruct (mark fuel (head o) _) as [m2| | |] eqn:H2; simpl; try discriminate.
    - apply IH. apply mark_ext_of_mark in H2.
      apply mark_ext_unmarked_count in H2. lia.
    - exfalso. revert H2. apply IH. lia. }
  exfalso. revert Hl. apply load_not_out_of_fuel.
Qed.

Lemma mark_not_exit fuel : forall p m f, mark fuel p m <> Exit f.
Proof.
  induction fuel as [|fuel IH]; intros p m f; simpl; [discriminate|].
  destruct (load m p) as [o| | |] eqn:Hl; simpl; try discriminate.
  - destruct (decide _); [|discriminate].
    destruct (type o); [discriminate|].
    destruct (mark fuel (head o) _) as [m2| | |] eqn:H2; simpl; try discriminate.
    + apply IH.
    + exfalso. revert H2. apply IH.
  - exfalso. revert Hl. apply load_not_exit.
Qed.

(** On a closed graph, [mark] returns. *)
Lemma mark_returns fuel : forall D p m,
  closed_on D m -> D p -> (unmarked_count m < fuel)%nat ->
  exists m', mark fuel p m = Ret m'.
Proof.
  induction fuel as [|fuel IH]; intros D p m Hc Hp Hf; [lia|]. simpl.
  destruct (Hc p Hp) as [Hn [o [Hq Hch]]].
  rewrite (load_Some _ _ _ Hn Hq). simpl.
  destruct (decide (moveTo o = NULL)) as [Ho|Ho]; [|eauto].
  pose proof (unmarked_count_step _ _ _ Hq Ho Hn) as Hcnt.
  pose proof (mark_ext_step _ _ _ Hq Ho Hn) as H1.
  destruct (type o) eqn:Ht; [eauto|].
  destruct Hch as [Hh Htl]; auto.
  destruct (IH D (head o) _ (mark_ext_closed _ _ _ H1 Hc) Hh ltac:(lia)) as [m2 H2].
  rewrite H2. simpl.
  pose proof (mark_ext_of_mark _ _ _ _ H2) as E2.
  apply (IH D); auto.
  - eapply mark_ext_closed; eauto. eapply mark_ext_closed; eauto.
  - apply mark_ext_unmarked_count in E2. lia.
Qed.

Lemma reach_trans m a b c : reach m a b -> reach m b c -> reach m a c.
Proof.
  intros Hab Hbc. induction Hbc; auto.
  - eapply reach_head; eauto.
  - eapply reach_tail; eauto.
Qed.

Lemma reach_ext m m' a b : mark_ext m m' -> reach m' a b -> reach m a b.
Proof.
  intros H Hr. induction Hr as [|q o Hr IH Hq Ht|q o Hr IH Hq Ht].
  - constructor.
  - destruct (mark_ext_lookup_inv _ _ _ _ H Hq) as [o0 [Hq0 [Ht0 [_ [Hh [Htl _]]]]]].
    rewrite Hh. eapply reach_head; eauto. congruence.
  - destruct (mark_ext_lookup_inv _ _ _ _ H Hq) as [o0 [Hq0 [Ht0 [_ [Hh [Htl _]]]]]].
    rewrite Htl. eapply reach_tail; eauto. congruence.
Qed.

Lemma reach_ext_inv m m' a b : mark_ext m m' -> reach m a b -> reach m' a b.
Proof.
  intros H Hr. induction Hr as [|q o Hr IH Hq Ht|q o Hr IH Hq Ht].
  - constructor.
  - destruct (mark_ext_lookup _ _ _ _ H Hq) as [o' [Hq' [Ht' [_ [Hh [Htl _]]]]]].
    rewrite <- Hh. eapply reach_head; eauto. congruence.
  - destruct (mark_ext_lookup _ _ _ _ H Hq) as [o' [Hq' [Ht' [_ [Hh [Htl _]]]]]].
    rewrite <- Htl. eapply reach_tail; eauto. congruence.
Qed.

Lemma children_marked_ext m m' q :
  mark_ext m m' -> marked m q -> children_marked m q -> children_marked m' q.
Proof.
  intros H [o [Hq Ho]] Hc o' Hq' Ht.
  destruct (mark_ext_lookup _ _ _ _ H Hq) as [o1 [Hq1 [_ [_ [_ [_ [E _]]]]]]].
  rewrite Hq1 in Hq'. inversion Hq'; subst o1. rewrite (E Ho) in *.
  destruct (Hc o Hq Ht). split; eapply mark_ext_marked; eauto.
Qed.

(** What one call of [mark] does: it marks [p], and every object it newly
    marks can be reached from [p] and has its fields marked. *)
Lemma mark_spec fuel : forall p m m',
  mark fuel p m = Ret m' ->
  marked m' p /\
  forall q, marked m' q -> ~ marked m q -> children_marked m' q /\ reach m p q.
Proof.
  induction fuel as [|fuel IH]; intros p m m' H; [discriminate|].
  pose proof (mark_ext_of_mark _ _ _ _ H) as Hext.
  simpl in H. apply bind_Ret in H. destruct H as [o [Hl H]].
  apply load_Ret in Hl. destruct Hl as [Hn Hp].
  destruct (decide (moveTo o = NULL)) as [Ho|Ho].
  2:{ inversion H; subst m'. split; [exists o; auto|]. intros q Hq Hnq. contradiction. }
  pose proof (mark_ext_step _ _ _ Hp Ho Hn) as H1.
  assert (Hp1 : marked (<[p := set_moveTo p o]> m) p).
  { exists (set_moveTo p o). rewrite lookup_insert_eq. auto. }
  destruct (type o) eqn:Ht.
  - inversion H; subst m'. split; auto.
    intros q Hq Hnq. destruct (decide (q = p)) as [->|Hne].
    + split; [|constructor]. intros o' Hq' Ht'. rewrite lookup_insert_eq in Hq'.
      inversion Hq'; subst o'. simpl in Ht'. congruence.
    + exfalso. apply Hnq. destruct Hq as [o' [Hq' Ho']].
      rewrite lookup_insert_ne in Hq' by auto. exists o'. auto.
  - apply bind_Ret in H. destruct H as [m2 [H2 H3]].
    pose proof (mark_ext_of_mark _ _ _ _ H2) as E2.
    pose proof (mark_ext_of_mark _ _ _ _ H3) as E3.
    destruct (IH _ _ _ H2) as [Mh N2]. destruct (IH _ _ _ H3) as [Mt N3].
    assert (Hp3 : marked m' p).
    { eapply mark_ext_marked; [exact E3|]. eapply mark_ext_marked; eauto. }
    split; auto.
    intros q Hq Hnq.
    destruct (decide (q = p)) as [->|Hne].
    + split; [|constructor]. intros o' Hq' Ht'.
      destruct (mark_ext_lookup _ _ _ _ Hext Hp) as [o1 [Hq1 [_ [_ [Hh [Htl _]]]]]].
      rewrite Hq1 in Hq'. inversion Hq'; subst o1. rewrite Hh, Htl.
      split; auto. eapply mark_ext_marked; eauto.
    + assert (Hn1 : ~ marked (<[p := set_moveTo p o]> m) q).
      { intros [o' [Hq' Ho']]. rewrite lookup_insert_ne in Hq' by auto.
        apply Hnq. exists o'. auto. }
      destruct (decide (marked m2 q)) as [Hm2|Hm2].
      * destruct (N2 q Hm2 Hn1) as [C R]. split.
        -- eapply children_marked_ext; eauto.
        -- apply reach_trans with (head o).
           ++ eapply reach_head; eauto. constructor.
           ++ eapply reach_ext; eauto.
      * destruct (N3 q Hq Hm2) as [C R]. split; auto.
        apply reach_trans with (tail o).
        -- eapply reach_tail; eauto. constructor.
        -- eapply reach_ext; [exact H1|]. eapply reach_ext; eauto.
Qed.

(** ** Marking from the roots *)

Lemma mark_list_fuel_enough fuel : forall roots m,
  (unmarked_count m < fuel)%nat ->
  foldM (fun m' root => mark fuel root m') roots m <> OutOfFuel.
Proof.
  induction roots as [|r roots IH]; intros m Hf; simpl; [discriminate|].
  destruct (mark fuel r m) as [m1| | |] eqn:H1; simpl; try discriminate.
  - apply IH. apply mark_ext_of_mark, mark_ext_unmarked_count in H1. lia.
  - exfalso. revert H1. apply mark_fuel_enough. auto.
Qed.

Lemma mark_roots_fuel_enough roots m : mark_roots roots m <> OutOfFuel.
Proof.
  apply mark_list_fuel_enough. pose proof (unmarked_count_le_size m). lia.
Qed.

Lemma mark_list_spec fuel D : forall roots m,
  closed_on D m -> Forall D roots -> (unmarked_count m < fuel)%nat ->
  exists m', foldM (fun m' root => mark fuel root m') roots m = Ret m' /\
    mark_ext m m' /\
    (forall r, r ∈ roots -> marked m' r) /\
    (forall q, marked m' q -> ~ marked m q ->
       children_marked m' q /\ reachable m roots q).
Proof.
  induction roots as [|r roots IH]; intros m Hc Hr Hf; simpl.
  - exists m. split; auto. split; [apply mark_ext_refl|].
    split; [intros r Hr'; inversion Hr'|]. intros q Hq Hn. contradiction.
  - inversion Hr as [|? ? Hr1 Hr2]; subst.
    destruct (mark_returns fuel D r m Hc Hr1 Hf) as [m1 H1]. rewrite H1. simpl.
    pose proof (mark_ext_of_mark _ _ _ _ H1) as E1.
    destruct (mark_spec _ _ _ _ H1) as [M1 N1].
    destruct (IH m1) as [m' [H' [E' [M' N']]]]; auto.
    { eapply mark_ext_closed; eauto. }
    { apply mark_ext_unmarked_count in E1. lia. }
    exists m'. split; auto. split; [eapply mark_ext_trans; eauto|]. split.
    + intros r' Hr'. apply elem_of_cons in Hr'. destruct Hr' as [->|Hr']; auto.
      eapply mark_ext_marked; eauto.
    + intros q Hq Hn. destruct (decide (marked m1 q)) as [Hm1|Hm1].
      * destruct (N1 q Hm1 Hn) as [C R]. split.
        -- eapply children_marked_ext; eauto.
        -- exists r. split; [left|auto].
      * destruct (N' q Hq Hm1) as [C [r' [Hr' R]]]. split; auto.
        exists r'. split; [right; auto|]. eapply reach_ext; eauto.
Qed.

Lemma reach_closed D m r q : closed_on D m -> D r -> reach m r q -> D q.
Proof.
  intros Hc Hr H. induction H as [|q o H IH Hq Ht|q o H IH Hq Ht]; auto.
  - destruct (Hc q IH) as [_ [o' [Hq' Hch]]]. rewrite Hq in Hq'. inversion Hq'; subst.
    apply Hch; auto.
  - destruct (Hc q IH) as [_ [o' [Hq' Hch]]]. rewrite Hq in Hq'. inversion Hq'; subst.
    apply Hch; auto.
Qed.

(** After the mark phase the marked objects are the reachable ones. *)
Lemma mark_roots_spec D roots m :
  closed_on D m -> Forall D roots -> (forall q, D q -> ~ marked m q) ->
  exists m', mark_roots roots m = Ret m' /\ mark_ext m m' /\
    (forall q, ~ D q -> m' !! q = m !! q) /\
    forall q, D q -> (marked m' q <-> reachable m roots q).
Proof.
  intros Hc Hr Hun.
  destruct (mark_list_spec (S (size m)) D roots m Hc Hr) as [m' [H' [E' [M' N']]]].
  { pose proof (unmarked_count_le_size m). lia. }
  exists m'. split; auto. split; auto. split.
  { intros q Hq. destruct (E' q) as [E|[o [Ho [Hz [Hn E]]]]]; auto.
    exfalso. apply Hq.
    destruct (N' q) as [_ [r [Hr' R]]].
    - exists (set_moveTo q o). auto.
    - intros [o' [Ho' Hm]]. congruence.
    - eapply reach_closed; eauto. rewrite Forall_forall in Hr. auto. }
  intros q Hq. split.
  - intros Hm. apply N'; auto.
  - intros [r [Hr' R]].
    assert (Dr : D r) by (rewrite Forall_forall in Hr; auto).
    induction R as [|q o R IH Hq' Ht|q o R IH Hq' Ht]; auto.
    + assert (Dq : D q) by (eapply reach_closed; eauto).
      destruct (N' q (IH Dq) (Hun q Dq)) as [C _].
      destruct (mark_ext_lookup _ _ _ _ E' Hq') as [o' [Ho' [Ht' [_ [Hh [Htl _]]]]]].
      rewrite <- Hh. apply (C o'); auto. congruence.
    + assert (Dq : D q) by (eapply reach_closed; eauto).
      destruct (N' q (IH Dq) (Hun q Dq)) as [C _].
      destruct (mark_ext_lookup _ _ _ _ E' Hq') as [o' [Ho' [Ht' [_ [Hh [Htl _]]]]]].
      rewrite <- Htl. apply (C o'); auto. congruence.
Qed.

(** ** Ranks *)

Lemma rank_le m base k : (rank m base k <= k)%nat.
Proof. induction k; simpl; [lia|]. destruct (decide _); lia. Qed.

Lemma rank_mono m base i j : (i <= j)%nat -> (rank m base i <= rank m base j)%nat.
Proof. induction 1; simpl; [lia|]. destruct (decide _); lia. Qed.

Lemma rank_lt m base i j :
  (i < j)%nat -> marked m (cell base i) -> (rank m base i < rank m base j)%nat.
Proof.
  intros Hij Hm. assert (H : (rank m base (S i) <= rank m base j)%nat)
    by (apply rank_mono; lia).
  simpl in H. destruct (decide (marked m (cell base i))); [lia|contradiction].
Qed.

Lemma rank_ext m m' base k :
  (forall i, (i < k)%nat -> (marked m (cell base i) <-> marked m' (cell base i))) ->
  rank m base k = rank m' base k.
Proof.
  induction k as [|k IH]; intros H; simpl; [reflexivity|].
  rewrite IH by (intros; apply H; lia).
  destruct (H k ltac:(lia)) as [H1 H2].
  destruct (decide (marked m (cell base k))), (decide (marked m' (cell base k)));
    tauto || reflexivity.
Qed.

Lemma rank_all m base k :
  (forall i, (i < k)%nat -> marked m (cell base i)) -> rank m base k = k.
Proof.
  induction k as [|k IH]; intros H; simpl; [reflexivity|].
  rewrite IH by (intros; apply H; lia).
  destruct (decide (marked m (cell base k))) as [|N]; [lia|].
  exfalso. apply N, H. lia.
Qed.

(** Every slot below the final rank is the destination of one marked cell. *)
Lemma rank_surj m base n j :
  (j < rank m base n)%nat ->
  exists i, (i < n)%nat /\ marked m (cell base i) /\ rank m base i = j.
Proof.
  induction n as [|n IH]; simpl; [lia|]. intros Hj.
  destruct (decide (marked m (cell base n))) as [Hm|Hm].
  - destruct (decide (j = rank m base n)) as [->|Hne].
    + exists n. auto.
    + destruct IH as [i [Hi [Hmi Hr]]]; [lia|]. exists i. split; [lia|auto].
  - destruct IH as [i [Hi [Hmi Hr]]]; [lia|]. exists i. split; [lia|auto].
Qed.

(** ** Forwarding addresses *)

Lemma plan_cells base m : 0 < base -> forall n,
  (forall i, (i < n)%nat -> is_Some (m !! cell base i)) ->
  exists m2, foldM plan_step (cells base n) (m, base)
             = Ret (m2, cell base (rank m base n)) /\
    (forall i o, (i < n)%nat -> m !! cell base i = Some o ->
       m2 !! cell base i =
         Some (if decide (moveTo o = NULL) then o
               else set_moveTo (cell base (rank m base i)) o)) /\
    (forall q, ~ is_cell base n q -> m2 !! q = m !! q).
Proof.
  intros Hb. induction n as [|n IH]; intros Hall.
  - exists m. simpl. split.
    + f_equal. f_equal. unfold cell, sizeof_Object. lia.
    + split; [intros; lia|auto].
  - destruct IH as [m2 [H2 [A2 B2]]]; [intros; apply Hall; lia|].
    rewrite cells_S, foldM_snoc, H2. simpl.
    destruct (Hall n ltac:(lia)) as [o Ho].
    assert (Hn : ~ is_cell base n (cell base n)).
    { intros [i [Hi E]]. apply cell_inj in E. lia. }
    assert (Hnz : cell base n <> NULL) by (unfold cell, sizeof_Object, NULL; lia).
    rewrite (load_Some _ _ o Hnz) by (rewrite B2; auto). simpl.
    destruct (decide (moveTo o = NULL)) as [Hz|Hz].
    + exists m2. split.
      { f_equal. f_equal.
        destruct (decide (marked m (cell base n))) as [[o' [Ho' Hm]]|_].
        - congruence.
        - f_equal. lia. }
      split.
      * intros i o' Hi Ho'. destruct (decide (i = n)) as [->|Hne].
        -- rewrite B2 by auto. rewrite Ho in Ho'. inversion Ho'; subst o'.
           rewrite Ho. rewrite decide_True by auto. reflexivity.
        -- apply A2; auto. lia.
      * intros q Hq. apply B2. intros [i [Hi E]]. apply Hq. exists i. split; [lia|auto].
    + eexists. split.
      { f_equal. f_equal.
        destruct (decide (marked m (cell base n))) as [_|Hm].
        - rewrite <- cell_S. f_equal. lia.
        - exfalso. apply Hm. exists o. auto. }
      split.
      * intros i o' Hi Ho'. destruct (decide (i = n)) as [->|Hne].
        -- rewrite lookup_insert_eq. rewrite Ho in Ho'. inversion Ho'; subst o'.
           rewrite decide_False by auto. reflexivity.
        -- rewrite lookup_insert_ne by (intros E; apply cell_inj in E; auto).
           apply A2; auto. lia.
      * intros q Hq. rewrite lookup_insert_ne.
        -- apply B2. intros [i [Hi E]]. apply Hq. exists i. split; [lia|auto].
        -- intros E. apply Hq. exists n. split; [lia|auto].
Qed.

Lemma cell_not_null base i : 0 < base -> cell base i <> NULL.
Proof. unfold cell, sizeof_Object, NULL. lia. Qed.

Lemma fixed_update_roots_spec m roots :
  Forall (valid m) roots -> Fixed.update_roots m roots = Ret (fwd m <$> roots).
Proof.
  induction 1 as [|r roots [Hn [o Ho]] Hr IH]; simpl; [reflexivity|].
  rewrite (load_Some _ _ o Hn Ho). simpl. rewrite IH. simpl.
  unfold fwd at 2. rewrite Ho. reflexivity.
Qed.

Lemma fixed_update_step_spec m0 m from o :
  (forall q o, m0 !! q = Some o -> exists o', m !! q = Some o' /\ moveTo o' = moveTo o) ->
  from <> NULL -> m !! from = Some o ->
  (moveTo o <> NULL -> type o = OBJ_PAIR -> valid m0 (head o) /\ valid m0 (tail o)) ->
  Fixed.update_step m from = Ret (<[from := upd m0 o]> m).
Proof.
  intros Hag Hn Ho Hv. unfold Fixed.update_step, upd.
  rewrite (load_Some _ _ o Hn Ho). simpl.
  destruct (decide (moveTo o <> NULL /\ type o = OBJ_PAIR)) as [[Hl Ht]|Hd].
  - destruct (Hv Hl Ht) as [[Hhn [h Hh]] [Htn [t Htl]]].
    destruct (Hag _ _ Hh) as [h' [Hh' Mh]].
    rewrite (load_Some _ _ h' Hhn Hh'). simpl.
    assert (Hload : exists t', load (<[from := set_head (moveTo h') o]> m) (tail o) = Ret t'
                              /\ moveTo t' = moveTo t).
    { destruct (decide (tail o = from)) as [E|E].
      - exists (set_head (moveTo h') o). split.
        + apply load_Some; auto. rewrite E. apply lookup_insert_eq.
        + simpl. rewrite E in Htl.
          destruct (Hag _ _ Htl) as [o2 [Ho2 Mo2]]. congruence.
      - destruct (Hag _ _ Htl) as [t' [Ht' Mt]]. exists t'. split; auto.
        apply load_Some; auto. rewrite lookup_insert_ne; auto. }
    destruct Hload as [t' [Hlt Mt]]. rewrite Hlt. simpl.
    rewrite insert_insert_eq. unfold fwd. rewrite Hh, Htl, Mh, Mt. reflexivity.
  - rewrite insert_id; auto.
Qed.

Lemma moveTo_upd m o : moveTo (upd m o) = moveTo o.
Proof. unfold upd. destruct (decide _); reflexivity. Qed.

Lemma type_upd m o : type (upd m o) = type o.
Proof. unfold upd. destruct (decide _); reflexivity. Qed.

Lemma value_upd m o : value (upd m o) = value o.
Proof. unfold upd. destruct (decide _); reflexivity. Qed.

Lemma fixed_update_cells base m : 0 < base -> forall n,
  (forall i, (i < n)%nat -> exists o, m !! cell base i = Some o /\
     (moveTo o <> NULL -> type o = OBJ_PAIR -> valid m (head o) /\ valid m (tail o))) ->
  exists m3, foldM Fixed.update_step (cells base n) m = Ret m3 /\
    (forall i o, (i < n)%nat -> m !! cell base i = Some o ->
       m3 !! cell base i = Some (upd m o)) /\
    (forall q, ~ is_cell base n q -> m3 !! q = m !! q) /\
    (forall q o, m !! q = Some o ->
       exists o', m3 !! q = Some o' /\ moveTo o' = moveTo o).
Proof.
  intros Hb. induction n as [|n IH]; intros Hall.
  - exists m. simpl. split; auto. split; [intros; lia|]. split; eauto.
  - destruct IH as [m3 [H3 [A3 [B3 C3]]]]; [intros; apply Hall; lia|].
    rewrite cells_S, foldM_snoc, H3. simpl.
    destruct (Hall n ltac:(lia)) as [o [Ho Hv]].
    assert (Hn : ~ is_cell base n (cell base n)).
    { intros [i [Hi E]]. apply cell_inj in E. lia. }
    rewrite (fixed_update_step_spec m m3 (cell base n) o); auto.
    2:{ apply cell_not_null; auto. }
    2:{ rewrite B3; auto. }
    eexists. split; [reflexivity|]. split; [|split].
    + intros i o' Hi Ho'. destruct (decide (i = n)) as [->|Hne].
      * rewrite lookup_insert_eq. congruence.
      * rewrite lookup_insert_ne by (intros E; apply cell_inj in E; auto).
        apply A3; auto. lia.
    + intros q Hq. rewrite lookup_insert_ne.
      * apply B3. intros [i [Hi E]]. apply Hq. exists i. split; [lia|auto].
      * intros E. apply Hq. exists n. split; [lia|auto].
    + intros q o' Hq. destruct (decide (q = cell base n)) as [->|Hne].
      * rewrite lookup_insert_eq. eexists. split; [reflexivity|].
        rewrite moveTo_upd. congruence.
      * rewrite lookup_insert_ne by auto. apply C3; auto.
Qed.

(** ** Sliding *)

Lemma fixed_compact_step_spec base m from o :
  from <> NULL -> m !! from = Some o ->
  (moveTo o <> NULL -> in_block base (base + Fixed.HEAP_SIZE) (moveTo o)) ->
  Fixed.compact_step base m from
  = Ret (if decide (moveTo o = NULL) then m
         else <[moveTo o := set_moveTo NULL o]> m).
Proof.
  intros Hn Ho Hb. unfold Fixed.compact_step.
  rewrite (load_Some _ _ o Hn Ho). simpl.
  destruct (decide (moveTo o = NULL)); auto.
  rewrite decide_True by auto. rewrite insert_insert_eq. reflexivity.
Qed.

Lemma in_block_cell base limit i :
  cell base (S i) <= limit -> in_block base limit (cell base i).
Proof.
  unfold in_block, cell, sizeof_Object. intros H. split; [lia|]. split; [lia|].
  replace (base + 32 * Z.of_nat i - base) with (Z.of_nat i * 32) by lia.
  apply Z_mod_mult.
Qed.

Lemma fixed_compact_cells base m n :
  0 < base -> cell base n <= base + Fixed.HEAP_SIZE -> planned base n m ->
  forall k, (k <= n)%nat ->
  exists m4, foldM (Fixed.compact_step base) (cells base k) m = Ret m4 /\
    (forall i o, (i < k)%nat -> m !! cell base i = Some o -> moveTo o <> NULL ->
       m4 !! cell base (rank m base i) = Some (set_moveTo NULL o)) /\
    (forall q, (forall j, (j < k)%nat -> q <> cell base j) -> m4 !! q = m !! q).
Proof.
  intros Hb Hsz Hpl. induction k as [|k IH]; intros Hk.
  - exists m. simpl. split; auto. split; [intros; lia|auto].
  - destruct IH as [m4 [H4 [A4 B4]]]; [lia|].
    rewrite cells_S, foldM_snoc, H4. simpl.
    destruct (Hpl k ltac:(lia)) as [o [Ho Hm]].
    assert (Ho4 : m4 !! cell base k = Some o).
    { rewrite B4; auto. intros j Hj E. apply cell_inj in E. lia. }
    pose proof (rank_le m base k) as Hrk.
    rewrite (fixed_compact_step_spec base m4 (cell base k) o); auto.
    2:{ apply cell_not_null; auto. }
    2:{ intros Hl. rewrite (Hm Hl). apply in_block_cell.
        unfold cell, sizeof_Object in *. lia. }
    destruct (decide (moveTo o = NULL)) as [Hz|Hz].
    + exists m4. split; auto. split.
      * intros i o' Hi Ho' Hl. destruct (decide (i = k)) as [->|Hne].
        -- congruence.
        -- apply A4; auto. lia.
      * intros q Hq. apply B4. intros j Hj. apply Hq. lia.
    + rewrite (Hm Hz). eexists. split; [reflexivity|]. split.
      * intros i o' Hi Ho' Hl. destruct (decide (i = k)) as [->|Hne].
        -- rewrite lookup_insert_eq. congruence.
        -- rewrite lookup_insert_ne.
           ++ apply A4; auto. lia.
           ++ intros E. apply cell_inj in E.
              assert (rank m base i < rank m base k)%nat; [|lia].
              apply rank_lt; [lia|]. exists o'. auto.
      * intros q Hq. rewrite lookup_insert_ne.
        -- apply B4. intros j Hj. apply Hq. lia.
        -- intros E. apply (Hq (rank m base k)); [lia|auto].
Qed.

Lemma in_block_is_cell base n p : in_block base (cell base n) p <-> is_cell base n p.
Proof.
  unfold in_block, is_cell, cell, sizeof_Object. split.
  - intros [H1 [H2 H3]].
    apply Z.mod_divide in H3; [|lia]. destruct H3 as [k Hk].
    exists (Z.to_nat k). split; lia.
  - intros [i [Hi ->]]. split; [lia|]. split; [lia|].
    replace (base + 32 * Z.of_nat i - base) with (Z.of_nat i * 32) by lia.
    apply Z_mod_mult.
Qed.

Lemma reachable_root (m : memory) roots r : r ∈ roots -> reachable m roots r.
Proof. intros H. exists r. split; [auto|constructor]. Qed.

Lemma reachable_head (m : memory) roots q o :
  reachable m roots q -> m !! q = Some o -> type o = OBJ_PAIR ->
  reachable m roots (head o).
Proof. intros [r [Hr R]] Hq Ht. exists r. split; auto. eapply reach_head; eauto. Qed.

Lemma reachable_tail (m : memory) roots q o :
  reachable m roots q -> m !! q = Some o -> type o = OBJ_PAIR ->
  reachable m roots (tail o).
Proof. intros [r [Hr R]] Hq Ht. exists r. split; auto. eapply reach_tail; eauto. Qed.

Lemma reachable_closed D (m : memory) roots q :
  closed_on D m -> Forall D roots -> reachable m roots q -> D q.
Proof.
  intros Hc Hr [r [Hr' R]]. eapply reach_closed; eauto.
  rewrite Forall_forall in Hr. auto.
Qed.

Lemma NoDup_cells base n : NoDup (cells base n).
Proof.
  unfold cells. apply (NoDup_fmap_2 (cell base) (Inj0 := cell_inj base)).
  apply NoDup_seq.
Qed.

Lemma length_filter_marked (m : memory) base n :
  length (filter (marked m) (cells base n)) = rank m base n.
Proof.
  induction n as [|n IH]; [reflexivity|].
  rewrite cells_S, filter_app, length_app, IH. simpl.
  rewrite filter_cons, filter_nil. destruct (decide (marked m (cell base n))); reflexivity.
Qed.

Lemma type_relocate f o : type (relocate f o) = type o.
Proof. unfold relocate. destruct (type o) eqn:E; simpl; auto. Qed.

Lemma moveTo_relocate f o : moveTo (relocate f o) = NULL.
Proof. unfold relocate. destruct (type o); reflexivity. Qed.

Lemma value_relocate f o : value (relocate f o) = value o.
Proof. unfold relocate. destruct (type o); reflexivity. Qed.

Lemma head_relocate f o : type o = OBJ_PAIR -> head (relocate f o) = f (head o).
Proof. unfold relocate. intros ->. reflexivity. Qed.

Lemma tail_relocate f o : type o = OBJ_PAIR -> tail (relocate f o) = f (tail o).
Proof. unfold relocate. intros ->. reflexivity. Qed.

Lemma is_cell_S base n p : is_cell base (S n) p <-> is_cell base n p \/ p = cell base n.
Proof.
  split.
  - intros [i [Hi ->]]. destruct (decide (i = n)) as [->|]; [auto|].
    left. exists i. split; [lia|auto].
  - intros [[i [Hi ->]]| ->]; [exists i|exists n]; split; auto; lia.
Qed.

Lemma is_cell_fresh base n : ~ is_cell base n (cell base n).
Proof. intros [i [Hi E]]. apply cell_inj in E. lia. Qed.

Lemma graph_ok_closed cells (m : memory) :
  graph_ok cells m -> closed_on (fun p => p ∈ cells) m /\
                      forall q, q ∈ cells -> ~ marked m q.
Proof.
  unfold graph_ok. rewrite Forall_forall. intros H. split.
  - intros p Hp. destruct (H p Hp) as [Hn Hm]. split; auto.
    destruct (m !! p) as [o|]; [|contradiction]. exists o. split; auto. tauto.
  - intros q Hq [o [Ho Hm]]. destruct (H q Hq) as [_ H']. rewrite Ho in H'. tauto.
Qed.

(** The log is only an observer: erasing it gives [mark]. *)
Lemma mark_log_erase fuel : forall p m l,
  outcome_map fst (mark_log fuel p (m, l)) = mark fuel p m.
Proof.
  induction fuel as [|fuel IH]; intros p m l; simpl; [reflexivity|].
  destruct (load m p) as [o| | |]; simpl; try reflexivity.
  destruct (decide (moveTo o = NULL)); [|reflexivity].
  destruct (type o); [reflexivity|].
  rewrite <- (IH (head o) _ (l ++ [p])).
  destruct (mark_log fuel (head o) _) as [[m2 l2]| | |]; simpl; try reflexivity.
  apply IH.
Qed.

Lemma marked_insert_ne (m : memory) p q o :
  q <> p -> (marked (<[p := o]> m) q <-> marked m q).
Proof. intros Hne. unfold marked. rewrite lookup_insert_ne; auto. Qed.

(** The log grows by the objects that were unmarked before the call and are
    marked after it, each listed once. *)
Lemma mark_log_spec fuel : forall p m l m' l',
  mark_log fuel p (m, l) = Ret (m', l') ->
  mark fuel p m = Ret m' /\
  exists new, l' = l ++ new /\ NoDup new /\
    forall q, q ∈ new <-> (marked m' q /\ ~ marked m q).
Proof.
  induction fuel as [|fuel IH]; intros p m l m' l' H; [discriminate|].
  assert (Hm : mark (S fuel) p m = Ret m').
  { rewrite <- (mark_log_erase (S fuel) p m l), H. reflexivity. }
  split; auto.
  pose proof (mark_ext_of_mark _ _ _ _ Hm) as Hext.
  simpl in H. apply bind_Ret in H. destruct H as [o [Hl H]].
  apply load_Ret in Hl. destruct Hl as [Hn Hp].
  destruct (decide (moveTo o = NULL)) as [Ho|Ho].
  2:{ inversion H; subst. exists []. rewrite app_nil_r. split; auto.
      split; [constructor|]. intros q. split; [intros Hq; inversion Hq|tauto]. }
  pose proof (mark_ext_step _ _ _ Hp Ho Hn) as H1.
  set (m1 := <[p := set_moveTo p o]> m) in *.
  assert (Hp1 : marked m1 p).
  { exists (set_moveTo p o). unfold m1. rewrite lookup_insert_eq. auto. }
  assert (Hnp : ~ marked m p) by (intros [o' [Ho' Hm']]; congruence).
  destruct (type o) eqn:Ht.
  - inversion H; subst. exists [p]. split; auto. split; [apply NoDup_singleton|].
    intros q. rewrite list_elem_of_singleton. split.
    + intros ->. auto.
    + intros [Hq Hnq]. destruct (decide (q = p)); auto.
      exfalso. apply Hnq. apply (marked_insert_ne m p q (set_moveTo p o)); auto.
  - apply bind_Ret in H. destruct H as [[m2 l2] [H2 H3]].
    destruct (IH _ _ _ _ _ H2) as [M2 [n2 [E2 [D2 I2]]]].
    destruct (IH _ _ _ _ _ H3) as [M3 [n3 [E3 [D3 I3]]]].
    pose proof (mark_ext_of_mark _ _ _ _ M2) as X2.
    pose proof (mark_ext_of_mark _ _ _ _ M3) as X3.
    exists ([p] ++ n2 ++ n3). split; [|split].
    + rewrite E3, E2. rewrite <- !app_assoc. reflexivity.
    + apply NoDup_app. split; [apply NoDup_singleton|]. split.
      * intros q Hq Hq'. apply list_elem_of_singleton in Hq. subst q.
        apply elem_of_app in Hq'. destruct Hq' as [Hq'|Hq'].
        -- apply I2 in Hq'. tauto.
        -- apply I3 in Hq'. destruct Hq' as [_ Hq']. apply Hq'.
           eapply mark_ext_marked; [exact X2|exact Hp1].
      * apply NoDup_app. split; auto. split; auto.
        intros q Hq Hq'. apply I2 in Hq. apply I3 in Hq'. tauto.
    + intros q. rewrite !elem_of_app, list_elem_of_singleton, I2, I3. split.
      * intros [->|[[Hq Hnq]|[Hq Hnq]]].
        -- split; auto. eapply mark_ext_marked; [exact X3|].
           eapply mark_ext_marked; [exact X2|]. exact Hp1.
        -- split; [eapply mark_ext_marked; [exact X3|exact Hq]|].
           intros Hq'. apply Hnq. eapply mark_ext_marked; [exact H1|exact Hq'].
        -- split; auto. intros Hq'. apply Hnq.
           eapply mark_ext_marked; [exact X2|].
           eapply mark_ext_marked; [exact H1|exact Hq'].
      * intros [Hq Hnq]. destruct (decide (q = p)) as [|Hne]; auto. right.
        assert (~ marked m1 q).
        { intros Hq1. apply Hnq. apply (marked_insert_ne m p q (set_moveTo p o)); auto. }
        destruct (decide (marked m2 q)); auto.
Qed.

Lemma mark_list_log_spec fuel : forall roots m l m' l',
  foldM (fun s root => mark_log fuel root s) roots (m, l) = Ret (m', l') ->
  foldM (fun m0 root => mark fuel root m0) roots m = Ret m' /\
  exists new, l' = l ++ new /\ NoDup new /\
    forall q, q ∈ new <-> (marked m' q /\ ~ marked m q).
Proof.
  induction roots as [|r roots IH]; intros m l m' l' H; simpl in H.
  - inversion H; subst. split; auto. exists []. rewrite app_nil_r. split; auto.
    split; [constructor|]. intros q. split; [intros Hq; inversion Hq|tauto].
  - apply bind_Ret in H. destruct H as [[m1 l1] [H1 H2]].
    destruct (mark_log_spec _ _ _ _ _ _ H1) as [M1 [n1 [E1 [D1 I1]]]].
    destruct (IH _ _ _ _ H2) as [M2 [n2 [E2 [D2 I2]]]].
    pose proof (mark_ext_of_mark _ _ _ _ M1) as X1.
    simpl. rewrite M1. simpl. split; auto.
    assert (X2 : forall q, marked m1 q -> marked m' q).
    { clear -M2. revert m1 M2. induction roots as [|r' roots IH']; intros m1 M2 q Hq.
      - simpl in M2. inversion M2; subst. auto.
      - simpl in M2. apply bind_Ret in M2. destruct M2 as [mx [Ha Hb]].
        eapply IH'; [exact Hb|]. eapply mark_ext_marked; [|exact Hq].
        eapply mark_ext_of_mark; eauto. }
    exists (n1 ++ n2). split; [|split].
    + rewrite E2, E1, app_assoc. reflexivity.
    + apply NoDup_app. split; auto. split; auto.
      intros q Hq Hq'. apply I1 in Hq. apply I2 in Hq'. tauto.
    + intros q. rewrite elem_of_app, I1, I2. split.
      * intros [[Hq Hnq]|[Hq Hnq]]; split; auto.
        intros Hq'. apply Hnq. eapply mark_ext_marked; eauto.
      * intros [Hq Hnq]. destruct (decide (marked m1 q)); auto.
Qed.

Lemma mark_list_log_returns fuel : forall roots m l m',
  foldM (fun m0 root => mark fuel root m0) roots m = Ret m' ->
  exists l', foldM (fun s root => mark_log fuel root s) roots (m, l) = Ret (m', l').
Proof.
  induction roots as [|r roots IH]; intros m l m' H; simpl in *.
  - inversion H; subst. eauto.
  - apply bind_Ret in H. destruct H as [m1 [H1 H2]].
    pose proof (mark_log_erase fuel r m l) as E. rewrite H1 in E.
    destruct (mark_log fuel r (m, l)) as [[m1' l1]| | |]; simpl in E; try discriminate.
    inversion E; subst m1'. simpl. apply IH. auto.
Qed.

(** ** Exits *)

Lemma bind_Exit {A B} (x : outcome A) (k : A -> outcome B) f :
  bind x k = Exit f <-> x = Exit f \/ exists a, x = Ret a /\ k a = Exit f.
Proof.
  destruct x as [a|g| |]; simpl; split.
  - intros H. right. exists a. auto.
  - intros [H|[a' [Ha H]]]; [discriminate|]. inversion Ha; subst. auto.
  - intros H. left. inversion H; reflexivity.
  - intros [H|[a' [Ha H]]]; [inversion H; reflexivity|discriminate].
  - discriminate.
  - intros [H|[a' [Ha H]]]; discriminate.
  - discriminate.
  - intros [H|[a' [Ha H]]]; discriminate.
Qed.

Lemma foldM_no_exit {A S} (step : S -> A -> outcome S) g :
  (forall s a, step s a <> Exit g) -> forall l s, foldM step l s <> Exit g.
Proof.
  intros Hstep. induction l as [|a l IH]; intros s; simpl; [discriminate|].
  intros H. apply bind_Exit in H. destruct H as [H|[s' [_ H]]].
  - exact (Hstep _ _ H).
  - exact (IH _ H).
Qed.

Lemma mark_roots_no_exit roots m g : mark_roots roots m <> Exit g.
Proof. apply foldM_no_exit. intros s a. apply mark_not_exit. Qed.

Lemma plan_step_no_exit s a g : plan_step s a <> Exit g.
Proof.
  destruct s as [m to]. unfold plan_step. intros H. apply bind_Exit in H.
  destruct H as [H|[o [_ H]]].
  - exact (load_not_exit _ _ _ H).
  - destruct (decide _); discriminate.
Qed.

Lemma plan_no_exit base nxt m g : plan base nxt m <> Exit g.
Proof. apply foldM_no_exit. intros s a. apply plan_step_no_exit. Qed.

(** ** The live-bytes count *)

Lemma plan_steps_to : forall l m to m' to',
  foldM plan_step l (m, to) = Ret (m', to') ->
  exists k : nat, to' = to + sizeof_Object * Z.of_nat k /\ (k <= length l)%nat.
Proof.
  induction l as [|a l IH]; intros m to m' to' H; simpl in H.
  - inversion H; subst. exists O. split; [lia|auto].
  - apply bind_Ret in H. destruct H as [[m1 to1] [H1 H2]].
    unfold plan_step in H1. apply bind_Ret in H1. destruct H1 as [o [_ H1]].
    destruct (IH _ _ _ _ H2) as [k [Hk Hle]].
    destruct (decide (moveTo o = NULL)); inversion H1; subst.
    + exists k. split; [auto|simpl; lia].
    + exists (S k). split; [lia|simpl; lia].
Qed.

Lemma cell_addrs_bounds lo hi p : p ∈ cell_addrs lo hi -> lo <= p < hi.
Proof.
  unfold cell_addrs. rewrite list_elem_of_fmap. intros [i [-> Hi]].
  apply elem_of_seq in Hi. unfold sizeof_Object in *.
  destruct (Z_lt_le_dec (hi - lo + 32 - 1) 0) as [Hneg|Hpos].
  - assert ((hi - lo + 32 - 1) `div` 32 < 0) by (apply Z.div_lt_upper_bound; lia).
    lia.
  - assert (Z.of_nat i < (hi - lo + 32 - 1) `div` 32) by lia.
    assert (32 * ((hi - lo + 32 - 1) `div` 32) <= hi - lo + 32 - 1)
      by (apply Z.mul_div_le; lia).
    lia.
Qed.

Lemma reach_int (m : memory) r q o :
  m !! r = Some o -> type o = OBJ_INT -> reach m r q -> q = r.
Proof.
  intros Hr Ht H. induction H as [|q o' H IH Hq Ht'|q o' H IH Hq Ht'];
    [reflexivity| |]; subst q; congruence.
Qed.

Lemma reachable_ints (m : memory) roots p :
  all_ints m roots -> (reachable m roots p <-> p ∈ roots).
Proof.
  unfold all_ints. rewrite Forall_forall. intros H. split.
  - intros [r [Hr R]]. specialize (H r Hr).
    destruct (m !! r) as [o|] eqn:E; [|contradiction].
    rewrite (reach_int m r p o E H R). exact Hr.
  - apply reachable_root.
Qed.

(** ** The fixed-heap collector *)

Module FixedProofs.
Import Fixed FixedSpec.

Lemma wf_wf_n vm : wf vm <-> exists n, wf_n n vm.
Proof.
  unfold wf, wf_n, in_heap. split.
  - intros [Hb [[Hn1 Hn2] [Hm [Hc [Hu Hs]]]]].
    apply Z.mod_divide in Hm; [|unfold sizeof_Object; lia]. destruct Hm as [k Hk].
    assert (Hnext : next vm = cell (heap vm) (Z.to_nat k)).
    { unfold cell, sizeof_Object in *. lia. }
    exists (Z.to_nat k). rewrite Hnext in *.
    split; auto. split; auto. split; [lia|]. split; [|split].
    + intros p Hp. apply in_block_is_cell in Hp.
      destruct (Hc p Hp) as [Hnz [o [Ho Hch]]]. split; auto.
      exists o. split; auto. intros Ht. destruct (Hch Ht) as [A B].
      split; apply in_block_is_cell; auto.
    + intros q Hq. apply Hu. apply in_block_is_cell. auto.
    + eapply Forall_impl; [exact Hs|].
      intros p Hp. apply in_block_is_cell. auto.
  - intros [n [Hb [Hnext [Hsz [Hc [Hu Hs]]]]]]. rewrite Hnext.
    split; auto. split; [unfold cell, sizeof_Object in *; lia|]. split.
    { unfold cell, sizeof_Object.
      replace (heap vm + 32 * Z.of_nat n - heap vm) with (Z.of_nat n * 32) by lia.
      apply Z_mod_mult. }
    split; [|split].
    + intros p Hp. apply in_block_is_cell in Hp.
      destruct (Hc p Hp) as [Hnz [o [Ho Hch]]]. split; auto.
      exists o. split; auto. intros Ht. destruct (Hch Ht) as [A B].
      split; apply in_block_is_cell; auto.
    + intros q Hq. apply Hu. apply in_block_is_cell. auto.
    + eapply Forall_impl; [exact Hs|]. intros p Hp. apply in_block_is_cell. auto.
Qed.

(** The memory after the mark phase and after the planning phase, cell by
    cell. *)
Lemma marked_planned n vm (m1 m2 : memory) :
  wf_n n vm ->
  mark_ext (mem vm) m1 ->
  (forall i o, (i < n)%nat -> m1 !! cell (heap vm) i = Some o ->
     m2 !! cell (heap vm) i =
       Some (if decide (moveTo o = NULL) then o
             else set_moveTo (cell (heap vm) (rank m1 (heap vm) i)) o)) ->
  forall i, (i < n)%nat ->
  exists o0, mem vm !! cell (heap vm) i = Some o0 /\ moveTo o0 = NULL /\
    (type o0 = OBJ_PAIR ->
       is_cell (heap vm) n (head o0) /\ is_cell (heap vm) n (tail o0)) /\
    m2 !! cell (heap vm) i =
      Some (if decide (marked m1 (cell (heap vm) i))
            then set_moveTo (cell (heap vm) (rank m1 (heap vm) i)) o0 else o0).
Proof.
  intros [Hb [Hnext [Hsz [Hc [Hu Hs]]]]] E1 A2 i Hi.
  assert (Hcell : is_cell (heap vm) n (cell (heap vm) i)) by (exists i; auto).
  destruct (Hc _ Hcell) as [Hnz [o0 [Ho0 Hch]]].
  assert (Hz : moveTo o0 = NULL).
  { destruct (decide (moveTo o0 = NULL)) as [|Hz]; auto.
    exfalso. apply (Hu _ Hcell). exists o0. auto. }
  exists o0. split; auto. split; auto. split; auto.
  destruct (E1 (cell (heap vm) i)) as [E|[o [Ho [_ [_ E]]]]].
  - rewrite Ho0 in E. rewrite (A2 i o0 Hi E). rewrite decide_True by auto.
    rewrite decide_False; auto. intros [o [Ho Hm]]. congruence.
  - rewrite Ho0 in Ho. inversion Ho; subst o.
    rewrite (A2 i _ Hi E). simpl. rewrite decide_False by auto.
    rewrite decide_True; [reflexivity|]. eexists. split; [exact E|]. simpl. auto.
Qed.

Lemma gc_run n vm : wf_n n vm ->
  exists m1 m2 m4,
    mark_roots (stack vm) (mem vm) = Ret m1 /\
    (forall q, is_cell (heap vm) n q ->
       (marked m1 q <-> reachable (mem vm) (stack vm) q)) /\
    (forall i, (i < n)%nat ->
       fwd m2 (cell (heap vm) i) =
         if decide (marked m1 (cell (heap vm) i))
         then cell (heap vm) (rank m1 (heap vm) i) else NULL) /\
    gc vm = Ret (mkVM (fwd m2 <$> stack vm) (heap vm)
                      (cell (heap vm) (rank m1 (heap vm) n)) m4
                      (out vm ++ [cell (heap vm) (rank m1 (heap vm) n) - heap vm])) /\
    (forall i o, (i < n)%nat -> mem vm !! cell (heap vm) i = Some o ->
       marked m1 (cell (heap vm) i) ->
       m4 !! cell (heap vm) (rank m1 (heap vm) i) = Some (relocate (fwd m2) o)) /\
    (forall q, ~ is_cell (heap vm) n q -> m4 !! q = mem vm !! q).
Proof.
  intros Hwf. pose proof Hwf as [Hb [Hnext [Hsz [Hc [Hu Hs]]]]].
  set (base := heap vm) in *.
  destruct (mark_roots_spec (is_cell base n) (stack vm) (mem vm) Hc Hs Hu)
    as [m1 [H1 [E1 [F1 R1]]]].
  (* planning *)
  destruct (plan_cells base m1 Hb n) as [m2 [H2 [A2 B2]]].
  { intros i Hi. destruct (Hc (cell base i)) as [_ [o [Ho _]]]; [exists i; auto|].
    destruct (mark_ext_lookup _ _ _ _ E1 Ho) as [o' [Ho' _]]. eauto. }
  pose proof (marked_planned n vm m1 m2 Hwf E1 A2) as C2. fold base in C2.
  assert (V2 : forall q, is_cell base n q -> valid m2 q).
  { intros q [i [Hi ->]]. split; [apply cell_not_null; auto|].
    destruct (C2 i Hi) as [o0 [_ [_ [_ Hm2]]]]. eauto. }
  (* pointer update *)
  assert (Hroots : update_roots m2 (stack vm) = Ret (fwd m2 <$> stack vm)).
  { apply fixed_update_roots_spec. eapply Forall_impl; [exact Hs|]. auto. }
  destruct (fixed_update_cells base m2 Hb n) as [m3 [H3 [A3 [B3 C3]]]].
  { intros i Hi. destruct (C2 i Hi) as [o0 [Ho0 [Hz [Hch Hm2]]]].
    eexists. split; [exact Hm2|]. intros _ Ht.
    assert (Ht0 : type o0 = OBJ_PAIR) by (destruct (decide _); simpl in Ht; auto).
    destruct (Hch Ht0) as [Dh Dt].
    destruct (decide _); simpl; split; apply V2; auto. }
  (* sliding *)
  assert (M3 : forall i, (i < n)%nat ->
             (marked m3 (cell base i) <-> marked m1 (cell base i))).
  { intros i Hi. destruct (C2 i Hi) as [o0 [Ho0 [Hz [Hch Hm2]]]].
    pose proof (A3 i _ Hi Hm2) as Hm3. split.
    - intros [o [Ho Hm]]. rewrite Hm3 in Ho. inversion Ho; subst o.
      rewrite moveTo_upd in Hm. destruct (decide (marked m1 (cell base i))); auto.
      contradiction.
    - intros Hm. eexists. split; [exact Hm3|]. rewrite moveTo_upd.
      rewrite decide_True by auto. simpl. apply cell_not_null; auto. }
  assert (R3 : forall k, (k <= n)%nat -> rank m3 base k = rank m1 base k).
  { intros k Hk. apply rank_ext. intros i Hi. apply M3. lia. }
  assert (P3 : planned base n m3).
  { intros i Hi. destruct (C2 i Hi) as [o0 [Ho0 [Hz [Hch Hm2]]]].
    eexists. split; [exact (A3 i _ Hi Hm2)|]. rewrite moveTo_upd.
    rewrite R3 by lia. destruct (decide _); simpl; [auto|]. intros; contradiction. }
  destruct (fixed_compact_cells base m3 n Hb Hsz P3 n (le_n n)) as [m4 [H4 [A4 B4]]].
  exists m1, m2, m4. split; auto. split; auto. split.
  { intros i Hi. destruct (C2 i Hi) as [o0 [Ho0 [Hz [Hch Hm2]]]].
    unfold fwd. rewrite Hm2. destruct (decide _); simpl; auto. }
  split.
  { unfold gc, markAll. rewrite H1. simpl.
    unfold calculateNewLocations, plan. simpl. fold base.
    rewrite Hnext, cell_addrs_cells, H2. simpl.
    unfold updateAllObjectPointers. simpl. rewrite Hroots. simpl. fold base.
    rewrite cell_addrs_cells, H3. simpl.
    unfold compact. simpl. rewrite cell_addrs_cells, H4. simpl.
    reflexivity. }
  split.
  - intros i o Hi Ho Hm. destruct (C2 i Hi) as [o0 [Ho0 [Hz [Hch Hm2]]]].
    fold base in Ho. rewrite Ho0 in Ho. inversion Ho; subst o0.
    rewrite decide_True in Hm2 by auto.
    pose proof (A3 i _ Hi Hm2) as Hm3.
    rewrite <- (R3 i) by lia.
    rewrite (A4 i _ Hi Hm3).
    2:{ rewrite moveTo_upd. simpl. apply cell_not_null; auto. }
    f_equal. unfold upd, relocate. simpl.
    destruct (type o) eqn:Ht.
    + rewrite decide_False by (intros [_ ?]; discriminate). reflexivity.
    + rewrite decide_True.
      * unfold set_tail, set_head, set_moveTo. simpl. rewrite Ht. reflexivity.
      * split; auto. apply cell_not_null; auto.
  - intros q Hq. rewrite B4.
    + rewrite B3 by auto. rewrite B2 by auto. apply F1. auto.
    + intros j Hj E. apply Hq. exists j. auto.
Qed.

(** What a collection does to a well-formed machine: [f] sends the old address
    of every reachable object to its new address, [k] objects survive. *)
Lemma gc_spec n vm : wf_n n vm ->
  exists vm' (f : Z -> Z) (k : nat),
    gc vm = Ret vm' /\
    heap vm' = heap vm /\ next vm' = cell (heap vm) k /\
    stack vm' = f <$> stack vm /\
    out vm' = out vm ++ [next vm' - heap vm] /\
    (forall p, reachable (mem vm) (stack vm) p ->
       is_cell (heap vm) n p /\ is_cell (heap vm) k (f p) /\ f p <= p /\
       exists o, mem vm !! p = Some o /\ mem vm' !! f p = Some (relocate f o)) /\
    (forall q, is_cell (heap vm) k q ->
       exists p, reachable (mem vm) (stack vm) p /\ f p = q) /\
    (forall p p', reachable (mem vm) (stack vm) p ->
       reachable (mem vm) (stack vm) p' -> p < p' -> f p < f p') /\
    (exists l, NoDup l /\ (forall p, p ∈ l <-> reachable (mem vm) (stack vm) p) /\
               length l = k) /\
    ((forall i, (i < n)%nat -> reachable (mem vm) (stack vm) (cell (heap vm) i)) ->
       k = n /\ (forall i, (i < n)%nat -> f (cell (heap vm) i) = cell (heap vm) i)) /\
    (forall q, ~ is_cell (heap vm) n q -> mem vm' !! q = mem vm !! q) /\
    wf_n k vm'.
Proof.
  intros Hwf. pose proof Hwf as [Hb [Hnext [Hsz [Hc [Hu Hs]]]]].
  destruct (gc_run n vm Hwf) as [m1 [m2 [m4 [H1 [R1 [F2 [Hgc [A4 B4]]]]]]]].
  set (base := heap vm) in *. set (k := rank m1 base n).
  assert (Hreach : forall p, reachable (mem vm) (stack vm) p ->
            exists i o, (i < n)%nat /\ p = cell base i /\ marked m1 p /\
              mem vm !! p = Some o /\ fwd m2 p = cell base (rank m1 base i) /\
              (rank m1 base i < k)%nat /\
              m4 !! cell base (rank m1 base i) = Some (relocate (fwd m2) o)).
  { intros p Hp. pose proof (reachable_closed _ _ _ _ Hc Hs Hp) as Dp.
    pose proof Dp as [i [Hi ->]]. apply R1 in Hp; auto.
    destruct (Hc _ Dp) as [_ [o [Ho _]]].
    exists i, o. split; auto. split; auto. split; auto. split; auto.
    split; [rewrite F2 by auto; rewrite decide_True; auto|].
    split; [apply rank_lt; auto|]. apply A4; auto. }
  eexists _, (fwd m2), k. split; [exact Hgc|]. simpl.
  split; auto. split; auto. split; auto. split; auto. split; [|split; [|split; [|split; [|split; [|split]]]]].
  - intros p Hp. destruct (Hreach p Hp) as [i [o [Hi [-> [Hm [Ho [Hf [Hk H4]]]]]]]].
    split; [exists i; auto|]. rewrite Hf.
    split; [exists (rank m1 base i); auto|].
    split; [pose proof (rank_le m1 base i); unfold cell, sizeof_Object; lia|].
    exists o. auto.
  - intros q [j [Hj ->]]. destruct (rank_surj m1 base n j Hj) as [i [Hi [Hm Hr]]].
    exists (cell base i). split; [apply R1; auto; exists i; auto|].
    rewrite F2 by auto. rewrite decide_True by auto. congruence.
  - intros p p' Hp Hp' Hlt.
    destruct (Hreach p Hp) as [i [o [Hi [-> [Hm [Ho [Hf _]]]]]]].
    destruct (Hreach p' Hp') as [i' [o' [Hi' [-> [Hm' [Ho' [Hf' _]]]]]]].
    rewrite Hf, Hf'.
    assert (rank m1 base i < rank m1 base i')%nat.
    { apply rank_lt; auto. unfold cell, sizeof_Object in Hlt. lia. }
    unfold cell, sizeof_Object. lia.
  - exists (filter (marked m1) (cells base n)). split; [|split].
    + apply NoDup_filter, NoDup_cells.
    + intros p. rewrite list_elem_of_filter, elem_of_cells. split.
      * intros [Hm Dp]. apply R1; auto.
      * intros Hp. pose proof (reachable_closed _ _ _ _ Hc Hs Hp) as Dp.
        split; auto. apply R1; auto.
    + apply length_filter_marked.
  - intros Hall.
    assert (Hm : forall i, (i < n)%nat -> marked m1 (cell base i)).
    { intros i Hi. apply R1; [exists i; auto|auto]. }
    split.
    + unfold k. apply rank_all. auto.
    + intros i Hi. rewrite F2 by auto. rewrite decide_True by auto.
      f_equal. apply rank_all. intros j Hj. apply Hm. lia.
  - exact B4.
  - unfold wf_n. simpl. fold base. split; auto. split; auto. split.
    { pose proof (rank_le m1 base n). unfold k, cell, sizeof_Object in *. lia. }
    assert (Hslot : forall j, (j < k)%nat -> exists p o,
              reachable (mem vm) (stack vm) p /\ mem vm !! p = Some o /\
              m4 !! cell base j = Some (relocate (fwd m2) o)).
    { intros j Hj. destruct (rank_surj m1 base n j Hj) as [i [Hi [Hm Hr]]].
      assert (Hp : reachable (mem vm) (stack vm) (cell base i)).
      { apply R1; auto. exists i; auto. }
      destruct (Hreach _ Hp) as [i' [o [Hi' [E [_ [Ho [_ [_ H4]]]]]]]].
      apply cell_inj in E. subst i'. rewrite Hr in H4. eauto. }
    split; [|split].
    + intros q [j [Hj ->]]. split; [apply cell_not_null; auto|].
      destruct (Hslot j Hj) as [p [o [Hp [Ho H4]]]].
      eexists. split; [exact H4|]. rewrite type_relocate. intros Ht.
      rewrite head_relocate, tail_relocate by auto. split.
      * destruct (Hreach _ (reachable_head _ _ _ _ Hp Ho Ht))
          as [i [o' [Hi [_ [_ [_ [Hf [Hk _]]]]]]]].
        rewrite Hf. exists (rank m1 base i). auto.
      * destruct (Hreach _ (reachable_tail _ _ _ _ Hp Ho Ht))
          as [i [o' [Hi [_ [_ [_ [Hf [Hk _]]]]]]]].
        rewrite Hf. exists (rank m1 base i). auto.
    + intros q [j [Hj ->]] [o' [Ho' Hm]].
      destruct (Hslot j Hj) as [p [o [Hp [Ho H4]]]].
      rewrite H4 in Ho'. inversion Ho'; subst o'. rewrite moveTo_relocate in Hm. auto.
    + apply Forall_fmap. rewrite Forall_forall. intros r Hr. simpl.
      destruct (Hreach r (reachable_root _ _ _ Hr)) as [i [o [Hi [_ [_ [_ [Hf [Hk _]]]]]]]].
      rewrite Hf. exists (rank m1 base i). auto.
Qed.

Lemma wf_newVM base : 0 < base -> wf (newVM base).
Proof.
  intros Hb. apply wf_wf_n. exists O. unfold wf_n, newVM. simpl.
  split; auto. split; [unfold cell, sizeof_Object; lia|].
  split; [unfold cell, sizeof_Object, HEAP_SIZE; lia|].
  split; [|split].
  - intros p [i [Hi _]]. lia.
  - intros p [i [Hi _]]. lia.
  - constructor.
Qed.

Lemma wf_n_alloc n vm o stk :
  wf_n n vm -> cell (heap vm) (S n) <= heap vm + HEAP_SIZE ->
  moveTo o = NULL ->
  (type o = OBJ_PAIR ->
     is_cell (heap vm) n (head o) /\ is_cell (heap vm) n (tail o)) ->
  Forall (is_cell (heap vm) (S n)) stk ->
  wf_n (S n) (mkVM stk (heap vm) (cell (heap vm) (S n))
                   (<[cell (heap vm) n := o]> (mem vm)) (out vm)).
Proof.
  intros [Hb [Hnext [Hsz [Hc [Hu Hs]]]]] Hroom Hz Hch Hstk.
  unfold wf_n. simpl. split; auto. split; auto. split; auto. split; [|split; auto].
  - intros p Hp. apply is_cell_S in Hp. destruct Hp as [Hp| ->].
    + destruct (Hc p Hp) as [Hnz [o' [Ho' Hch']]]. split; auto.
      exists o'. rewrite lookup_insert_ne.
      * split; auto. intros Ht. destruct (Hch' Ht).
        split; apply is_cell_S; auto.
      * intros E. subst p. exact (is_cell_fresh _ _ Hp).
    + split; [apply cell_not_null; auto|]. exists o. rewrite lookup_insert_eq.
      split; auto. intros Ht. destruct (Hch Ht). split; apply is_cell_S; auto.
  - intros q Hq [o' [Ho' Hm]]. apply is_cell_S in Hq. destruct Hq as [Hq| ->].
    + rewrite lookup_insert_ne in Ho'.
      * apply (Hu q Hq). exists o'. auto.
      * intros E. subst q. exact (is_cell_fresh _ _ Hq).
    + rewrite lookup_insert_eq in Ho'. congruence.
Qed.

Lemma gc_wf vm vm' : wf vm -> gc vm = Ret vm' -> wf vm'.
Proof.
  intros Hwf Hgc. apply wf_wf_n in Hwf. destruct Hwf as [n Hwf].
  destruct (gc_spec n vm Hwf) as [vm0 [f [k [Hgc0 H]]]].
  rewrite Hgc in Hgc0. inversion Hgc0; subst vm0.
  apply wf_wf_n. exists k. apply H.
Qed.

Lemma gc_returns vm : wf vm -> exists vm', gc vm = Ret vm'.
Proof.
  intros Hwf. apply wf_wf_n in Hwf. destruct Hwf as [n Hwf].
  destruct (gc_spec n vm Hwf) as [vm0 [f [k [Hgc0 H]]]]. eauto.
Qed.

(** [newObject] on a well-formed machine: the cell is carved from a
    well-formed machine (the one given, or the one the collection left) that
    has room for it. *)
Lemma newObject_inv vm t vm1 object :
  wf vm -> newObject vm t = Ret (vm1, object) ->
  exists vm0 n, wf_n n vm0 /\ cell (heap vm0) (S n) <= heap vm0 + HEAP_SIZE /\
    object = cell (heap vm0) n /\
    vm1 = mkVM (stack vm0) (heap vm0) (cell (heap vm0) (S n))
               (<[object := set_moveTo NULL (set_type t (raw (mem vm0) object))]>
                  (mem vm0)) (out vm0).
Proof.
  intros Hwf H. unfold newObject in H.
  assert (Hbump : forall vm0, wf vm0 ->
            ~ next vm0 + sizeof_Object > heap vm0 + HEAP_SIZE ->
            bump vm0 t = Ret (vm1, object) ->
            exists vm0 n, wf_n n vm0 /\ cell (heap vm0) (S n) <= heap vm0 + HEAP_SIZE /\
              object = cell (heap vm0) n /\
              vm1 = mkVM (stack vm0) (heap vm0) (cell (heap vm0) (S n))
                (<[object := set_moveTo NULL (set_type t (raw (mem vm0) object))]>
                   (mem vm0)) (out vm0)).
  { intros vm0 Hwf0 Hroom Hb. apply wf_wf_n in Hwf0. destruct Hwf0 as [n Hwf0].
    exists vm0, n. pose proof Hwf0 as [Hb0 [Hnext _]].
    unfold bump in Hb. destruct (decide (next vm0 = NULL)); [discriminate|].
    inversion Hb; subst. split; auto. rewrite cell_S. rewrite <- Hnext.
    split; [lia|]. split; auto. }
  destruct (decide (next vm + sizeof_Object > heap vm + HEAP_SIZE)) as [Hfull|Hroom].
  - apply bind_Ret in H. destruct H as [vm' [Hgc H]].
    destruct (decide (next vm' + sizeof_Object > heap vm' + HEAP_SIZE)); [discriminate|].
    apply (Hbump vm'); auto. eapply gc_wf; eauto.
  - apply (Hbump vm); auto.
Qed.

Lemma wf_n_stack_app n vm l1 l2 :
  Forall (is_cell (heap vm) n) (l1 ++ l2) -> Forall (is_cell (heap vm) (S n)) l1.
Proof.
  intros H. apply Forall_app in H. destruct H as [H _].
  eapply Forall_impl; [exact H|]. intros p Hp. apply is_cell_S. auto.
Qed.

Lemma pushInt_wf vm v vm' : wf vm -> pushInt vm v = Ret vm' -> wf vm'.
Proof.
  intros Hwf H. unfold pushInt in H.
  apply bind_Ret in H. destruct H as [[vm1 object] [Hnew H]].
  destruct (newObject_inv _ _ _ _ Hwf Hnew) as [vm0 [n [Hwf0 [Hroom [Hobj Hvm1]]]]].
  apply bind_Ret in H. destruct H as [vm2 [Hst H]].
  unfold store in Hst. apply bind_Ret in Hst. destruct Hst as [o [Hl Hst]].
  apply load_Ret in Hl. destruct Hl as [_ Hl].
  rewrite Hvm1 in Hl. simpl in Hl. rewrite lookup_insert_eq in Hl.
  inversion Hl; subst o. inversion Hst; subst vm2. clear Hst Hl.
  unfold push in H. destruct (decide _); [discriminate|]. inversion H; subst vm'.
  rewrite Hvm1. simpl. rewrite insert_insert_eq. rewrite Hobj.
  apply wf_wf_n. exists (S n). apply wf_n_alloc; auto.
  - simpl. intros; discriminate.
  - destruct Hwf0 as [_ [_ [_ [_ [_ Hs]]]]]. apply Forall_app. split.
    + eapply Forall_impl; [exact Hs|]. intros p Hp. apply is_cell_S. auto.
    + constructor; [|constructor]. apply is_cell_S. auto.
Qed.

Lemma pop_inv vm vm' v :
  pop vm = Ret (vm', v) ->
  exists l, stack vm = l ++ [v] /\
    vm' = mkVM l (heap vm) (next vm) (mem vm) (out vm).
Proof.
  unfold pop. destruct (last (stack vm)) as [x|] eqn:E; [|discriminate].
  intros H. inversion H; subst. apply last_Some in E. destruct E as [l E].
  exists l. split; auto. rewrite E. rewrite removelast_last. reflexivity.
Qed.

Lemma pop_wf vm vm' v : wf vm -> pop vm = Ret (vm', v) -> wf vm'.
Proof.
  intros [Hb [Hn [Hm [Hc [Hu Hs]]]]] H. apply pop_inv in H.
  destruct H as [l [Hl ->]]. unfold wf, in_heap in *. simpl.
  split; auto. split; auto. split; auto. split; auto. split; auto.
  rewrite Hl in Hs. apply Forall_app in Hs. tauto.
Qed.

Lemma pushPair_wf vm vm' p : wf vm -> pushPair vm = Ret (vm', p) -> wf vm'.
Proof.
  intros Hwf H. unfold pushPair in H.
  apply bind_Ret in H. destruct H as [[vm1 object] [Hnew H]].
  destruct (newObject_inv _ _ _ _ Hwf Hnew) as [vm0 [n [Hwf0 [Hroom [Hobj Hvm1]]]]].
  apply bind_Ret in H. destruct H as [[vm2 t] [Hpop1 H]].
  apply pop_inv in Hpop1. destruct Hpop1 as [l1 [Hl1 Hvm2]].
  apply bind_Ret in H. destruct H as [vm3 [Hst1 H]].
  unfold store in Hst1. apply bind_Ret in Hst1. destruct Hst1 as [o1 [Hld1 Hst1]].
  apply load_Ret in Hld1. destruct Hld1 as [_ Hld1].
  rewrite Hvm2, Hvm1 in Hld1. simpl in Hld1. rewrite lookup_insert_eq in Hld1.
  inversion Hld1; subst o1. inversion Hst1; subst vm3. clear Hst1 Hld1.
  apply bind_Ret in H. destruct H as [[vm4 h] [Hpop2 H]].
  apply pop_inv in Hpop2. destruct Hpop2 as [l2 [Hl2 Hvm4]].
  apply bind_Ret in H. destruct H as [vm5 [Hst2 H]].
  unfold store in Hst2. apply bind_Ret in Hst2. destruct Hst2 as [o2 [Hld2 Hst2]].
  apply load_Ret in Hld2. destruct Hld2 as [_ Hld2].
  rewrite Hvm4 in Hld2. simpl in Hld2. rewrite Hvm2, Hvm1 in Hld2. simpl in Hld2.
  rewrite lookup_insert_eq in Hld2.
  inversion Hld2; subst o2. inversion Hst2; subst vm5. clear Hst2 Hld2.
  apply bind_Ret in H. destruct H as [vm6 [Hpush H]]. inversion H; subst vm6 p.
  unfold push in Hpush. destruct (decide _); [discriminate|].
  inversion Hpush; subst vm'. clear Hpush H.
  rewrite Hvm4. simpl. rewrite Hvm2 in *. simpl in *. rewrite Hvm1 in *. simpl in *.
  rewrite !insert_insert_eq. rewrite Hobj.
  pose proof Hwf0 as [_ [_ [_ [_ [_ Hs]]]]].
  rewrite Hl1 in Hs. rewrite Hl2 in Hs.
  apply Forall_app in Hs. destruct Hs as [Hs Ht].
  apply Forall_app in Hs. destruct Hs as [Hs Hh].
  inversion Ht; subst. inversion Hh; subst.
  apply wf_wf_n. exists (S n). apply wf_n_alloc; auto.
  apply Forall_app. split.
  - eapply Forall_impl; [exact Hs|]. intros q Hq. apply is_cell_S. auto.
  - constructor; [|constructor]. apply is_cell_S. auto.
Qed.

Lemma store_field_wf vm a b o vm' (f : Object -> Object) :
  wf vm -> in_heap vm a -> in_heap vm b -> mem vm !! a = Some o ->
  type o = OBJ_PAIR ->
  type (f o) = OBJ_PAIR -> moveTo (f o) = moveTo o ->
  (head (f o) = b /\ tail (f o) = tail o \/ head (f o) = head o /\ tail (f o) = b) ->
  store f a vm = Ret vm' -> wf vm'.
Proof.
  intros [Hb [Hn [Hm [Hc [Hu Hs]]]]] Ha Hbb Ho Ht Hft Hfm Hf H.
  unfold store in H. apply bind_Ret in H. destruct H as [o' [Hl H]].
  apply load_Ret in Hl. destruct Hl as [_ Hl]. rewrite Ho in Hl. inversion Hl; subst o'.
  inversion H; subst vm'. unfold wf, in_heap in *. simpl.
  split; auto. split; auto. split; auto. split; [|split; auto].
  - intros p Hp. destruct (Hc p Hp) as [Hnz [op [Hop Hch]]]. split; auto.
    destruct (decide (p = a)) as [->|Hne].
    + rewrite lookup_insert_eq. eexists. split; [reflexivity|]. intros _.
      rewrite Ho in Hop. inversion Hop; subst op. destruct (Hch Ht) as [A B].
      destruct Hf as [[-> ->]|[-> ->]]; auto.
    + rewrite lookup_insert_ne by auto. eauto.
  - intros q Hq [oq [Hoq Hmq]]. destruct (decide (q = a)) as [->|Hne].
    + rewrite lookup_insert_eq in Hoq. inversion Hoq; subst oq.
      apply (Hu a Hq). exists o. split; auto. congruence.
    + rewrite lookup_insert_ne in Hoq by auto. apply (Hu q Hq). exists oq. auto.
Qed.

(** Every machine the mutator can build is well formed. *)
Lemma mutator_state_wf vm : mutator_state vm -> wf vm.
Proof.
  induction 1 as [base Hb|vm v vm' _ IH H|vm vm' p _ IH H|vm vm' p _ IH H
                 |vm a b o vm' _ IH Ha Hb Ho Ht H|vm a b o vm' _ IH Ha Hb Ho Ht H
                 |vm vm' _ IH H].
  - apply wf_newVM; auto.
  - eapply pushInt_wf; eauto.
  - eapply pushPair_wf; eauto.
  - eapply pop_wf; eauto.
  - eapply (store_field_wf vm a b o vm' (set_head b)); eauto.
  - eapply (store_field_wf vm a b o vm' (set_tail b)); eauto.
  - eapply gc_wf; eauto.
Qed.

Lemma liveCount_cell vm k :
  heap vm = heap vm -> next vm = cell (heap vm) k -> liveCount vm = Z.of_nat k.
Proof.
  intros _ H. unfold liveCount. rewrite H. unfold cell, sizeof_Object.
  replace (heap vm + 32 * Z.of_nat k - heap vm) with (Z.of_nat k * 32) by lia.
  apply Z.div_mul. lia.
Qed.

(** A collection of a machine in which every cell is reachable changes
    nothing but the output. *)
Lemma gc_fixpoint n vm :
  wf_n n vm ->
  (forall i, (i < n)%nat -> reachable (mem vm) (stack vm) (cell (heap vm) i)) ->
  gc vm = Ret (mkVM (stack vm) (heap vm) (next vm) (mem vm)
                    (out vm ++ [next vm - heap vm])).
Proof.
  intros Hwf Hall. pose proof Hwf as [Hb [Hnext [Hsz [Hc [Hu Hs]]]]].
  destruct (gc_spec n vm Hwf)
    as [vm' [f [k [Hgc [Hh [Hn [Hst [Hout [Hr [_ [_ [_ [Hid [Hrest _]]]]]]]]]]]]]].
  destruct (Hid Hall) as [-> Hf]. rewrite Hgc. f_equal.
  destruct vm' as [stk' hp' nx' m' out']. simpl in *. subst hp'.
  assert (Hfc : forall p, is_cell (heap vm) n p -> f p = p).
  { intros p [i [Hi ->]]. auto. }
  f_equal.
  - rewrite Hst. rewrite <- (list_fmap_id (stack vm)) at 2.
    apply Forall_fmap_ext_1. eapply Forall_impl; [exact Hs|]. intros p Hp. simpl. auto.
  - congruence.
  - apply map_eq. intros q.
    assert (Hdec : is_cell (heap vm) n q \/ ~ is_cell (heap vm) n q).
    { destruct (decide (in_block (heap vm) (cell (heap vm) n) q)) as [Hq|Hq].
      - left. apply in_block_is_cell. exact Hq.
      - right. intros Hq'. apply Hq. apply in_block_is_cell. exact Hq'. }
    destruct Hdec as [Hq|Hq].
    + pose proof Hq as [i [Hi ->]].
      destruct (Hr _ (Hall i Hi)) as [_ [_ [_ [o [Ho Ho']]]]].
      rewrite Hf in Ho' by auto. rewrite Ho, Ho'. f_equal.
      destruct (Hc _ Hq) as [_ [o0 [Ho0 Hch]]]. rewrite Ho in Ho0. inversion Ho0; subst o0.
      assert (Hz : moveTo o = NULL).
      { destruct (decide (moveTo o = NULL)) as [|Hz]; auto.
        exfalso. apply (Hu _ Hq). exists o. auto. }
      unfold relocate. destruct o as [ty mv va hd tl]. simpl in *. subst mv.
      destruct ty; [reflexivity|]. destruct Hch as [A B]; auto.
      rewrite (Hfc _ A), (Hfc _ B). reflexivity.
    + auto.
  - rewrite Hout, Hn, Hnext. reflexivity.
Qed.

(** The forwarding function carries paths to paths. *)
Lemma gc_reach vm vm' (f : Z -> Z) :
  (forall p, reachable (mem vm) (stack vm) p ->
     exists o, mem vm !! p = Some o /\ mem vm' !! f p = Some (relocate f o)) ->
  forall r p, r ∈ stack vm -> reach (mem vm) r p -> reach (mem vm') (f r) (f p).
Proof.
  intros Hr r p Hroot R.
  induction R as [|q o R IH Hq Ht|q o R IH Hq Ht]; [constructor| |].
  - destruct (Hr q) as [o' [Ho' H']]; [exists r; auto|].
    rewrite Hq in Ho'. inversion Ho'; subst o'.
    rewrite <- (head_relocate f o Ht). eapply reach_head; eauto.
    rewrite type_relocate. auto.
  - destruct (Hr q) as [o' [Ho' H']]; [exists r; auto|].
    rewrite Hq in Ho'. inversion Ho'; subst o'.
    rewrite <- (tail_relocate f o Ht). eapply reach_tail; eauto.
    rewrite type_relocate. auto.
Qed.

(** After a collection every cell of the heap is reachable. *)
Lemma gc_all_reachable n vm : wf_n n vm ->
  exists vm' k, gc vm = Ret vm' /\ wf_n k vm' /\
    forall i, (i < k)%nat ->
      reachable (mem vm') (stack vm') (cell (heap vm') i).
Proof.
  intros Hwf.
  destruct (gc_spec n vm Hwf)
    as [vm' [f [k [Hgc [Hh [Hn [Hst [Hout [Hr [Hsurj [_ [_ [_ [_ Hwf']]]]]]]]]]]]]].
  exists vm', k. split; auto. split; auto. intros i Hi.
  destruct (Hsurj (cell (heap vm) i)) as [p [[r [Hroot R]] Hfp]]; [exists i; auto|].
  rewrite Hh, <- Hfp. exists (f r). split.
  - rewrite Hst. apply list_elem_of_fmap_2. auto.
  - apply (gc_reach vm vm' f); auto.
    intros p' Hp'. destruct (Hr p' Hp') as [_ [_ [_ H]]]. exact H.
Qed.

Ltac gc_spec_at vm Hwf :=
  let n := fresh "n" in
  apply wf_wf_n in Hwf; destruct Hwf as [n Hwf];
  destruct (gc_spec n vm Hwf)
    as [?vm' [?f [?k [?Hgc [?Hh [?Hn [?Hst [?Hout [?Hr [?Hsurj [?Hmono [?Hlist [?Hid [?Hrest ?Hwf']]]]]]]]]]]]]].

(** X1. In the fixed-heap program, on every machine the mutator can build, a
    collection returns and leaves as many cells as there were objects
    reachable from the stack. *)
Theorem fixed_gc_liveCount vm :
  mutator_state vm ->
  exists vm' l, gc vm = Ret vm' /\ NoDup l /\
    (forall p, p ∈ l <-> reachable (mem vm) (stack vm) p) /\
    liveCount vm' = Z.of_nat (length l).
Proof.
  intros Hms. pose proof (mutator_state_wf vm Hms) as Hwf. gc_spec_at vm Hwf.
  destruct Hlist as [l [Hnd [Hl Hlen]]].
  exists vm', l. split; auto. split; auto. split; auto.
  rewrite Hlen. apply liveCount_cell; auto. rewrite Hh. auto.
Qed.

(** X2. In the fixed-heap program every cell that survives a collection is the
    copy of a reachable object at its forwarding address, with its tag and
    value kept and its fields forwarded; the fields of a surviving pair point
    into the heap, at cells whose tags are those of the objects the fields
    pointed to before. *)
Theorem fixed_gc_pairs vm :
  mutator_state vm ->
  exists vm' (f : Z -> Z), gc vm = Ret vm' /\
    stack vm' = f <$> stack vm /\
    (forall q, in_heap vm' q ->
       exists p o, reachable (mem vm) (stack vm) p /\ q = f p /\
         mem vm !! p = Some o /\ mem vm' !! q = Some (relocate f o)) /\
    (forall q o', in_heap vm' q -> mem vm' !! q = Some o' -> type o' = OBJ_PAIR ->
       in_heap vm' (head o') /\ in_heap vm' (tail o')) /\
    (forall p o, reachable (mem vm) (stack vm) p -> mem vm !! p = Some o ->
       type o = OBJ_PAIR ->
       exists oh ot oh' ot',
         mem vm !! head o = Some oh /\ mem vm !! tail o = Some ot /\
         mem vm' !! f (head o) = Some oh' /\ mem vm' !! f (tail o) = Some ot' /\
         type oh' = type oh /\ type ot' = type ot).
Proof.
  intros Hms. pose proof (mutator_state_wf vm Hms) as Hwf. gc_spec_at vm Hwf.
  exists vm', f. split; auto. split; auto.
  assert (Hin : forall q, in_heap vm' q <-> is_cell (heap vm) k q).
  { intros q. unfold in_heap. rewrite Hh, Hn. apply in_block_is_cell. }
  split; [|split].
  - intros q Hq. apply Hin in Hq. destruct (Hsurj q Hq) as [p [Hp Hfp]].
    destruct (Hr p Hp) as [_ [_ [_ [o [Ho Ho']]]]].
    exists p, o. rewrite <- Hfp. auto.
  - intros q o' Hq Ho' Ht. apply Hin in Hq.
    destruct Hwf' as [_ [_ [_ [Hc' _]]]]. rewrite Hh in Hc'.
    destruct (Hc' q Hq) as [_ [o2 [Ho2 Hch]]]. rewrite Ho' in Ho2.
    inversion Ho2; subst o2. destruct (Hch Ht). split; apply Hin; auto.
  - intros p o Hp Ho Ht.
    destruct (Hr _ (reachable_head _ _ _ _ Hp Ho Ht)) as [_ [_ [_ [oh [Hoh Hoh']]]]].
    destruct (Hr _ (reachable_tail _ _ _ _ Hp Ho Ht)) as [_ [_ [_ [ot [Hot Hot']]]]].
    exists oh, ot, (relocate f oh), (relocate f ot).
    rewrite !type_relocate. auto 10.
Qed.

(** X3. In the fixed-heap program no cell of the heap carries a mark after a
    collection. *)
Theorem fixed_gc_marks_cleared vm :
  mutator_state vm ->
  exists vm', gc vm = Ret vm' /\
    forall q, in_heap vm' q -> exists o, mem vm' !! q = Some o /\ moveTo o = NULL.
Proof.
  intros Hms. pose proof (mutator_state_wf vm Hms) as Hwf. gc_spec_at vm Hwf.
  exists vm'. split; auto. intros q Hq.
  unfold in_heap in Hq. rewrite Hn, Hh in Hq. apply in_block_is_cell in Hq.
  destruct (Hsurj q Hq) as [p [Hp Hfp]].
  destruct (Hr p Hp) as [_ [_ [_ [o [Ho Ho']]]]].
  exists (relocate f o). rewrite <- Hfp. split; auto. apply moveTo_relocate.
Qed.

(** X4. In the fixed-heap program a second collection right after a first one
    changes neither the stack, nor the frontier, nor a single object. *)
Theorem fixed_gc_twice vm vm' :
  mutator_state vm -> gc vm = Ret vm' ->
  gc vm' = Ret (mkVM (stack vm') (heap vm') (next vm') (mem vm')
                     (out vm' ++ [next vm' - heap vm'])).
Proof.
  intros Hms Hgc. pose proof (mutator_state_wf vm Hms) as Hwf.
  apply wf_wf_n in Hwf. destruct Hwf as [n Hwf].
  destruct (gc_all_reachable n vm Hwf) as [vm0 [k [Hgc0 [Hwf0 Hall]]]].
  rewrite Hgc in Hgc0. inversion Hgc0; subst vm0.
  apply (gc_fixpoint k); auto.
Qed.

End FixedProofs.

(** ** Rounding to double precision *)

Lemma round53_small n : n < 2 ^ 53 -> round53 n = n.
Proof. intros H. unfold round53. rewrite decide_True by exact H. reflexivity. Qed.

(** Rounding loses at most one part in [2^53]. *)
Lemma round53_lower n : 0 <= n -> n - n `div` 2 ^ 53 <= round53 n.
Proof.
  intros Hn. unfold round53. destruct (decide (n < 2 ^ 53)) as [Hs|Hb].
  - assert (0 <= n `div` 2 ^ 53) by (apply Z.div_pos; lia). lia.
  - assert (Hpos : 0 < n) by lia.
    destruct (Z.log2_spec n Hpos) as [Hlo Hhi].
    assert (He : 53 <= Z.log2 n) by (apply Z.log2_le_pow2; lia).
    set (s := Z.log2 n - 52) in *.
    assert (Hs1 : 1 <= s) by (unfold s; lia).
    assert (Hp : 0 < 2 ^ s) by (apply Z.pow_pos_nonneg; lia).
    pose proof (Z.div_mod n (2 ^ s) ltac:(lia)) as Hdm.
    pose proof (Z.mod_pos_bound n (2 ^ s) Hp) as Hr.
    set (q := n `div` 2 ^ s) in *. set (r := n `mod` 2 ^ s) in *.
    assert (Hhalf : 2 ^ s = 2 * 2 ^ (s - 1)).
    { replace s with (1 + (s - 1)) at 1 by lia. rewrite Z.pow_add_r by lia. reflexivity. }
    set (half := 2 ^ (s - 1)) in *.
    assert (Hle : half <= n `div` 2 ^ 53).
    { apply Z.div_le_lower_bound; [lia|].
      assert (2 ^ 53 * half = 2 ^ Z.log2 n).
      { unfold half. rewrite <- Z.pow_add_r by lia. f_equal. unfold s. lia. }
      lia. }
    destruct (decide (r < half)); [nia|].
    destruct (decide (half < r)); [nia|].
    destruct (Z.even q); nia.
Qed.

(** An even number of halves up to [2^54] is a whole number up to [2^53]:
    it is not rounded. *)
Lemma round53_even_exact m : 0 <= m <= 2 ^ 53 -> round53 (2 * m) = 2 * m.
Proof.
  intros [H0 H1]. destruct (decide (2 * m < 2 ^ 53)) as [Hs|Hb].
  - apply round53_small. exact Hs.
  - destruct (decide (m = 2 ^ 53)) as [->|Hne]; [vm_compute; reflexivity|].
    unfold round53. rewrite decide_False by exact Hb.
    assert (Hlog : Z.log2 (2 * m) = 53) by (apply Z.log2_unique; lia).
    rewrite Hlog. change (53 - 52) with 1. change (2 ^ 1) with 2.
    change (2 ^ (1 - 1)) with 1.
    replace (2 * m) with (m * 2) by lia.
    rewrite Z.mod_mul, Z.div_mul by lia. rewrite decide_True by lia. reflexivity.
Qed.

(** ** The reallocating collector *)

Module ReallocProofs.
Import Realloc.

Lemma heapSize_for_min liveSize add : HEAP_MIN <= heapSize_for liveSize add.
Proof. unfold heapSize_for. destruct (decide _); lia. Qed.

(** As long as one and a half times the live bytes plus the additional bytes
    is at most [2^53], nothing is rounded. *)
Lemma heapSize_for_exact (k : nat) add :
  0 <= add -> 48 * Z.of_nat k + add <= 2 ^ 53 ->
  heapSize_for (32 * Z.of_nat k) add = Z.max HEAP_MIN (48 * Z.of_nat k + add).
Proof.
  intros Ha Hb. unfold heapSize_for.
  assert (Hk : 0 <= Z.of_nat k) by lia.
  rewrite (round53_small (32 * Z.of_nat k)) by lia.
  replace (3 * (32 * Z.of_nat k)) with (2 * (48 * Z.of_nat k)) by lia.
  rewrite (round53_even_exact (48 * Z.of_nat k)) by lia.
  destruct (decide (add = 2 ^ 53)) as [->|Hne].
  - assert (k = 0%nat) by lia. subst k. vm_compute. reflexivity.
  - rewrite (round53_small add) by lia.
    replace (2 * (48 * Z.of_nat k) + 2 * add) with (2 * (48 * Z.of_nat k + add)) by lia.
    rewrite (round53_even_exact (48 * Z.of_nat k + add)) by lia.
    replace (2 * (48 * Z.of_nat k + add)) with ((48 * Z.of_nat k + add) * 2) by lia.
    rewrite Z.div_mul by lia. destruct (decide _); lia.
Qed.

(** Rounded or not, the size asked for covers the live bytes. *)
Lemma heapSize_for_live (k : nat) add :
  0 <= add -> 32 * Z.of_nat k <= heapSize_for (32 * Z.of_nat k) add.
Proof.
  intros Ha. unfold heapSize_for.
  set (L := 32 * Z.of_nat k). assert (HL : 0 <= L) by (unfold L; lia).
  pose proof (round53_lower L HL) as H1.
  set (l := round53 L) in *.
  assert (Hq1 : 2 ^ 53 * (L `div` 2 ^ 53) <= L) by (apply Z.mul_div_le; lia).
  assert (Hl : 0 <= l) by lia.
  pose proof (round53_lower (3 * l) ltac:(lia)) as H2.
  set (p := round53 (3 * l)) in *.
  assert (Hq2 : 2 ^ 53 * ((3 * l) `div` 2 ^ 53) <= 3 * l) by (apply Z.mul_div_le; lia).
  pose proof (round53_lower add Ha) as H3.
  set (a := round53 add) in *.
  assert (Hq3 : 2 ^ 53 * (add `div` 2 ^ 53) <= add) by (apply Z.mul_div_le; lia).
  assert (Hp : 0 <= p) by lia. assert (Ha' : 0 <= a) by lia.
  pose proof (round53_lower (p + 2 * a) ltac:(lia)) as H4.
  set (S := round53 (p + 2 * a)) in *.
  assert (Hq4 : 2 ^ 53 * ((p + 2 * a) `div` 2 ^ 53) <= p + 2 * a)
    by (apply Z.mul_div_le; lia).
  assert (HS : 2 * L <= S) by lia.
  assert (L <= S `div` 2) by (apply Z.div_le_lower_bound; lia).
  destruct (decide _); lia.
Qed.

(** Rounded or not, the size [newObject] makes [gc] ask for has room for one
    more cell above the live bytes. *)
Lemma heapSize_for_room (k : nat) :
  32 * Z.of_nat k + 32 <= heapSize_for (32 * Z.of_nat k) 32.
Proof.
  unfold heapSize_for. rewrite (round53_small 32) by lia.
  set (L := 32 * Z.of_nat k). assert (HL : 0 <= L) by (unfold L; lia).
  pose proof (round53_lower L HL) as H1.
  set (l := round53 L) in *.
  assert (Hq1 : 2 ^ 53 * (L `div` 2 ^ 53) <= L) by (apply Z.mul_div_le; lia).
  assert (Hl : 0 <= l) by lia.
  pose proof (round53_lower (3 * l) ltac:(lia)) as H2.
  set (p := round53 (3 * l)) in *.
  assert (Hq2 : 2 ^ 53 * ((3 * l) `div` 2 ^ 53) <= 3 * l) by (apply Z.mul_div_le; lia).
  assert (Hp : 0 <= p) by lia.
  pose proof (round53_lower (p + 2 * 32) ltac:(lia)) as H4.
  set (S := round53 (p + 2 * 32)) in *.
  assert (Hq4 : 2 ^ 53 * ((p + 2 * 32) `div` 2 ^ 53) <= p + 2 * 32)
    by (apply Z.mul_div_le; lia).
  assert (HS : 2 * L + 64 <= S) by (unfold L in *; lia).
  assert (L + 32 <= S `div` 2) by (apply Z.div_le_lower_bound; lia).
  destruct (decide _); lia.
Qed.

Lemma update_step_no_exit base old m a g : update_step base old m a <> Exit g.
Proof.
  unfold update_step. intros H. apply bind_Exit in H.
  destruct H as [H|[o [_ H]]]; [exact (load_not_exit _ _ _ H)|].
  destruct (decide _); [discriminate|]. destruct (type o); [discriminate|].
  apply bind_Exit in H. destruct H as [H|[h [_ H]]]; [exact (load_not_exit _ _ _ H)|].
  apply bind_Exit in H. destruct H as [H|[t [_ H]]]; [exact (load_not_exit _ _ _ H)|].
  discriminate.
Qed.

Lemma update_roots_no_exit base old m g : forall roots,
  update_roots base old m roots <> Exit g.
Proof.
  induction roots as [|r roots IH]; simpl; [discriminate|]. intros H.
  apply bind_Exit in H. destruct H as [H|[o [_ H]]]; [exact (load_not_exit _ _ _ H)|].
  apply bind_Exit in H. destruct H as [H|[rest [_ H]]]; [exact (IH H)|discriminate].
Qed.

Lemma compact_step_no_exit base limit old m a g :
  compact_step base limit old m a <> Exit g.
Proof.
  unfold compact_step. intros H. apply bind_Exit in H.
  destruct H as [H|[o [_ H]]]; [exact (load_not_exit _ _ _ H)|].
  destruct (decide _); [discriminate|]. destruct (decide _); discriminate.
Qed.

Lemma gc_resize_inv al vm add vm1 old :
  gc_resize al vm add = Ret (vm1, old) ->
  exists m1 m2 to,
    mark_roots (stack vm) (mem vm) = Ret m1 /\
    plan (heap vm) (next vm) m1 = Ret (m2, to) /\
    old = heap vm /\
    vm1 = mkVM (stack vm) (al (heap vm) (heapSize_for (to - heap vm) add))
               (al (heap vm) (heapSize_for (to - heap vm) add)
                + heapSize_for (to - heap vm) add)
               (al (heap vm) (heapSize_for (to - heap vm) add) + (to - heap vm))
               (realloc_mem m2 (heap vm)
                  (al (heap vm) (heapSize_for (to - heap vm) add))
                  (heapSize_for (to - heap vm) add))
               (out vm).
Proof.
  unfold gc_resize, markAll, calculateNewLocations. intros H.
  apply bind_Ret in H. destruct H as [vm1' [H1 H]].
  apply bind_Ret in H1. destruct H1 as [m1 [H1 E1]]. inversion E1; subst vm1'. clear E1.
  simpl in H. apply bind_Ret in H. destruct H as [[vm2 liveSize] [H2 H]].
  apply bind_Ret in H2. destruct H2 as [[m2 to] [H2 E2]].
  inversion E2; subst vm2 liveSize. clear E2. simpl in H. inversion H; subst.
  exists m1, m2, to. auto.
Qed.

Lemma gc_no_exit al vm add g : gc al vm add <> Exit g.
Proof.
  unfold gc. intros H. apply bind_Exit in H. destruct H as [H|[[vm3 old] [_ H]]].
  - unfold gc_resize in H. apply bind_Exit in H. destruct H as [H|[vm1 [_ H]]].
    + unfold markAll in H. apply bind_Exit in H.
      destruct H as [H|[m [_ H]]]; [exact (mark_roots_no_exit _ _ _ H)|discriminate].
    + apply bind_Exit in H. destruct H as [H|[[vm2 ls] [_ H]]]; [|discriminate].
      unfold calculateNewLocations in H. apply bind_Exit in H.
      destruct H as [H|[[m to] [_ H]]]; [exact (plan_no_exit _ _ _ _ H)|discriminate].
  - apply bind_Exit in H. destruct H as [H|[vm4 [_ H]]].
    + unfold updateAllObjectPointers in H. apply bind_Exit in H.
      destruct H as [H|[m [_ H]]].
      * revert H. apply foldM_no_exit. intros s a. apply update_step_no_exit.
      * apply bind_Exit in H. destruct H as [H|[r [_ H]]]; [|discriminate].
        exact (update_roots_no_exit _ _ _ _ _ H).
    + apply bind_Exit in H. destruct H as [H|[vm5 [_ H]]]; [|discriminate].
      unfold compact in H. apply bind_Exit in H. destruct H as [H|[m [_ H]]]; [|discriminate].
      revert H. apply foldM_no_exit. intros s a. apply compact_step_no_exit.
Qed.

Lemma updateAllObjectPointers_fields vm old vm' :
  updateAllObjectPointers vm old = Ret vm' ->
  heap vm' = heap vm /\ end_ vm' = end_ vm /\ next vm' = next vm /\ out vm' = out vm.
Proof.
  unfold updateAllObjectPointers. intros H.
  apply bind_Ret in H. destruct H as [m [_ H]].
  apply bind_Ret in H. destruct H as [r [_ H]]. inversion H; subst. simpl. auto.
Qed.

Lemma compact_fields vm old vm' :
  compact vm old = Ret vm' ->
  heap vm' = heap vm /\ end_ vm' = end_ vm /\ next vm' = next vm /\
  out vm' = out vm /\ stack vm' = stack vm.
Proof.
  unfold compact. intros H.
  apply bind_Ret in H. destruct H as [m [_ H]]. inversion H; subst. simpl. auto.
Qed.

(** The fields [heap], [end] and [next] after a collection, and what it
    printed. *)
Lemma gc_fields al vm add vm' :
  gc al vm add = Ret vm' ->
  exists k : nat,
    let liveSize := sizeof_Object * Z.of_nat k in
    let heapSize := heapSize_for liveSize add in
    heap vm' = al (heap vm) heapSize /\
    end_ vm' = heap vm' + heapSize /\
    next vm' = heap vm' + liveSize /\
    out vm' = out vm ++ [(liveSize, heapSize)].
Proof.
  unfold gc. intros H. apply bind_Ret in H. destruct H as [[vm3 old] [H3 H]].
  apply bind_Ret in H. destruct H as [vm4 [H4 H]].
  apply bind_Ret in H. destruct H as [vm5 [H5 H]].
  destruct (gc_resize_inv _ _ _ _ _ H3) as [m1 [m2 [to [_ [Hp [_ Hvm3]]]]]].
  unfold plan in Hp. apply plan_steps_to in Hp. destruct Hp as [k [Hk _]].
  destruct (updateAllObjectPointers_fields _ _ _ H4) as [A1 [A2 [A3 A4]]].
  destruct (compact_fields _ _ _ H5) as [B1 [B2 [B3 [B4 _]]]].
  exists k. inversion H; subst vm'. simpl.
  rewrite B1, B2, B3, B4, A1, A2, A3, A4. rewrite Hvm3. simpl.
  replace (to - heap vm) with (sizeof_Object * Z.of_nat k) by lia.
  split; auto. split; auto. split; auto. f_equal. f_equal. f_equal; lia.
Qed.

Lemma update_steps_frame base old : forall l (m m' : memory),
  foldM (update_step base old) l m = Ret m' ->
  forall p, p ∉ l -> m' !! p = m !! p.
Proof.
  induction l as [|a l IH]; intros m m' H p Hp; simpl in H.
  - inversion H; subst. reflexivity.
  - apply bind_Ret in H. destruct H as [m1 [H1 H2]].
    apply not_elem_of_cons in Hp. destruct Hp as [Hne Hp].
    rewrite (IH _ _ H2 p Hp).
    unfold update_step in H1. apply bind_Ret in H1. destruct H1 as [o [_ H1]].
    destruct (decide _); [inversion H1; subst; reflexivity|].
    destruct (type o); [inversion H1; subst; reflexivity|].
    apply bind_Ret in H1. destruct H1 as [h [_ H1]].
    apply bind_Ret in H1. destruct H1 as [t [_ H1]].
    inversion H1; subst. rewrite !lookup_insert_ne by auto. reflexivity.
Qed.

Lemma compact_steps_agree base limit old nxt : forall l (m1 m2 m1' m2' : memory),
  (forall a, a ∈ l -> a < nxt) ->
  (forall q, q < nxt -> m1 !! q = m2 !! q) ->
  foldM (compact_step base limit old) l m1 = Ret m1' ->
  foldM (compact_step base limit old) l m2 = Ret m2' ->
  forall q, q < nxt -> m1' !! q = m2' !! q.
Proof.
  induction l as [|a l IH]; intros m1 m2 m1' m2' Hl Hag H1 H2; simpl in *.
  - inversion H1; inversion H2; subst. auto.
  - apply bind_Ret in H1. destruct H1 as [n1 [S1 H1]].
    apply bind_Ret in H2. destruct H2 as [n2 [S2 H2]].
    apply (IH n1 n2 m1' m2'); auto.
    { intros a' Ha'. apply Hl. right. auto. }
    unfold compact_step in S1, S2.
    apply bind_Ret in S1. destruct S1 as [o1 [L1 S1]].
    apply bind_Ret in S2. destruct S2 as [o2 [L2 S2]].
    apply load_Ret in L1. apply load_Ret in L2.
    destruct L1 as [_ L1]. destruct L2 as [_ L2].
    rewrite (Hag a) in L1 by (apply Hl; left). rewrite L1 in L2.
    inversion L2; subst o2.
    destruct (decide (moveTo o1 = NULL)).
    + inversion S1; inversion S2; subst. auto.
    + destruct (decide _); [|discriminate]. inversion S1; inversion S2; subst.
      intros q Hq. destruct (decide (q = base + (moveTo o1 - old))) as [->|Hne].
      * rewrite !lookup_insert_eq. reflexivity.
      * rewrite !lookup_insert_ne by auto. auto.
Qed.

End ReallocProofs.

Import ReallocProofs.

(** ** Totality of the model *)

Lemma plain_bind {A B} (x : outcome A) (k : A -> outcome B) :
  plain x -> (forall a, x = Ret a -> plain (k a)) -> plain (bind x k).
Proof. destruct x; simpl; auto. Qed.

Lemma plain_foldM {A S} (step : S -> A -> outcome S) :
  (forall s a, plain (step s a)) -> forall l s, plain (foldM step l s).
Proof.
  intros Hstep. induction l as [|a l IH]; intros s; simpl; [exact I|].
  apply plain_bind; auto.
Qed.

Lemma plain_load m p : plain (load m p).
Proof. unfold load. destruct (decide _); [exact I|]. destruct (m !! p); exact I. Qed.

Lemma plain_mark_roots roots m : plain (mark_roots roots m).
Proof.
  pose proof (mark_roots_fuel_enough roots m) as H1.
  destruct (mark_roots roots m) as [m'|g| |] eqn:E; simpl; auto.
  exact (mark_roots_no_exit roots m g E).
Qed.

Ltac plain_steps :=
  repeat first
    [ exact I
    | apply plain_load
    | apply plain_mark_roots
    | apply plain_bind; [|intros ? _]
    | match goal with
      | |- plain (if ?c then _ else _) => destruct c
      | |- plain (match ?x with OBJ_INT => _ | OBJ_PAIR => _ end) => destruct x
      | |- plain (let (_, _) := ?p in _) => destruct p
      | |- plain (match ?p with (_, _) => _ end) => destruct p
      end ].

Lemma plain_plan base nxt m : plain (plan base nxt m).
Proof.
  unfold plan. apply plain_foldM. intros [m' to] a. unfold plan_step. plain_steps.
Qed.

Lemma plain_fixed_update_roots m roots : plain (Fixed.update_roots m roots).
Proof. induction roots as [|r roots IH]; simpl; [exact I|]. plain_steps. exact IH. Qed.


(** The collectors never exhaust the recursion budget the model gives to
    [mark], and never exit: a collection returns, unless it runs into
    undefined behaviour. *)
Lemma fixed_gc_plain vm : plain (Fixed.gc vm).
Proof.
  unfold Fixed.gc, Fixed.markAll, Fixed.calculateNewLocations,
    Fixed.updateAllObjectPointers, Fixed.compact.
  plain_steps.
  - apply plain_plan.
  - apply plain_fixed_update_roots.
  - apply plain_foldM. intros ? ?. unfold Fixed.update_step. plain_steps.
  - apply plain_foldM. intros ? ?. unfold Fixed.compact_step. plain_steps.
Qed.


Example fixed_driver_tests :
  outcome_map Fixed.liveCount
    (do vm <- Fixed.run [PushInt 1; PushInt 2] (Fixed.newVM 4096); Fixed.gc vm) = Ret 2 /\
  outcome_map Fixed.liveCount
    (do vm <- Fixed.run [PushInt 1; PushInt 2; Pop; Pop] (Fixed.newVM 4096);
     Fixed.gc vm) = Ret 0 /\
  outcome_map Fixed.liveCount (do vm <- fixed_test3; Fixed.gc vm) = Ret 7 /\
  outcome_map Fixed.liveCount (do vm <- fixed_test4; Fixed.gc vm) = Ret 4.
Proof. repeat split; vm_compute; reflexivity. Qed.

Example realloc_driver_tests :
  outcome_map Realloc.liveCount
    (do vm <- Realloc.run in_place [PushInt 1; PushInt 2] (Realloc.newVM 4096);
     Realloc.gc in_place vm 0) = Ret 2 /\
  outcome_map Realloc.liveCount
    (do vm <- Realloc.run in_place [PushInt 1; PushInt 2; Pop; Pop] (Realloc.newVM 4096);
     Realloc.gc in_place vm 0) = Ret 0 /\
  outcome_map Realloc.liveCount
    (do vm <- realloc_test3 in_place; Realloc.gc in_place vm 0) = Ret 7 /\
  outcome_map Realloc.liveCount
    (do vm <- realloc_test4 in_place; Realloc.gc in_place vm 0) = Ret 4.
Proof. repeat split; vm_compute; reflexivity. Qed.

(** When [realloc] moves the block, a collection that finds a live pair reads
    the [moveTo] of its fields through their old addresses, in the block that
    was released: the third scenario of the driver runs into undefined
    behaviour at the allocation of its last pair. *)
Example realloc_moved_heap_pair :
  outcome_map Realloc.liveCount (realloc_test3 moving) = Undef.
Proof. vm_compute. reflexivity. Qed.

(** * Properties stated by the specification *)

(** The mark phase on its own.  On every object graph whose nodes are valid
    unmarked objects, cycles included, the mark phase returns; the objects it marks, in the order of
    the stores [object->moveTo = object], form a list without repetition whose
    members are exactly the objects reachable from the roots; and a call of
    [mark] on an object whose [moveTo] is already set returns at once, with
    no store and no recursive call. *)
Lemma mark_phase_marks_once (cells roots : list Z) (m : memory)
  (Hgraph : graph_ok cells m) (Hroots : Forall (fun r => r ∈ cells) roots) :
  exists m' log,
    mark_roots_log roots m = Ret (m', log) /\
    mark_roots roots m = Ret m' /\
    NoDup log /\
    (forall q, q ∈ log <-> reachable m roots q) /\
    (forall q, q ∈ cells -> (marked m' q <-> reachable m roots q)) /\
    (forall fuel p o (m0 : memory) l,
       load m0 p = Ret o -> moveTo o <> NULL ->
       mark_log (S fuel) p (m0, l) = Ret (m0, l) /\ mark (S fuel) p m0 = Ret m0).
Proof.
  destruct (graph_ok_closed cells m Hgraph) as [Hc Hu].
  destruct (mark_roots_spec _ roots m Hc Hroots Hu) as [m' [H' [E' [F' R']]]].
  destruct (mark_list_log_returns (S (size m)) roots m [] m' H') as [log Hlog].
  destruct (mark_list_log_spec _ _ _ _ _ _ Hlog) as [_ [new [E [D I]]]].
  simpl in E. subst log.
  exists m', new. split; auto. split; auto. split; auto. split; [|split].
  - intros q. rewrite I. split.
    + intros [Hq Hnq]. destruct (decide (q ∈ cells)) as [Hin|Hnin].
      * apply R'; auto.
      * exfalso. apply Hnq. destruct Hq as [o [Ho Hm]]. rewrite F' in Ho by auto.
        exists o. auto.
    + intros Hq.
      pose proof (reachable_closed (fun p => p ∈ cells) m roots q Hc Hroots Hq) as Hin.
      simpl in Hin.
      split; [apply R'; auto|auto].
  - exact R'.
  - intros fuel p o m0 l Hl Hm. simpl. rewrite Hl. simpl.
    rewrite !decide_False by auto. auto.
Qed.

Lemma mark_phase_marks_once_witness :
  graph_ok cyclic_cells cyclic_memory /\
  Forall (fun r => r ∈ cyclic_cells) [4096] /\
  exists m' log,
    mark_roots_log [4096] cyclic_memory = Ret (m', log) /\
    mark_roots [4096] cyclic_memory = Ret m' /\
    NoDup log /\
    (forall q, q ∈ log <-> reachable cyclic_memory [4096] q) /\
    (forall q, q ∈ cyclic_cells -> (marked m' q <-> reachable cyclic_memory [4096] q)) /\
    (forall fuel p o (m0 : memory) l,
       load m0 p = Ret o -> moveTo o <> NULL ->
       mark_log (S fuel) p (m0, l) = Ret (m0, l) /\ mark (S fuel) p m0 = Ret m0).
Proof.
  assert (H1 : graph_ok cyclic_cells cyclic_memory).
  { apply (bool_decide_unpack _). vm_compute. exact I. }
  assert (H2 : Forall (fun r => r ∈ cyclic_cells) [4096]).
  { apply (bool_decide_unpack _). vm_compute. exact I. }
  split; [exact H1|]. split; [exact H2|].
  exact (mark_phase_marks_once cyclic_cells [4096] cyclic_memory H1 H2).
Defined.

Example mark_cycle_log :
  outcome_map snd (mark_roots_log [4096] cyclic_memory) = Ret [4096; 4128; 4160].
Proof. vm_compute. reflexivity. Qed.

Lemma fixed_bump_inv vm t vm1 p :
  Fixed.bump vm t = Ret (vm1, p) ->
  p = Fixed.next vm /\ Fixed.out vm1 = Fixed.out vm /\
  Fixed.next vm1 = Fixed.next vm + sizeof_Object /\ Fixed.heap vm1 = Fixed.heap vm.
Proof.
  unfold Fixed.bump. destruct (decide _); [discriminate|].
  intros H. inversion H; subst. simpl. auto.
Qed.

Lemma realloc_bump_inv vm t vm1 p :
  Realloc.bump vm t = Ret (vm1, p) ->
  p = Realloc.next vm /\ Realloc.out vm1 = Realloc.out vm /\
  Realloc.next vm1 = Realloc.next vm + sizeof_Object /\
  Realloc.heap vm1 = Realloc.heap vm /\ Realloc.end_ vm1 = Realloc.end_ vm.
Proof.
  unfold Realloc.bump. destruct (decide _); [discriminate|].
  intros H. inversion H; subst. simpl. auto.
Qed.

Lemma fixed_bump_no_exit vm t g : Fixed.bump vm t <> Exit g.
Proof. unfold Fixed.bump. destruct (decide _); discriminate. Qed.

Lemma realloc_bump_no_exit vm t g : Realloc.bump vm t <> Exit g.
Proof. unfold Realloc.bump. destruct (decide _); discriminate. Qed.

Lemma fixed_gc_out vm vm' :
  Fixed.gc vm = Ret vm' ->
  Fixed.out vm' = Fixed.out vm ++ [Fixed.next vm' - Fixed.heap vm'].
Proof.
  unfold Fixed.gc, Fixed.markAll, Fixed.calculateNewLocations,
    Fixed.updateAllObjectPointers, Fixed.compact. intros H.
  apply bind_Ret in H. destruct H as [vm1 [H1 H]].
  apply bind_Ret in H1. destruct H1 as [m1 [_ E1]]. inversion E1; subst vm1. clear E1.
  apply bind_Ret in H. destruct H as [[vm2 e] [H2 H]].
  apply bind_Ret in H2. destruct H2 as [[m2 to] [_ E2]]. inversion E2; subst vm2 e. clear E2.
  apply bind_Ret in H. destruct H as [vm3 [H3 H]].
  apply bind_Ret in H3. destruct H3 as [r [_ H3]].
  apply bind_Ret in H3. destruct H3 as [m3 [_ E3]]. inversion E3; subst vm3. clear E3.
  apply bind_Ret in H. destruct H as [vm4 [H4 H]].
  apply bind_Ret in H4. destruct H4 as [m4 [_ E4]]. inversion E4; subst vm4. clear E4.
  inversion H; subst. reflexivity.
Qed.

Lemma fixed_gc_no_exit vm g : Fixed.gc vm <> Exit g.
Proof.
  unfold Fixed.gc. intros H. apply bind_Exit in H. destruct H as [H|[vm1 [_ H]]].
  - unfold Fixed.markAll in H. apply bind_Exit in H.
    destruct H as [H|[m [_ H]]]; [exact (mark_roots_no_exit _ _ _ H)|discriminate].
  - apply bind_Exit in H. destruct H as [H|[[vm2 e] [_ H]]].
    + unfold Fixed.calculateNewLocations in H. apply bind_Exit in H.
      destruct H as [H|[[m to] [_ H]]]; [exact (plan_no_exit _ _ _ _ H)|discriminate].
    + apply bind_Exit in H. destruct H as [H|[vm3 [_ H]]].
      * unfold Fixed.updateAllObjectPointers in H. apply bind_Exit in H.
        destruct H as [H|[r [_ H]]].
        -- revert H. generalize (Fixed.stack vm2).
           induction l as [|x l IH]; simpl; [discriminate|]. intros H.
           apply bind_Exit in H.
           destruct H as [H|[o [_ H]]]; [exact (load_not_exit _ _ _ H)|].
           apply bind_Exit in H. destruct H as [H|[rest [_ H]]]; [auto|discriminate].
        -- apply bind_Exit in H. destruct H as [H|[m [_ H]]]; [|discriminate].
           revert H. apply foldM_no_exit. intros m a H. unfold Fixed.update_step in H.
           apply bind_Exit in H.
           destruct H as [H|[o [_ H]]]; [exact (load_not_exit _ _ _ H)|].
           destruct (decide _); [|discriminate].
           apply bind_Exit in H.
           destruct H as [H|[h [_ H]]]; [exact (load_not_exit _ _ _ H)|].
           apply bind_Exit in H.
           destruct H as [H|[t [_ H]]]; [exact (load_not_exit _ _ _ H)|discriminate].
      * apply bind_Exit in H. destruct H as [H|[vm4 [_ H]]]; [|discriminate].
        unfold Fixed.compact in H. apply bind_Exit in H.
        destruct H as [H|[m [_ H]]]; [|discriminate].
        revert H. apply foldM_no_exit. intros m a H. unfold Fixed.compact_step in H.
        apply bind_Exit in H.
        destruct H as [H|[o [_ H]]]; [exact (load_not_exit _ _ _ H)|].
        destruct (decide _); [discriminate|]. destruct (decide _); discriminate.
Qed.

Lemma fixed_newObject_room vm t :
  fixed_room vm -> Fixed.newObject vm t = Fixed.bump vm t.
Proof.
  unfold fixed_room, Fixed.newObject. intros H.
  destruct (decide _) as [H'|_]; [lia|reflexivity].
Qed.

Lemma fixed_newObject_full vm t :
  ~ fixed_room vm ->
  Fixed.newObject vm t =
    do vm' <- Fixed.gc vm;
    if decide (fixed_room vm') then Fixed.bump vm' t else Exit OutOfMemory.
Proof.
  unfold fixed_room, Fixed.newObject. intros H.
  destruct (decide _) as [_|H']; [|lia].
  destruct (Fixed.gc vm) as [vm'| | |]; simpl; try reflexivity.
  destruct (decide (Fixed.next vm' + sizeof_Object > _)) as [A|A];
    destruct (decide (Fixed.next vm' + sizeof_Object <= _)) as [B|B];
    try reflexivity; lia.
Qed.

Lemma realloc_newObject_room al vm t :
  realloc_room vm -> Realloc.newObject al vm t = Realloc.bump vm t.
Proof.
  unfold realloc_room, Realloc.newObject. intros H.
  destruct (decide _) as [H'|_]; [lia|reflexivity].
Qed.

Lemma realloc_newObject_full al vm t :
  ~ realloc_room vm ->
  Realloc.newObject al vm t =
    do vm' <- Realloc.gc al vm sizeof_Object; Realloc.bump vm' t.
Proof.
  unfold realloc_room, Realloc.newObject. intros H.
  destruct (decide _) as [_|H']; [reflexivity|lia].
Qed.

Lemma headroom_exact (k : nat) :
  spec_headroom (sizeof_Object * Z.of_nat k) = 48 * Z.of_nat k.
Proof.
  unfold spec_headroom, sizeof_Object.
  replace (32 * Z.of_nat k * 3) with ((48 * Z.of_nat k) * 2) by lia.
  apply Z.div_mul. lia.
Qed.

(** The collection [newObject] runs leaves room for the cell. *)
Lemma realloc_gc_room al vm vm' :
  Realloc.gc al vm sizeof_Object = Ret vm' ->
  Realloc.next vm' + sizeof_Object <= Realloc.end_ vm'.
Proof.
  intros H. destruct (gc_fields _ _ _ _ H) as [k [_ [He [Hn _]]]].
  rewrite He, Hn. pose proof (heapSize_for_room k) as Hroom.
  unfold sizeof_Object in *. lia.
Qed.

(** C7. [newObject] runs the collector exactly when the heap has no room for
    one more cell: with room it is the bare bump allocation, without room it
    is the collection followed by the allocation, and a successful call has
    printed one collection line in the second case and none in the first.  In
    the fixed-heap program it exits with [OutOfMemory] if and only if there
    was no room, the collection returned, and there is still no room.  In the
    reallocating program it never exits with [OutOfMemory], and every
    collection it ran for an allocation left room for the cell. *)
Theorem allocate_collects_when_full
  (vmf : Fixed.VM) (vmr : Realloc.VM) (al : Z -> Z -> Z) (t : ObjectType) :
  (fixed_room vmf -> Fixed.newObject vmf t = Fixed.bump vmf t) /\
  (~ fixed_room vmf ->
     Fixed.newObject vmf t =
       do vm' <- Fixed.gc vmf;
       if decide (fixed_room vm') then Fixed.bump vm' t else Exit OutOfMemory) /\
  (forall vm1 p, Fixed.newObject vmf t = Ret (vm1, p) ->
     length (Fixed.out vm1) =
       (length (Fixed.out vmf) + if decide (fixed_room vmf) then 0 else 1)%nat) /\
  (Fixed.newObject vmf t = Exit OutOfMemory <->
     ~ fixed_room vmf /\ exists vm', Fixed.gc vmf = Ret vm' /\ ~ fixed_room vm') /\
  (realloc_room vmr -> Realloc.newObject al vmr t = Realloc.bump vmr t) /\
  (~ realloc_room vmr ->
     Realloc.newObject al vmr t =
       do vm' <- Realloc.gc al vmr sizeof_Object; Realloc.bump vm' t) /\
  (forall vm1 p, Realloc.newObject al vmr t = Ret (vm1, p) ->
     length (Realloc.out vm1) =
       (length (Realloc.out vmr) + if decide (realloc_room vmr) then 0 else 1)%nat) /\
  Realloc.newObject al vmr t <> Exit OutOfMemory /\
  (forall vm', Realloc.gc al vmr sizeof_Object = Ret vm' -> realloc_room vm').
Proof.
  split; [apply fixed_newObject_room|]. split; [apply fixed_newObject_full|].
  split; [|split; [|split; [apply realloc_newObject_room|
                            split; [apply realloc_newObject_full|split; [|split]]]]].
  - intros vm1 p H. destruct (decide (fixed_room vmf)) as [Hr|Hr].
    + rewrite fixed_newObject_room in H by auto.
      apply fixed_bump_inv in H. destruct H as [_ [-> _]]. lia.
    + rewrite fixed_newObject_full in H by auto.
      apply bind_Ret in H. destruct H as [vm' [Hgc H]].
      destruct (decide (fixed_room vm')); [|discriminate].
      apply fixed_bump_inv in H. destruct H as [_ [-> _]].
      rewrite (fixed_gc_out _ _ Hgc), length_app. simpl. lia.
  - split.
    + intros H. destruct (decide (fixed_room vmf)) as [Hr|Hr].
      * rewrite fixed_newObject_room in H by auto.
        exfalso. exact (fixed_bump_no_exit _ _ _ H).
      * split; auto. rewrite fixed_newObject_full in H by auto.
        apply bind_Exit in H. destruct H as [H|[vm' [Hgc H]]].
        -- exfalso. exact (fixed_gc_no_exit _ _ H).
        -- exists vm'. split; auto. destruct (decide (fixed_room vm')); auto.
           exfalso. exact (fixed_bump_no_exit _ _ _ H).
    + intros [Hr [vm' [Hgc Hr']]]. rewrite fixed_newObject_full by auto.
      rewrite Hgc. simpl. rewrite decide_False by auto. reflexivity.
  - intros vm1 p H. destruct (decide (realloc_room vmr)) as [Hr|Hr].
    + rewrite realloc_newObject_room in H by auto.
      apply realloc_bump_inv in H. destruct H as [_ [-> _]]. lia.
    + rewrite realloc_newObject_full in H by auto.
      apply bind_Ret in H. destruct H as [vm' [Hgc H]].
      apply realloc_bump_inv in H. destruct H as [_ [-> _]].
      destruct (gc_fields _ _ _ _ Hgc) as [k [_ [_ [_ ->]]]].
      rewrite length_app. simpl. lia.
  - intros H. destruct (decide (realloc_room vmr)) as [Hr|Hr].
    + rewrite realloc_newObject_room in H by auto.
      exact (realloc_bump_no_exit _ _ _ H).
    + rewrite realloc_newObject_full in H by auto.
      apply bind_Exit in H. destruct H as [H|[vm' [_ H]]].
      * exact (gc_no_exit _ _ _ _ H).
      * exact (realloc_bump_no_exit _ _ _ H).
  - intros vm' H. apply realloc_gc_room in H. exact H.
Qed.

Lemma allocate_collects_when_full_witness :
  ~ realloc_room realloc_four /\
  Realloc.newObject in_place realloc_four OBJ_INT <> Exit OutOfMemory /\
  (forall vm', Realloc.gc in_place realloc_four sizeof_Object = Ret vm' ->
     realloc_room vm') /\
  fixed_room fixed_brim /\
  Fixed.newObject fixed_brim OBJ_INT = Fixed.bump fixed_brim OBJ_INT.
Proof.
  pose proof (allocate_collects_when_full fixed_brim realloc_four in_place OBJ_INT)
    as [F1 [_ [_ [_ [_ [_ [_ [R1 R2]]]]]]]].
  assert (Hroom : fixed_room fixed_brim) by by_decide.
  split; [by_decide|].
  split; [exact R1|]. split; [exact R2|]. split; [exact Hroom|exact (F1 Hroom)].
Defined.

(** C8. When the frontier is exactly one cell short of the end of the heap,
    [newObject] returns the cell at the frontier and prints no collection
    line; the heap is then full, and the next [newObject] is a collection
    followed by the allocation, so that it prints one collection line before
    it returns.  In both programs. *)
Theorem exact_fit_then_collect
  (vmf : Fixed.VM) (vmr : Realloc.VM) (al : Z -> Z -> Z) (t t' : ObjectType)
  (Hf : Fixed.next vmf + sizeof_Object = Fixed.heap vmf + Fixed.HEAP_SIZE)
  (Hfn : Fixed.next vmf <> NULL)
  (Hr : Realloc.next vmr + sizeof_Object = Realloc.end_ vmr)
  (Hrn : Realloc.next vmr <> NULL) :
  (exists vm1,
     Fixed.newObject vmf t = Ret (vm1, Fixed.next vmf) /\
     Fixed.out vm1 = Fixed.out vmf /\
     Fixed.next vm1 = Fixed.heap vm1 + Fixed.HEAP_SIZE /\
     Fixed.newObject vm1 t' =
       (do vm' <- Fixed.gc vm1;
        if decide (fixed_room vm') then Fixed.bump vm' t' else Exit OutOfMemory) /\
     forall vm2 q, Fixed.newObject vm1 t' = Ret (vm2, q) ->
       exists e, Fixed.out vm2 = Fixed.out vm1 ++ [e]) /\
  (exists vm1,
     Realloc.newObject al vmr t = Ret (vm1, Realloc.next vmr) /\
     Realloc.out vm1 = Realloc.out vmr /\
     Realloc.next vm1 = Realloc.end_ vm1 /\
     Realloc.newObject al vm1 t' =
       (do vm' <- Realloc.gc al vm1 sizeof_Object; Realloc.bump vm' t') /\
     forall vm2 q, Realloc.newObject al vm1 t' = Ret (vm2, q) ->
       exists e, Realloc.out vm2 = Realloc.out vm1 ++ [e]).
Proof.
  split.
  - assert (Hroom : fixed_room vmf) by (unfold fixed_room; lia).
    rewrite (fixed_newObject_room _ _ Hroom).
    unfold Fixed.bump. rewrite decide_False by auto.
    eexists. split; [reflexivity|]. simpl. split; auto. split; [lia|].
    match goal with |- Fixed.newObject ?v _ = _ /\ _ => set (vm1 := v) end.
    assert (Hfull : ~ fixed_room vm1)
      by (unfold fixed_room, vm1, sizeof_Object in *; simpl; lia).
    split; [apply fixed_newObject_full; auto|].
    intros vm2 q H. rewrite fixed_newObject_full in H by auto.
    apply bind_Ret in H. destruct H as [vm' [Hgc H]].
    destruct (decide (fixed_room vm')); [|discriminate].
    apply fixed_bump_inv in H. destruct H as [_ [-> _]].
    rewrite (fixed_gc_out _ _ Hgc). eauto.
  - assert (Hroom : realloc_room vmr) by (unfold realloc_room; lia).
    rewrite (realloc_newObject_room _ _ _ Hroom).
    unfold Realloc.bump. rewrite decide_False by auto.
    eexists. split; [reflexivity|]. simpl. split; auto. split; [lia|].
    match goal with |- Realloc.newObject _ ?v _ = _ /\ _ => set (vm1 := v) end.
    assert (Hfull : ~ realloc_room vm1)
      by (unfold realloc_room, vm1, sizeof_Object in *; simpl; lia).
    split; [apply realloc_newObject_full; auto|].
    intros vm2 q H. rewrite realloc_newObject_full in H by auto.
    apply bind_Ret in H. destruct H as [vm' [Hgc H]].
    apply realloc_bump_inv in H. destruct H as [_ [-> _]].
    destruct (gc_fields _ _ _ _ Hgc) as [k [_ [_ [_ ->]]]]. eauto.
Qed.

Lemma exact_fit_then_collect_witness :
  Fixed.next fixed_brim + sizeof_Object = Fixed.heap fixed_brim + Fixed.HEAP_SIZE /\
  Realloc.next realloc_three + sizeof_Object = Realloc.end_ realloc_three /\
  (exists vm1,
     Fixed.newObject fixed_brim OBJ_INT = Ret (vm1, Fixed.next fixed_brim) /\
     Fixed.out vm1 = Fixed.out fixed_brim /\
     Fixed.next vm1 = Fixed.heap vm1 + Fixed.HEAP_SIZE /\
     Fixed.newObject vm1 OBJ_PAIR =
       (do vm' <- Fixed.gc vm1;
        if decide (fixed_room vm') then Fixed.bump vm' OBJ_PAIR else Exit OutOfMemory) /\
     forall vm2 q, Fixed.newObject vm1 OBJ_PAIR = Ret (vm2, q) ->
       exists e, Fixed.out vm2 = Fixed.out vm1 ++ [e]) /\
  (exists vm1,
     Realloc.newObject in_place realloc_three OBJ_INT
       = Ret (vm1, Realloc.next realloc_three) /\
     Realloc.out vm1 = Realloc.out realloc_three /\
     Realloc.next vm1 = Realloc.end_ vm1 /\
     Realloc.newObject in_place vm1 OBJ_PAIR =
       (do vm' <- Realloc.gc in_place vm1 sizeof_Object; Realloc.bump vm' OBJ_PAIR) /\
     forall vm2 q, Realloc.newObject in_place vm1 OBJ_PAIR = Ret (vm2, q) ->
       exists e, Realloc.out vm2 = Realloc.out vm1 ++ [e]).
Proof.
  assert (H1 : Fixed.next fixed_brim + sizeof_Object
               = Fixed.heap fixed_brim + Fixed.HEAP_SIZE) by (vm_compute; reflexivity).
  assert (H2 : Fixed.next fixed_brim <> NULL) by by_decide.
  assert (H3 : Realloc.next realloc_three + sizeof_Object = Realloc.end_ realloc_three)
    by (vm_compute; reflexivity).
  assert (H4 : Realloc.next realloc_three <> NULL) by by_decide.
  split; [exact H1|]. split; [exact H3|].
  exact (exact_fit_then_collect fixed_brim realloc_three in_place OBJ_INT OBJ_PAIR
           H1 H2 H3 H4).
Defined.

(** In the reallocating program the allocation that follows an exact fit does
    run a collection and grows the heap. *)
Example realloc_exact_fit_run :
  (do (vm1, _) <- Realloc.newObject in_place realloc_three OBJ_INT;
   do (vm2, q) <- Realloc.newObject in_place vm1 OBJ_INT;
   Ret (Realloc.out realloc_three, Realloc.out vm1, Realloc.out vm2))
  = Ret ([(0, 32); (32, 80); (64, 128)],
         [(0, 32); (32, 80); (64, 128)],
         [(0, 32); (32, 80); (64, 128); (96, 176)]).
Proof. vm_compute. reflexivity. Qed.

(** C10 (amended).  After a collection of the reallocating program called
    with an [additionalSize] that is not negative, when one and a half times
    the live bytes plus [additionalSize] is at most [2^53], so that the
    [double] arithmetic of [gc] rounds nothing, the capacity [end - heap] is
    the larger of [HEAP_MIN] and one and a half times the live bytes plus
    [additionalSize]; the live byte count is a multiple of the cell size, so
    the product is a whole number; hence the capacity is at least [HEAP_MIN]
    and at least the live bytes plus [additionalSize]. *)
Theorem realloc_gc_capacity (al : Z -> Z -> Z) (vm : Realloc.VM)
  (additionalSize : Z) (vm' : Realloc.VM)
  (Hgc : Realloc.gc al vm additionalSize = Ret vm')
  (Hadd : 0 <= additionalSize)
  (Hexact : spec_headroom (Realloc.next vm' - Realloc.heap vm') + additionalSize
            <= 2 ^ 53) :
  let liveBytes := Realloc.next vm' - Realloc.heap vm' in
  let capacity := Realloc.end_ vm' - Realloc.heap vm' in
  Realloc.HEAP_MIN = 16 /\
  2 * spec_headroom liveBytes = 3 * liveBytes /\
  capacity = Z.max Realloc.HEAP_MIN (spec_headroom liveBytes + additionalSize) /\
  capacity >= Realloc.HEAP_MIN /\
  capacity >= liveBytes + additionalSize.
Proof.
  destruct (gc_fields _ _ _ _ Hgc) as [k [_ [He [Hn _]]]]. simpl in *.
  rewrite Hn in Hexact. rewrite He, Hn.
  replace (Realloc.heap vm' + sizeof_Object * Z.of_nat k - Realloc.heap vm')
    with (sizeof_Object * Z.of_nat k) in * by lia.
  rewrite headroom_exact in *.
  change (sizeof_Object * Z.of_nat k) with (32 * Z.of_nat k).
  rewrite (heapSize_for_exact k additionalSize Hadd Hexact).
  split; [reflexivity|]. unfold Realloc.HEAP_MIN. lia.
Qed.

Lemma realloc_gc_capacity_witness :
  Realloc.gc in_place realloc_two 0 = Ret realloc_two_collected /\
  0 <= 0 /\
  spec_headroom (Realloc.next realloc_two_collected - Realloc.heap realloc_two_collected)
    + 0 <= 2 ^ 53 /\
  Realloc.end_ realloc_two_collected - Realloc.heap realloc_two_collected = 96 /\
  Realloc.next realloc_two_collected - Realloc.heap realloc_two_collected = 64 /\
  Realloc.end_ realloc_two_collected - Realloc.heap realloc_two_collected
  = Z.max Realloc.HEAP_MIN
      (spec_headroom
         (Realloc.next realloc_two_collected - Realloc.heap realloc_two_collected) + 0).
Proof.
  assert (H : Realloc.gc in_place realloc_two 0 = Ret realloc_two_collected)
    by (vm_compute; reflexivity).
  assert (Ha : 0 <= 0) by lia.
  assert (E : Realloc.next realloc_two_collected - Realloc.heap realloc_two_collected = 64)
    by (vm_compute; reflexivity).
  assert (Hb : spec_headroom
                 (Realloc.next realloc_two_collected - Realloc.heap realloc_two_collected)
               + 0 <= 2 ^ 53)
    by (rewrite E; vm_compute; discriminate).
  split; [exact H|]. split; [exact Ha|]. split; [exact Hb|].
  split; [vm_compute; reflexivity|]. split; [exact E|].
  exact (proj1 (proj2 (proj2 (realloc_gc_capacity in_place realloc_two 0
                                realloc_two_collected H Ha Hb)))).
Defined.

(** Popping what was pushed, in both programs. *)
Lemma fixed_pop_push vm v vm1 :
  Fixed.push vm v = Ret vm1 ->
  Fixed.pop vm1 = Ret (Fixed.mkVM (Fixed.stack vm) (Fixed.heap vm) (Fixed.next vm)
                                  (Fixed.mem vm) (Fixed.out vm), v).
Proof.
  unfold Fixed.push. destruct (decide _); [discriminate|]. intros H.
  inversion H; subst. unfold Fixed.pop. simpl.
  rewrite last_snoc, removelast_last. reflexivity.
Qed.

Lemma realloc_pop_push vm v vm1 :
  Realloc.push vm v = Ret vm1 ->
  Realloc.pop vm1 = Ret (Realloc.mkVM (Realloc.stack vm) (Realloc.heap vm)
                           (Realloc.end_ vm) (Realloc.next vm) (Realloc.mem vm)
                           (Realloc.out vm), v).
Proof.
  unfold Realloc.push. destruct (decide _); [|discriminate]. intros H.
  inversion H; subst. unfold Realloc.pop, Realloc.stackSize. simpl.
  rewrite length_app. simpl. rewrite decide_True by lia.
  rewrite last_snoc, removelast_last. reflexivity.
Qed.

(** C9 (the code departs from it).  On an empty stack [pop] of the
    reallocating program exits with [StackUnderflow], but [pop] of the
    fixed-heap program has no guard: it reads the slot below the array,
    which is undefined behaviour, and reports no [StackUnderflow]. *)
Theorem fixed_pop_empty_is_unguarded :
  Fixed.pop (Fixed.newVM 4096) = Undef /\
  Fixed.pop (Fixed.newVM 4096) <> Exit StackUnderflow /\
  Realloc.pop (Realloc.newVM 4096) = Exit StackUnderflow.
Proof. split; [reflexivity|]. split; [discriminate|reflexivity]. Qed.

(** C4. In the reallocating program [gc] sets [next] to the new base plus
    the live bytes before it runs [updateAllObjectPointers] and [compact];
    both loops range over the cells below that frontier only.  So a cell at
    or above it is not visited: the update phase leaves it as it is, and what
    the slide leaves below the frontier does not depend on it, that is, it is
    never copied down. *)
Theorem realloc_phases_stop_at_new_frontier
  (al : Z -> Z -> Z) (vm : Realloc.VM) (additionalSize : Z)
  (vm1 : Realloc.VM) (oldHeap : Z)
  (Hresize : Realloc.gc_resize al vm additionalSize = Ret (vm1, oldHeap)) :
  (exists v liveSize,
     (do v0 <- Realloc.markAll vm; Realloc.calculateNewLocations v0)
       = Ret (v, liveSize) /\
     oldHeap = Realloc.heap vm /\
     Realloc.next vm1 = Realloc.heap vm1 + liveSize) /\
  Realloc.gc al vm additionalSize =
    (do vm2 <- Realloc.updateAllObjectPointers vm1 oldHeap;
     do vm3 <- Realloc.compact vm2 oldHeap;
     Ret (Realloc.mkVM (Realloc.stack vm3) (Realloc.heap vm3) (Realloc.end_ vm3)
            (Realloc.next vm3) (Realloc.mem vm3)
            (Realloc.out vm3 ++ [(Realloc.next vm3 - Realloc.heap vm3,
                                  Realloc.end_ vm3 - Realloc.heap vm3)]))) /\
  (forall p, Realloc.next vm1 <= p ->
     p ∉ cell_addrs (Realloc.heap vm1) (Realloc.next vm1)) /\
  (forall p vm2, Realloc.next vm1 <= p ->
     Realloc.updateAllObjectPointers vm1 oldHeap = Ret vm2 ->
     Realloc.mem vm2 !! p = Realloc.mem vm1 !! p) /\
  (forall vm2 vm2' vm3 vm3',
     Realloc.heap vm2 = Realloc.heap vm2' -> Realloc.end_ vm2 = Realloc.end_ vm2' ->
     Realloc.next vm2 = Realloc.next vm2' ->
     (forall q, q < Realloc.next vm2 -> Realloc.mem vm2 !! q = Realloc.mem vm2' !! q) ->
     Realloc.compact vm2 oldHeap = Ret vm3 ->
     Realloc.compact vm2' oldHeap = Ret vm3' ->
     forall q, q < Realloc.next vm2 -> Realloc.mem vm3 !! q = Realloc.mem vm3' !! q).
Proof.
  split; [|split; [|split; [|split]]].
  - destruct (gc_resize_inv _ _ _ _ _ Hresize) as [m1 [m2 [to [H1 [H2 [Ho Hv]]]]]].
    unfold Realloc.markAll, Realloc.calculateNewLocations. rewrite H1. simpl.
    rewrite H2. simpl. eexists _, _. split; [reflexivity|]. split; auto.
    rewrite Hv. reflexivity.
  - unfold Realloc.gc. rewrite Hresize. reflexivity.
  - intros p Hp Hin. apply cell_addrs_bounds in Hin. lia.
  - intros p vm2 Hp H. unfold Realloc.updateAllObjectPointers in H.
    apply bind_Ret in H. destruct H as [m [Hm H]].
    apply bind_Ret in H. destruct H as [r [_ H]]. inversion H; subst vm2. simpl.
    apply (ReallocProofs.update_steps_frame _ _ _ _ _ Hm).
    intros Hin. apply cell_addrs_bounds in Hin. lia.
  - intros vm2 vm2' vm3 vm3' Eh Ee En Hag H3 H3' q Hq.
    unfold Realloc.compact in H3, H3'.
    apply bind_Ret in H3. destruct H3 as [m [Hm H3]].
    apply bind_Ret in H3'. destruct H3' as [m' [Hm' H3']].
    inversion H3; inversion H3'; subst. simpl.
    rewrite <- Eh, <- Ee, <- En in Hm'.
    assert (Hl : forall a, a ∈ cell_addrs (Realloc.heap vm2) (Realloc.next vm2) ->
                   a < Realloc.next vm2).
    { intros a Ha. apply cell_addrs_bounds in Ha. lia. }
    exact (ReallocProofs.compact_steps_agree _ _ _ (Realloc.next vm2) _ _ _ _ _
             Hl Hag Hm Hm' q Hq).
Qed.

Lemma realloc_phases_stop_at_new_frontier_witness :
  Realloc.gc_resize in_place realloc_lost 0 = Ret realloc_lost_resized /\
  Realloc.next (fst realloc_lost_resized) = 4096 + 96 /\
  (forall p, Realloc.next (fst realloc_lost_resized) <= p ->
     p ∉ cell_addrs (Realloc.heap (fst realloc_lost_resized))
                    (Realloc.next (fst realloc_lost_resized))).
Proof.
  assert (H : Realloc.gc_resize in_place realloc_lost 0
              = Ret (fst realloc_lost_resized, snd realloc_lost_resized))
    by (vm_compute; reflexivity).
  split; [vm_compute; reflexivity|]. split; [vm_compute; reflexivity|].
  exact (proj1 (proj2 (proj2 (realloc_phases_stop_at_new_frontier
                                 in_place realloc_lost 0 _ _ H)))).
Defined.

(** The live integer 4, at offset 96 when the collection begins, is at the
    new frontier: it is not copied, and after the collection the top of the
    stack refers to the cell of the dead integer 3. *)
Example realloc_lost_object :
  (do (vm, p) <- Realloc.pop realloc_lost;
   do o <- load (Realloc.mem vm) p; Ret (p, value o)) = Ret (4096 + 96, 4) /\
  (do vm' <- Realloc.gc in_place realloc_lost 0;
   do (vm, p) <- Realloc.pop vm';
   do o <- load (Realloc.mem vm) p; Ret (p, value o)) = Ret (4096 + 64, 3).
Proof. split; vm_compute; reflexivity. Qed.

(** C1 (the reallocating program departs from it).  After the mutator run
    [realloc_stale], five objects are reachable, the five integers on the
    stack, yet [liveCount] is 6 after the collection: an earlier collection
    left a set [moveTo] in a cell below the frontier, and the planning phase
    counts that cell as live. *)
Theorem realloc_liveCount_counts_stale_cell :
  Realloc.stack realloc_stale = [4096; 4128; 4160; 4192; 4224] /\
  NoDup (Realloc.stack realloc_stale) /\
  (forall p, reachable (Realloc.mem realloc_stale) (Realloc.stack realloc_stale) p
             <-> p ∈ Realloc.stack realloc_stale) /\
  outcome_map Realloc.liveCount (Realloc.gc in_place realloc_stale 0) = Ret 6.
Proof.
  split; [vm_compute; reflexivity|]. split; [by_decide|].
  split; [|vm_compute; reflexivity].
  intros p. apply reachable_ints. by_decide.
Qed.

(** C2 (the reallocating program departs from it).  After the run
    [realloc_dead_pair] every reachable object is an integer.  The collection
    returns, and the cell at offset 384, below the new frontier and now the
    target of the top of the stack, is a pair whose head and tail are
    addresses in the block that [realloc] released.  With an allocator that
    keeps the block in place, after the run [realloc_small_pair] the only
    root is a pair, and after the collection it refers to an integer. *)
Theorem realloc_pair_fields_leave_heap :
  all_ints (Realloc.mem realloc_dead_pair) (Realloc.stack realloc_dead_pair) /\
  (exists vm' q o,
     Realloc.gc moving realloc_dead_pair 0 = Ret vm' /\
     last (Realloc.stack vm') = Some q /\
     in_block (Realloc.heap vm') (Realloc.next vm') q /\
     Realloc.mem vm' !! q = Some o /\ type o = OBJ_PAIR /\
     ~ in_block (Realloc.heap vm') (Realloc.next vm') (head o) /\
     ~ in_block (Realloc.heap vm') (Realloc.next vm') (tail o)) /\
  outcome_map root_tags
    (Ret realloc_small_pair) = Ret [Some OBJ_PAIR] /\
  outcome_map root_tags
    (Realloc.gc in_place realloc_small_pair 0) = Ret [Some OBJ_INT].
Proof.
  split; [by_decide|]. split.
  - eexists _, _, _. split; [vm_compute; reflexivity|].
    split; [vm_compute; reflexivity|]. split; [by_decide|].
    split; [vm_compute; reflexivity|]. split; [reflexivity|].
    split; by_decide.
  - split; vm_compute; reflexivity.
Qed.

(** C3 (the reallocating program departs from it).  After the run
    [realloc_gap] the collection returns with the frontier at offset 192, and
    the cell at offset 160, the target of the top of the stack, still has its
    [moveTo] set. *)
Theorem realloc_gc_leaves_mark :
  exists vm' q o,
    Realloc.gc in_place realloc_gap 0 = Ret vm' /\
    last (Realloc.stack vm') = Some q /\
    in_block (Realloc.heap vm') (Realloc.next vm') q /\
    Realloc.mem vm' !! q = Some o /\ moveTo o <> NULL.
Proof.
  eexists _, _, _. split; [vm_compute; reflexivity|].
  split; [vm_compute; reflexivity|]. split; [by_decide|].
  split; [vm_compute; reflexivity|]. by_decide.
Qed.

(** C6 (the reallocating program departs from it).  After the run
    [realloc_pair_on_top] a first collection leaves six cells; a second one,
    run at once, leaves four, and moves the top of the stack from offset 160
    to offset 96. *)
Theorem realloc_second_gc_changes_heap :
  outcome_map (fun vm => (Realloc.liveCount vm, last (Realloc.stack vm)))
    (Realloc.gc in_place realloc_pair_on_top 0) = Ret (6, Some (4096 + 160)) /\
  outcome_map (fun vm => (Realloc.liveCount vm, last (Realloc.stack vm)))
    (do vm' <- Realloc.gc in_place realloc_pair_on_top 0; Realloc.gc in_place vm' 0)
  = Ret (4, Some (4096 + 96)).
Proof. split; vm_compute; reflexivity. Qed.

(** * Further properties of the two programs *)

(** ** Machines of the fixed-heap program *)

Module FixedMachines.
Import Fixed FixedSpec FixedProofs.

(** The machines a sequence of operations leads to. *)
Lemma mutator_state_run ops : forall vm vm',
  mutator_state vm -> run ops vm = Ret vm' -> mutator_state vm'.
Proof.
  induction ops as [|op ops IH]; intros vm vm' Hms H; simpl in H.
  - inversion H; subst; auto.
  - apply bind_Ret in H. destruct H as [vm1 [H1 H2]].
    apply (IH vm1); auto.
    destruct op as [v| |]; simpl in H1.
    + eapply ms_pushInt; eauto.
    + apply bind_Ret in H1. destruct H1 as [[vm2 p] [H1 H3]].
      inversion H3; subst. eapply ms_pushPair; eauto.
    + apply bind_Ret in H1. destruct H1 as [[vm2 p] [H1 H3]].
      inversion H3; subst. eapply ms_pop; eauto.
Qed.

(** Settles [mutator_state] for the machine a run from [newVM] returns. *)
Ltac by_run ops :=
  apply (mutator_state_run ops (newVM 4096));
  [apply ms_new; lia | vm_compute; reflexivity].

Lemma fixed_gc_liveCount_witness :
  mutator_state fixed_garbage /\
  exists vm' l, gc fixed_garbage = Ret vm' /\ NoDup l /\
    (forall p, p ∈ l <-> reachable (mem fixed_garbage) (stack fixed_garbage) p) /\
    liveCount vm' = Z.of_nat (length l).
Proof.
  assert (H : mutator_state fixed_garbage) by by_run garbage_ops.
  split; [exact H|]. exact (fixed_gc_liveCount fixed_garbage H).
Defined.

Lemma fixed_gc_pairs_witness :
  mutator_state fixed_garbage /\
  exists vm' (f : Z -> Z), gc fixed_garbage = Ret vm' /\
    stack vm' = f <$> stack fixed_garbage /\
    (forall q, in_heap vm' q ->
       exists p o, reachable (mem fixed_garbage) (stack fixed_garbage) p /\ q = f p /\
         mem fixed_garbage !! p = Some o /\ mem vm' !! q = Some (relocate f o)) /\
    (forall q o', in_heap vm' q -> mem vm' !! q = Some o' -> type o' = OBJ_PAIR ->
       in_heap vm' (head o') /\ in_heap vm' (tail o')) /\
    (forall p o, reachable (mem fixed_garbage) (stack fixed_garbage) p ->
       mem fixed_garbage !! p = Some o -> type o = OBJ_PAIR ->
       exists oh ot oh' ot',
         mem fixed_garbage !! head o = Some oh /\
         mem fixed_garbage !! tail o = Some ot /\
         mem vm' !! f (head o) = Some oh' /\ mem vm' !! f (tail o) = Some ot' /\
         type oh' = type oh /\ type ot' = type ot).
Proof.
  assert (H : mutator_state fixed_garbage) by by_run garbage_ops.
  split; [exact H|]. exact (fixed_gc_pairs fixed_garbage H).
Defined.

Lemma fixed_gc_marks_cleared_witness :
  mutator_state fixed_garbage /\
  exists vm', gc fixed_garbage = Ret vm' /\
    forall q, in_heap vm' q -> exists o, mem vm' !! q = Some o /\ moveTo o = NULL.
Proof.
  assert (H : mutator_state fixed_garbage) by by_run garbage_ops.
  split; [exact H|]. exact (fixed_gc_marks_cleared fixed_garbage H).
Defined.

Lemma fixed_gc_twice_witness :
  mutator_state fixed_garbage /\
  gc fixed_garbage = Ret fixed_garbage_collected /\
  gc fixed_garbage_collected =
    Ret (mkVM (stack fixed_garbage_collected) (heap fixed_garbage_collected)
           (next fixed_garbage_collected) (mem fixed_garbage_collected)
           (out fixed_garbage_collected
              ++ [next fixed_garbage_collected - heap fixed_garbage_collected])).
Proof.
  assert (H : mutator_state fixed_garbage) by by_run garbage_ops.
  assert (Hgc : gc fixed_garbage = Ret fixed_garbage_collected)
    by (vm_compute; reflexivity).
  split; [exact H|]. split; [exact Hgc|].
  exact (fixed_gc_twice fixed_garbage fixed_garbage_collected H Hgc).
Defined.

Lemma fixed_update_roots_length m : forall roots roots',
  update_roots m roots = Ret roots' -> length roots' = length roots.
Proof.
  induction roots as [|r roots IH]; intros roots' H; simpl in H.
  - inversion H. reflexivity.
  - apply bind_Ret in H. destruct H as [o [_ H]].
    apply bind_Ret in H. destruct H as [rest [Hrest H]].
    inversion H; subst. simpl. f_equal. auto.
Qed.

Lemma fixed_gc_stack_length vm vm' :
  gc vm = Ret vm' -> length (stack vm') = length (stack vm).
Proof.
  unfold gc. intros H.
  apply bind_Ret in H. destruct H as [vm1 [H1 H]].
  apply bind_Ret in H. destruct H as [[vm2 e] [H2 H]].
  apply bind_Ret in H. destruct H as [vm3 [H3 H]].
  apply bind_Ret in H. destruct H as [vm4 [H4 H]].
  inversion H; subst; clear H. simpl.
  unfold markAll in H1. apply bind_Ret in H1. destruct H1 as [m1 [_ H1]].
  inversion H1; subst; clear H1.
  unfold calculateNewLocations in H2. apply bind_Ret in H2.
  destruct H2 as [[m2 to] [_ H2]]. inversion H2; subst; clear H2.
  unfold updateAllObjectPointers in H3. apply bind_Ret in H3.
  destruct H3 as [roots [Hr H3]]. apply bind_Ret in H3.
  destruct H3 as [m3 [_ H3]]. inversion H3; subst; clear H3.
  unfold compact in H4. apply bind_Ret in H4. destruct H4 as [m4 [_ H4]].
  inversion H4; subst; clear H4. simpl in *.
  eapply fixed_update_roots_length; eauto.
Qed.

Lemma fixed_newObject_stack_length vm t vm1 p :
  newObject vm t = Ret (vm1, p) -> length (stack vm1) = length (stack vm).
Proof.
  unfold newObject, bump. intros H.
  destruct (decide (next vm + sizeof_Object > heap vm + HEAP_SIZE)).
  - apply bind_Ret in H. destruct H as [vm' [Hgc H]].
    destruct (decide (next vm' + sizeof_Object > heap vm' + HEAP_SIZE)); [discriminate|].
    destruct (decide (next vm' = NULL)); [discriminate|].
    inversion H; subst; simpl. apply fixed_gc_stack_length; auto.
  - destruct (decide (next vm = NULL)); [discriminate|].
    inversion H; subst; reflexivity.
Qed.

Lemma fixed_store_stack f p vm vm' : store f p vm = Ret vm' -> stack vm' = stack vm.
Proof.
  unfold store. intros H. apply bind_Ret in H. destruct H as [o [_ H]].
  inversion H; subst; reflexivity.
Qed.

(** The guard of [push] keeps the stack within its array. *)
Lemma stack_bound vm : mutator_state vm -> stackSize vm <= STACK_MAX.
Proof.
  unfold stackSize, STACK_MAX.
  induction 1 as [base Hb|vm v vm' Hms IH H|vm vm' p Hms IH H|vm vm' p Hms IH H
                 |vm a b o vm' Hms IH Ha Hb Ho Ht H|vm a b o vm' Hms IH Ha Hb Ho Ht H
                 |vm vm' Hms IH H].
  - simpl. lia.
  - unfold pushInt in H. apply bind_Ret in H. destruct H as [[vm1 q] [H1 H]].
    apply bind_Ret in H. destruct H as [vm2 [H2 H]].
    apply fixed_newObject_stack_length in H1. apply fixed_store_stack in H2.
    unfold push, stackSize, STACK_MAX in H. destruct (decide _) as [|Hn]; [discriminate|].
    inversion H; subst; simpl. rewrite length_app. simpl. rewrite H2, H1 in *. lia.
  - unfold pushPair in H. apply bind_Ret in H. destruct H as [[vm1 q] [H1 H]].
    apply bind_Ret in H. destruct H as [[vm2 t] [H2 H]].
    apply bind_Ret in H. destruct H as [vm3 [H3 H]].
    apply bind_Ret in H. destruct H as [[vm4 h] [H4 H]].
    apply bind_Ret in H. destruct H as [vm5 [H5 H]].
    apply bind_Ret in H. destruct H as [vm6 [H6 H]].
    inversion H; subst; clear H.
    apply fixed_newObject_stack_length in H1. apply fixed_store_stack in H3, H5.
    apply pop_inv in H2, H4. destruct H2 as [l2 [E2 ->]]. destruct H4 as [l4 [E4 ->]].
    simpl in *. unfold push, stackSize, STACK_MAX in H6.
    destruct (decide _) as [|Hn]; [discriminate|].
    assert (L : length (stack vm1) = S (S (length l4))).
    { rewrite E2, length_app. simpl. rewrite <- H3, E4, length_app. simpl. lia. }
    assert (L5 : length (stack vm5) = length l4) by (rewrite H5; reflexivity).
    inversion H6 as [E6]. simpl. rewrite length_app. simpl. lia.
  - apply pop_inv in H. destruct H as [l [E ->]]. simpl. rewrite E in IH.
    rewrite length_app in IH. simpl in IH. lia.
  - apply fixed_store_stack in H. rewrite H. auto.
  - apply fixed_store_stack in H. rewrite H. auto.
  - apply fixed_gc_stack_length in H. rewrite H. auto.
Qed.

(** X5. Every machine the mutator of the fixed-heap program can build, by
    [newVM], [pushInt], [pushPair], [pop], field assignments and [gc],
    satisfies the state invariant (the heap is a row of whole unmarked
    cells below [next], the fields of pairs and the stack entries point at
    cells of that row) and holds at most [STACK_MAX] stack entries. *)
Theorem fixed_mutator_invariant vm :
  mutator_state vm -> wf vm /\ stackSize vm <= STACK_MAX.
Proof.
  intros H. split; [apply mutator_state_wf | apply stack_bound]; exact H.
Qed.

Lemma fixed_mutator_invariant_witness :
  mutator_state fixed_garbage /\
  wf fixed_garbage /\ stackSize fixed_garbage <= STACK_MAX.
Proof.
  assert (H : mutator_state fixed_garbage) by by_run garbage_ops.
  split; [exact H|]. exact (fixed_mutator_invariant fixed_garbage H).
Defined.

(** X6. A collection of the fixed-heap program slides objects towards the
    start of the heap and keeps their order: the heap stays where it is, the
    frontier does not grow, every reachable object moves to an address of the
    new heap not above its old one, two reachable objects keep their relative
    order, and memory outside the old heap is untouched. *)
Theorem fixed_gc_slides_down vm :
  mutator_state vm ->
  exists vm' (f : Z -> Z), gc vm = Ret vm' /\
    heap vm' = heap vm /\ stack vm' = f <$> stack vm /\
    heap vm <= next vm' <= next vm /\
    (forall p, reachable (mem vm) (stack vm) p ->
       in_heap vm p /\ in_heap vm' (f p) /\ f p <= p) /\
    (forall p p', reachable (mem vm) (stack vm) p ->
       reachable (mem vm) (stack vm) p' -> p < p' -> f p < f p') /\
    (forall q, ~ in_heap vm q -> mem vm' !! q = mem vm !! q).
Proof.
  intros Hms. pose proof (mutator_state_wf vm Hms) as Hwf. gc_spec_at vm Hwf.
  exists vm', f. split; auto. split; auto. split; auto.
  assert (Hin : forall q, in_heap vm q <-> is_cell (heap vm) n q).
  { intros q. unfold in_heap. destruct Hwf as [_ [-> _]]. apply in_block_is_cell. }
  assert (Hin' : forall q, in_heap vm' q <-> is_cell (heap vm) k q).
  { intros q. unfold in_heap. rewrite Hh, Hn. apply in_block_is_cell. }
  assert (Hkn : (k <= n)%nat).
  { destruct k as [|k]; [lia|].
    destruct (Hsurj (cell (heap vm) k)) as [p [Hp Hfp]]; [exists k; split; [lia|auto]|].
    destruct (Hr p Hp) as [[i [Hi ->]] [_ [Hle _]]]. rewrite Hfp in Hle.
    unfold cell, sizeof_Object in Hle. lia. }
  split.
  { rewrite Hn. destruct Hwf as [_ [-> _]]. unfold cell, sizeof_Object. lia. }
  split; [|split].
  - intros p Hp. destruct (Hr p Hp) as [H1 [H2 [H3 _]]].
    split; [apply Hin; auto|]. split; [apply Hin'; auto|auto].
  - exact Hmono.
  - intros q Hq. apply Hrest. intros Hc. apply Hq, Hin, Hc.
Qed.

Lemma fixed_gc_slides_down_witness :
  mutator_state fixed_garbage /\
  exists vm' (f : Z -> Z), gc fixed_garbage = Ret vm' /\
    heap vm' = heap fixed_garbage /\ stack vm' = f <$> stack fixed_garbage /\
    heap fixed_garbage <= next vm' <= next fixed_garbage /\
    (forall p, reachable (mem fixed_garbage) (stack fixed_garbage) p ->
       in_heap fixed_garbage p /\ in_heap vm' (f p) /\ f p <= p) /\
    (forall p p', reachable (mem fixed_garbage) (stack fixed_garbage) p ->
       reachable (mem fixed_garbage) (stack fixed_garbage) p' -> p < p' -> f p < f p') /\
    (forall q, ~ in_heap fixed_garbage q -> mem vm' !! q = mem fixed_garbage !! q).
Proof.
  assert (H : mutator_state fixed_garbage) by by_run garbage_ops.
  split; [exact H|]. exact (fixed_gc_slides_down fixed_garbage H).
Defined.

(** X7. With an empty stack a collection of the fixed-heap program frees
    every object: the frontier is back at the start of the heap. *)
Theorem fixed_gc_empty_stack vm :
  mutator_state vm -> stack vm = [] ->
  exists vm', gc vm = Ret vm' /\ stack vm' = [] /\ next vm' = heap vm' /\
    liveCount vm' = 0.
Proof.
  intros Hms Hs. pose proof (mutator_state_wf vm Hms) as Hwf. gc_spec_at vm Hwf.
  exists vm'. split; auto.
  assert (Hk : k = 0%nat).
  { destruct k as [|k]; [auto|].
    destruct (Hsurj (cell (heap vm) k)) as [p [[r [Hroot _]] _]];
      [exists k; split; [lia|auto]|].
    rewrite Hs in Hroot. inversion Hroot. }
  subst k. rewrite Hst, Hs. split; [reflexivity|].
  split; [rewrite Hn, Hh; unfold cell; simpl; lia|].
  apply (liveCount_cell vm' 0); [reflexivity|]. rewrite Hn, Hh. reflexivity.
Qed.

Lemma fixed_gc_empty_stack_witness :
  mutator_state fixed_emptied /\ stack fixed_emptied = [] /\
  exists vm', gc fixed_emptied = Ret vm' /\ stack vm' = [] /\ next vm' = heap vm' /\
    liveCount vm' = 0.
Proof.
  assert (H : mutator_state fixed_emptied)
    by by_run [PushInt 1; PushInt 2; Pop; Pop].
  assert (Hs : stack fixed_emptied = []) by (vm_compute; reflexivity).
  split; [exact H|]. split; [exact Hs|].
  exact (fixed_gc_empty_stack fixed_emptied H Hs).
Defined.

End FixedMachines.

(** ** Allocation in the fixed-heap program *)

Module FixedAlloc.
Import Fixed FixedSpec FixedProofs.

(** The two ways [newObject] goes on a well-formed machine. *)
Lemma newObject_cases vm t : wf vm ->
  (exists vm0 n,
     (vm0 = vm \/ ~ fixed_room vm /\ gc vm = Ret vm0) /\
     wf_n n vm0 /\ cell (heap vm0) (S n) <= heap vm0 + HEAP_SIZE /\
     newObject vm t =
       Ret (mkVM (stack vm0) (heap vm0) (cell (heap vm0) (S n))
              (<[cell (heap vm0) n :=
                   set_moveTo NULL (set_type t (raw (mem vm0) (cell (heap vm0) n)))]>
                 (mem vm0)) (out vm0),
            cell (heap vm0) n)) \/
  (newObject vm t = Exit OutOfMemory /\ ~ fixed_room vm /\
   forall q, in_block (heap vm) (heap vm + HEAP_SIZE) q ->
     reachable (mem vm) (stack vm) q).
Proof.
  intros Hwf. pose proof Hwf as Hwf0. apply wf_wf_n in Hwf0. destruct Hwf0 as [n Hn].
  assert (Hbump : forall vm0 k, wf_n k vm0 ->
            cell (heap vm0) (S k) <= heap vm0 + HEAP_SIZE ->
            bump vm0 t =
              Ret (mkVM (stack vm0) (heap vm0) (cell (heap vm0) (S k))
                     (<[cell (heap vm0) k :=
                          set_moveTo NULL (set_type t (raw (mem vm0) (cell (heap vm0) k)))]>
                        (mem vm0)) (out vm0),
                   cell (heap vm0) k)).
  { intros vm0 k [Hb [Hnx _]] _. unfold bump. rewrite Hnx.
    destruct (decide (cell (heap vm0) k = NULL)) as [E|_].
    - exfalso. revert E. apply cell_not_null. exact Hb.
    - rewrite cell_S. reflexivity. }
  destruct (decide (fixed_room vm)) as [Hroom|Hroom].
  - left. exists vm, n. split; [left; reflexivity|]. split; [exact Hn|].
    assert (Hc : cell (heap vm) (S n) <= heap vm + HEAP_SIZE).
    { rewrite cell_S. destruct Hn as [_ [<- _]]. exact Hroom. }
    split; [exact Hc|]. rewrite fixed_newObject_room by exact Hroom.
    apply Hbump; auto.
  - rewrite fixed_newObject_full by exact Hroom.
    destruct (gc_spec n vm Hn)
      as [vm' [f [k [Hgc [Hh [Hnx [Hst [Hout [Hr [Hsurj [Hmono [Hlist [Hid [Hrest Hwf']]]]]]]]]]]]]].
    rewrite Hgc, bind_Ret_l.
    destruct (decide (fixed_room vm')) as [Hroom'|Hroom'].
    + left. exists vm', k. split; [right; auto|]. split; [exact Hwf'|].
      assert (Hc : cell (heap vm') (S k) <= heap vm' + HEAP_SIZE).
      { rewrite cell_S. destruct Hwf' as [_ [<- _]]. exact Hroom'. }
      split; [exact Hc|]. apply Hbump; auto.
    + right. split; [reflexivity|]. split; [exact Hroom|].
      assert (Hk : cell (heap vm) k = heap vm + HEAP_SIZE).
      { destruct Hwf' as [_ [Hn' [Hle _]]]. unfold fixed_room in Hroom'.
        rewrite Hn', Hh in Hroom'. rewrite Hh in Hle.
        unfold cell, sizeof_Object, HEAP_SIZE in *. lia. }
      assert (Hnk : n = k).
      { assert (k <= n)%nat.
        { destruct k as [|k0]; [lia|].
          destruct (Hsurj (cell (heap vm) k0)) as [p [Hp Hfp]];
            [exists k0; split; [lia|auto]|].
          destruct (Hr p Hp) as [[i [Hi ->]] [_ [Hle _]]]. rewrite Hfp in Hle.
          unfold cell, sizeof_Object in Hle. lia. }
        destruct Hn as [_ [_ [Hle _]]].
        unfold cell, sizeof_Object, HEAP_SIZE in *. lia. }
      destruct Hlist as [l [Hnd [Hl Hlen]]].
      assert (Hperm : l ≡ₚ cells (heap vm) n).
      { apply submseteq_length_Permutation.
        - apply NoDup_submseteq; [exact Hnd|]. intros x Hx. apply Hl in Hx.
          destruct (Hr x Hx) as [Hc _]. apply elem_of_cells. exact Hc.
        - unfold cells. rewrite length_fmap, length_seq. lia. }
      intros q Hq. rewrite <- Hk, <- Hnk in Hq.
      apply in_block_is_cell in Hq. apply Hl. rewrite Hperm.
      apply elem_of_cells. exact Hq.
Qed.

(** X8. On every machine the mutator of the fixed-heap program can build,
    [newObject] either returns a fresh cell just below the new frontier, with
    the requested tag and a cleared mark, and leaves the depth of the stack as
    it was, or it exits with [OutOfMemory]; it does the latter only when the
    heap has no room and every cell of the block is reachable from the
    stack. *)
Theorem fixed_newObject_outcome vm t :
  mutator_state vm ->
  (exists vm' p o, newObject vm t = Ret (vm', p) /\
     next vm' = p + sizeof_Object /\ in_heap vm' p /\
     mem vm' !! p = Some o /\ type o = t /\ moveTo o = NULL /\
     length (stack vm') = length (stack vm)) \/
  (newObject vm t = Exit OutOfMemory /\ ~ fixed_room vm /\
   forall q, in_block (heap vm) (heap vm + HEAP_SIZE) q ->
     reachable (mem vm) (stack vm) q).
Proof.
  intros Hms. pose proof (mutator_state_wf vm Hms) as Hwf.
  destruct (newObject_cases vm t Hwf) as [[vm0 [n [Hvm0 [Hn [Hc Hnew]]]]]|H];
    [left|right; exact H].
  eexists _, _, _. split; [exact Hnew|]. simpl.
  split; [apply cell_S|].
  split. { unfold in_heap. simpl. apply in_block_cell. lia. }
  split; [apply lookup_insert_eq|]. split; [reflexivity|]. split; [reflexivity|].
  destruct Hvm0 as [->|[_ Hgc]]; [reflexivity|].
  apply FixedMachines.fixed_gc_stack_length. exact Hgc.
Qed.

Lemma fixed_newObject_outcome_witness :
  mutator_state fixed_garbage /\
  ((exists vm' p o, newObject fixed_garbage OBJ_PAIR = Ret (vm', p) /\
      next vm' = p + sizeof_Object /\ in_heap vm' p /\
      mem vm' !! p = Some o /\ type o = OBJ_PAIR /\ moveTo o = NULL /\
      length (stack vm') = length (stack fixed_garbage)) \/
   (newObject fixed_garbage OBJ_PAIR = Exit OutOfMemory /\ ~ fixed_room fixed_garbage /\
    forall q, in_block (heap fixed_garbage) (heap fixed_garbage + HEAP_SIZE) q ->
      reachable (mem fixed_garbage) (stack fixed_garbage) q)).
Proof.
  assert (H : mutator_state fixed_garbage) by FixedMachines.by_run garbage_ops.
  split; [exact H|]. exact (fixed_newObject_outcome fixed_garbage OBJ_PAIR H).
Defined.

End FixedAlloc.

(** ** The stack operations of both programs *)

Module ReallocMachines.
Import Realloc ReallocProofs.

Lemma realloc_update_roots_length base old m : forall roots roots',
  update_roots base old m roots = Ret roots' -> length roots' = length roots.
Proof.
  induction roots as [|r roots IH]; intros roots' H; simpl in H.
  - inversion H. reflexivity.
  - apply bind_Ret in H. destruct H as [o [_ H]].
    apply bind_Ret in H. destruct H as [rest [Hrest H]].
    inversion H; subst. simpl. f_equal. auto.
Qed.

Lemma realloc_gc_stack_length al vm add vm' :
  gc al vm add = Ret vm' -> length (stack vm') = length (stack vm).
Proof.
  unfold gc. intros H.
  apply bind_Ret in H. destruct H as [[vm3 old] [H3 H]].
  apply bind_Ret in H. destruct H as [vm4 [H4 H]].
  apply bind_Ret in H. destruct H as [vm5 [H5 H]].
  inversion H; subst; clear H. simpl.
  apply gc_resize_inv in H3. destruct H3 as [m1 [m2 [to [_ [_ [_ ->]]]]]].
  apply compact_fields in H5. destruct H5 as [_ [_ [_ [_ ->]]]].
  unfold updateAllObjectPointers in H4. simpl in H4.
  apply bind_Ret in H4. destruct H4 as [m [_ H4]].
  apply bind_Ret in H4. destruct H4 as [roots [Hr H4]].
  inversion H4; subst; clear H4. simpl.
  eapply realloc_update_roots_length; eauto.
Qed.

Lemma realloc_bump_cell vm t vm1 p :
  bump vm t = Ret (vm1, p) ->
  p <> NULL /\ stack vm1 = stack vm /\
  mem vm1 !! p = Some (set_moveTo NULL (set_type t (raw (mem vm) p))).
Proof.
  unfold bump. destruct (decide (next vm = NULL)); [discriminate|].
  intros H. inversion H; subst; simpl. split; [auto|]. split; [auto|].
  apply lookup_insert_eq.
Qed.

Lemma realloc_newObject_cell al vm t vm1 p :
  newObject al vm t = Ret (vm1, p) ->
  p <> NULL /\ length (stack vm1) = length (stack vm) /\
  exists o, mem vm1 !! p = Some o /\ type o = t /\ moveTo o = NULL.
Proof.
  unfold newObject. intros H.
  destruct (decide (next vm + sizeof_Object > end_ vm)).
  - apply bind_Ret in H. destruct H as [vm' [Hgc H]].
    apply realloc_bump_cell in H. destruct H as [Hp [Hs Hm]].
    split; [exact Hp|]. split.
    + rewrite Hs. eapply realloc_gc_stack_length; eauto.
    + eexists. split; [exact Hm|]. split; reflexivity.
  - apply realloc_bump_cell in H. destruct H as [Hp [Hs Hm]].
    split; [exact Hp|]. split; [rewrite Hs; reflexivity|].
    eexists. split; [exact Hm|]. split; reflexivity.
Qed.

Lemma realloc_pop_inv vm vm' v :
  pop vm = Ret (vm', v) ->
  exists l, stack vm = l ++ [v] /\
    vm' = mkVM l (heap vm) (end_ vm) (next vm) (mem vm) (out vm).
Proof.
  unfold pop. destruct (decide (stackSize vm > 0)); [|discriminate].
  destruct (last (stack vm)) as [x|] eqn:E; [|discriminate].
  intros H. inversion H; subst. exists (removelast (stack vm)). split; [|reflexivity].
  destruct (stack vm) as [|a l] using rev_ind; [discriminate|].
  rewrite last_snoc in E. inversion E; subst. rewrite removelast_last. reflexivity.
Qed.

Lemma realloc_pop_snoc l v h e n m o :
  pop (mkVM (l ++ [v]) h e n m o) = Ret (mkVM l h e n m o, v).
Proof.
  unfold pop, stackSize. simpl. rewrite length_app. simpl.
  destruct (decide _); [|lia]. rewrite last_snoc, removelast_last. reflexivity.
Qed.

Lemma realloc_store_inv f p vm vm' :
  store f p vm = Ret vm' ->
  exists o, p <> NULL /\ mem vm !! p = Some o /\
    vm' = mkVM (stack vm) (heap vm) (end_ vm) (next vm) (<[p := f o]> (mem vm)) (out vm).
Proof.
  unfold store. intros H. apply bind_Ret in H. destruct H as [o [Ho H]].
  apply load_Ret in Ho. destruct Ho. inversion H; subst. eauto.
Qed.

End ReallocMachines.

Module FixedStack.
Import Fixed FixedSpec FixedProofs.

Lemma fixed_bump_cell vm t vm1 p :
  bump vm t = Ret (vm1, p) ->
  p <> NULL /\ stack vm1 = stack vm /\
  mem vm1 !! p = Some (set_moveTo NULL (set_type t (raw (mem vm) p))).
Proof.
  unfold bump. destruct (decide (next vm = NULL)); [discriminate|].
  intros H. inversion H; subst; simpl. split; [auto|]. split; [auto|].
  apply lookup_insert_eq.
Qed.

Lemma fixed_newObject_cell vm t vm1 p :
  newObject vm t = Ret (vm1, p) ->
  p <> NULL /\ length (stack vm1) = length (stack vm) /\
  exists o, mem vm1 !! p = Some o /\ type o = t /\ moveTo o = NULL.
Proof.
  intros H. split; [|split; [eapply FixedMachines.fixed_newObject_stack_length; eauto|]].
  - unfold newObject in H. destruct (decide _).
    + apply bind_Ret in H. destruct H as [vm' [_ H]]. destruct (decide _); [discriminate|].
      apply fixed_bump_cell in H. tauto.
    + apply fixed_bump_cell in H. tauto.
  - unfold newObject in H. destruct (decide _).
    + apply bind_Ret in H. destruct H as [vm' [_ H]]. destruct (decide _); [discriminate|].
      apply fixed_bump_cell in H. destruct H as [_ [_ H]]. eexists. split; [exact H|]. split; reflexivity.
    + apply fixed_bump_cell in H. destruct H as [_ [_ H]]. eexists. split; [exact H|]. split; reflexivity.
Qed.

Lemma fixed_pop_snoc l v h n m o :
  pop (mkVM (l ++ [v]) h n m o) = Ret (mkVM l h n m o, v).
Proof. unfold pop. simpl. rewrite last_snoc, removelast_last. reflexivity. Qed.

Lemma fixed_store_inv f p vm vm' :
  store f p vm = Ret vm' ->
  exists o, p <> NULL /\ mem vm !! p = Some o /\
    vm' = mkVM (stack vm) (heap vm) (next vm) (<[p := f o]> (mem vm)) (out vm).
Proof.
  unfold store. intros H. apply bind_Ret in H. destruct H as [o [Ho H]].
  apply load_Ret in Ho. destruct Ho. inversion H; subst. eauto.
Qed.

End FixedStack.

(** X12. In both programs the value given to [pushInt] comes back: after a
    [pushInt] that returns, [pop] returns a pointer to an integer object with
    that value and a cleared mark, which [objectPrint] prints as the value in
    decimal, and the stack is as deep as before the [pushInt]. *)
Theorem pushInt_then_pop
  (vmf vmf1 : Fixed.VM) (al : Z -> Z -> Z) (vmr vmr1 : Realloc.VM) (v : Z)
  (Hf : Fixed.pushInt vmf v = Ret vmf1)
  (Hr : Realloc.pushInt al vmr v = Ret vmr1) :
  (exists vm2 p o,
     Fixed.pop vmf1 = Ret (vm2, p) /\
     length (Fixed.stack vm2) = length (Fixed.stack vmf) /\
     Fixed.mem vm2 = Fixed.mem vmf1 /\
     Fixed.mem vm2 !! p = Some o /\
     type o = OBJ_INT /\ value o = v /\ moveTo o = NULL /\
     forall fuel, objectPrint (S fuel) (Fixed.mem vm2) p = Ret (pretty v)) /\
  (exists vm2 p o,
     Realloc.pop vmr1 = Ret (vm2, p) /\
     length (Realloc.stack vm2) = length (Realloc.stack vmr) /\
     Realloc.mem vm2 = Realloc.mem vmr1 /\
     Realloc.mem vm2 !! p = Some o /\
     type o = OBJ_INT /\ value o = v /\ moveTo o = NULL /\
     forall fuel, objectPrint (S fuel) (Realloc.mem vm2) p = Ret (pretty v)).
Proof.
  split.
  - unfold Fixed.pushInt in Hf. apply bind_Ret in Hf. destruct Hf as [[vm1 p] [H1 H]].
    apply bind_Ret in H. destruct H as [vm2 [H2 H3]].
    apply FixedStack.fixed_newObject_cell in H1. destruct H1 as [Hp [Hlen [o [Ho [Ht Hm]]]]].
    apply FixedStack.fixed_store_inv in H2. destruct H2 as [o' [_ [Ho' ->]]].
    rewrite Ho in Ho'. inversion Ho'; subst o'; clear Ho'.
    unfold Fixed.push in H3. destruct (decide _); [discriminate|].
    inversion H3; subst vmf1; clear H3. simpl.
    eexists _, p, (set_value v o). rewrite FixedStack.fixed_pop_snoc. simpl.
    split; [reflexivity|]. simpl. split; [exact Hlen|]. split; [reflexivity|].
    rewrite lookup_insert_eq. split; [reflexivity|]. split; [exact Ht|].
    split; [reflexivity|]. split; [exact Hm|]. intros fuel.
    rewrite (load_Some _ p (set_value v o)); [|exact Hp|apply lookup_insert_eq].
    rewrite bind_Ret_l. simpl. rewrite Ht. reflexivity.
  - unfold Realloc.pushInt in Hr. apply bind_Ret in Hr. destruct Hr as [[vm1 p] [H1 H]].
    apply bind_Ret in H. destruct H as [vm2 [H2 H3]].
    apply ReallocMachines.realloc_newObject_cell in H1. destruct H1 as [Hp [Hlen [o [Ho [Ht Hm]]]]].
    apply ReallocMachines.realloc_store_inv in H2. destruct H2 as [o' [_ [Ho' ->]]].
    rewrite Ho in Ho'. inversion Ho'; subst o'; clear Ho'.
    unfold Realloc.push in H3. destruct (decide _); [|discriminate].
    inversion H3; subst vmr1; clear H3. simpl.
    eexists _, p, (set_value v o). rewrite ReallocMachines.realloc_pop_snoc. simpl.
    split; [reflexivity|]. simpl. split; [exact Hlen|]. split; [reflexivity|].
    rewrite lookup_insert_eq. split; [reflexivity|]. split; [exact Ht|].
    split; [reflexivity|]. split; [exact Hm|]. intros fuel.
    rewrite (load_Some _ p (set_value v o)); [|exact Hp|apply lookup_insert_eq].
    rewrite bind_Ret_l. simpl. rewrite Ht. reflexivity.
Qed.

Lemma pushInt_then_pop_witness :
  Fixed.pushInt (Fixed.newVM 4096) 7 = Ret (fixed_state (Fixed.pushInt (Fixed.newVM 4096) 7)) /\
  Realloc.pushInt in_place (Realloc.newVM 4096) 7
    = Ret (realloc_state (Realloc.pushInt in_place (Realloc.newVM 4096) 7)) /\
  (exists vm2 p o,
     Fixed.pop (fixed_state (Fixed.pushInt (Fixed.newVM 4096) 7)) = Ret (vm2, p) /\
     length (Fixed.stack vm2) = length (Fixed.stack (Fixed.newVM 4096)) /\
     Fixed.mem vm2 = Fixed.mem (fixed_state (Fixed.pushInt (Fixed.newVM 4096) 7)) /\
     Fixed.mem vm2 !! p = Some o /\
     type o = OBJ_INT /\ value o = 7 /\ moveTo o = NULL /\
     forall fuel, objectPrint (S fuel) (Fixed.mem vm2) p = Ret (pretty 7)).
Proof.
  assert (Hf : Fixed.pushInt (Fixed.newVM 4096) 7
               = Ret (fixed_state (Fixed.pushInt (Fixed.newVM 4096) 7)))
    by (vm_compute; reflexivity).
  assert (Hr : Realloc.pushInt in_place (Realloc.newVM 4096) 7
               = Ret (realloc_state (Realloc.pushInt in_place (Realloc.newVM 4096) 7)))
    by (vm_compute; reflexivity).
  split; [exact Hf|]. split; [exact Hr|].
  exact (proj1 (pushInt_then_pop _ _ in_place _ _ 7 Hf Hr)).
Defined.

(** X13. In both programs [pushPair] never returns when the stack holds fewer
    than two entries: once the pair is allocated, the fixed-heap program reads
    below the stack array (undefined behaviour) and the reallocating program
    exits with a stack underflow. *)
Theorem pushPair_needs_two_entries
  (vmf : Fixed.VM) (al : Z -> Z -> Z) (vmr : Realloc.VM)
  (Hf : (length (Fixed.stack vmf) < 2)%nat)
  (Hr : (length (Realloc.stack vmr) < 2)%nat) :
  (forall vm1 p, Fixed.newObject vmf OBJ_PAIR = Ret (vm1, p) ->
     Fixed.pushPair vmf = Undef) /\
  (forall vm' p, Fixed.pushPair vmf <> Ret (vm', p)) /\
  (forall vm1 p, Realloc.newObject al vmr OBJ_PAIR = Ret (vm1, p) ->
     Realloc.pushPair al vmr = Exit StackUnderflow) /\
  (forall vm' p, Realloc.pushPair al vmr <> Ret (vm', p)).
Proof.
  assert (F : forall vm1 p, Fixed.newObject vmf OBJ_PAIR = Ret (vm1, p) ->
            Fixed.pushPair vmf = Undef).
  { intros vm1 p H. unfold Fixed.pushPair. rewrite H, bind_Ret_l.
    apply FixedStack.fixed_newObject_cell in H. destruct H as [Hp [Hlen [o [Ho _]]]].
    destruct vm1 as [stk h n m out]. simpl in *.
    destruct stk as [|a [|b stk]]; [reflexivity| |simpl in Hlen; lia].
    change [a] with ([] ++ [a]). rewrite FixedStack.fixed_pop_snoc, bind_Ret_l.
    unfold Fixed.store. simpl. rewrite (load_Some m p o), !bind_Ret_l by auto.
    reflexivity. }
  assert (R : forall vm1 p, Realloc.newObject al vmr OBJ_PAIR = Ret (vm1, p) ->
            Realloc.pushPair al vmr = Exit StackUnderflow).
  { intros vm1 p H. unfold Realloc.pushPair. rewrite H, bind_Ret_l.
    apply ReallocMachines.realloc_newObject_cell in H. destruct H as [Hp [Hlen [o [Ho _]]]].
    destruct vm1 as [stk h e n m out]. simpl in *.
    destruct stk as [|a [|b stk]]; [reflexivity| |simpl in Hlen; lia].
    change [a] with ([] ++ [a]). rewrite ReallocMachines.realloc_pop_snoc, bind_Ret_l.
    unfold Realloc.store. simpl. rewrite (load_Some m p o), !bind_Ret_l by auto.
    reflexivity. }
  split; [exact F|]. split; [|split; [exact R|]].
  - intros vm' p H. pose proof H as H0. unfold Fixed.pushPair in H0.
    apply bind_Ret in H0. destruct H0 as [[vm1 q] [H1 _]].
    rewrite (F _ _ H1) in H. discriminate.
  - intros vm' p H. pose proof H as H0. unfold Realloc.pushPair in H0.
    apply bind_Ret in H0. destruct H0 as [[vm1 q] [H1 _]].
    rewrite (R _ _ H1) in H. discriminate.
Qed.

Lemma pushPair_needs_two_entries_witness :
  (length (Fixed.stack (Fixed.newVM 4096)) < 2)%nat /\
  (length (Realloc.stack (Realloc.newVM 4096)) < 2)%nat /\
  Fixed.pushPair (Fixed.newVM 4096) = Undef /\
  Realloc.pushPair in_place (Realloc.newVM 4096) = Exit StackUnderflow.
Proof.
  assert (Hf : (length (Fixed.stack (Fixed.newVM 4096)) < 2)%nat) by (simpl; lia).
  assert (Hr : (length (Realloc.stack (Realloc.newVM 4096)) < 2)%nat) by (simpl; lia).
  split; [exact Hf|]. split; [exact Hr|].
  destruct (pushPair_needs_two_entries (Fixed.newVM 4096) in_place (Realloc.newVM 4096)
              Hf Hr) as [F [_ [R _]]].
  split.
  - apply (F (fixed_state (outcome_map fst (Fixed.newObject (Fixed.newVM 4096) OBJ_PAIR)))
             4096).
    vm_compute. reflexivity.
  - apply (R (realloc_state
                (outcome_map fst (Realloc.newObject in_place (Realloc.newVM 4096) OBJ_PAIR)))
             4096).
    vm_compute. reflexivity.
Defined.

(** ** Memory safety of the fixed-heap program *)

Module FixedSafe.
Import Fixed FixedSpec FixedProofs.

(** X9. The fixed-heap program has no undefined behaviour while the stack
    discipline is respected.  On every machine the mutator can build: [gc]
    returns; [pushInt] returns or exits with [OutOfMemory] or
    [StackOverflow]; [pushPair] on a stack of at least two entries returns or
    exits with [OutOfMemory]; [pop] on a stack that is not empty returns. *)
Theorem fixed_memory_safe vm :
  mutator_state vm ->
  (exists vm', gc vm = Ret vm') /\
  (forall v, pushInt vm v = Exit OutOfMemory \/ pushInt vm v = Exit StackOverflow \/
             exists vm', pushInt vm v = Ret vm') /\
  ((2 <= length (stack vm))%nat ->
     pushPair vm = Exit OutOfMemory \/ exists vm' p, pushPair vm = Ret (vm', p)) /\
  ((1 <= length (stack vm))%nat -> exists vm' p, pop vm = Ret (vm', p)).
Proof.
  intros Hms. pose proof (mutator_state_wf vm Hms) as Hwf.
  pose proof (FixedMachines.stack_bound vm Hms) as Hbound.
  unfold stackSize, STACK_MAX in Hbound.
  split; [apply gc_returns; exact Hwf|]. split; [|split].
  - intros v.
    destruct (FixedAlloc.newObject_cases vm OBJ_INT Hwf)
      as [[vm0 [n [Hvm0 [Hn [Hc Hnew]]]]]|[Hoom _]].
    + right. unfold pushInt. rewrite Hnew, bind_Ret_l.
      assert (Hb : 0 < heap vm0) by (destruct Hn as [Hb _]; exact Hb).
      unfold store. simpl.
      rewrite (load_Some _ _ _ (cell_not_null _ n Hb) (lookup_insert_eq _ _ _)).
      rewrite !bind_Ret_l. unfold push. simpl.
      destruct (decide _); [left; reflexivity|right; eexists; reflexivity].
    + left. unfold pushInt. rewrite Hoom. reflexivity.
  - intros Hlen.
    destruct (FixedAlloc.newObject_cases vm OBJ_PAIR Hwf)
      as [[vm0 [n [Hvm0 [Hn [Hc Hnew]]]]]|[Hoom _]].
    + right. unfold pushPair. rewrite Hnew, bind_Ret_l.
      assert (Hb : 0 < heap vm0) by (destruct Hn as [Hb _]; exact Hb).
      assert (Hlen0 : length (stack vm0) = length (stack vm)).
      { destruct Hvm0 as [->|[_ Hgc]]; [reflexivity|].
        apply FixedMachines.fixed_gc_stack_length. exact Hgc. }
      destruct (stack vm0) as [|t l] eqn:Hst0 using rev_ind;
        [simpl in Hlen0; lia|]. clear IHl.
      destruct l as [|h l] using rev_ind;
        [rewrite length_app in Hlen0; simpl in Hlen0; lia|]. clear IHl.
      rewrite !length_app in Hlen0. simpl in Hlen0.
      rewrite FixedStack.fixed_pop_snoc, bind_Ret_l. unfold store at 1. simpl.
      rewrite (load_Some _ _ _ (cell_not_null _ n Hb) (lookup_insert_eq _ _ _)).
      rewrite !bind_Ret_l, FixedStack.fixed_pop_snoc, bind_Ret_l. unfold store. simpl.
      rewrite (load_Some _ _ _ (cell_not_null _ n Hb) (lookup_insert_eq _ _ _)).
      rewrite !bind_Ret_l. unfold push, stackSize, STACK_MAX. simpl.
      rewrite decide_False by lia. rewrite bind_Ret_l. eexists _, _. reflexivity.
    + left. unfold pushPair. rewrite Hoom. reflexivity.
  - intros Hlen. destruct (stack vm) as [|a l] eqn:Hst using rev_ind;
      [simpl in Hlen; lia|].
    unfold pop. rewrite Hst, last_snoc. eexists _, _. reflexivity.
Qed.

Lemma fixed_memory_safe_witness :
  mutator_state fixed_garbage /\
  (exists vm', gc fixed_garbage = Ret vm') /\
  (forall v, pushInt fixed_garbage v = Exit OutOfMemory \/
             pushInt fixed_garbage v = Exit StackOverflow \/
             exists vm', pushInt fixed_garbage v = Ret vm') /\
  ((2 <= length (stack fixed_garbage))%nat ->
     pushPair fixed_garbage = Exit OutOfMemory \/
     exists vm' p, pushPair fixed_garbage = Ret (vm', p)) /\
  ((1 <= length (stack fixed_garbage))%nat -> exists vm' p, pop fixed_garbage = Ret (vm', p)).
Proof.
  assert (H : mutator_state fixed_garbage) by FixedMachines.by_run garbage_ops.
  split; [exact H|]. exact (fixed_memory_safe fixed_garbage H).
Defined.

End FixedSafe.

(** ** Printing *)

(** Printing reads only the objects it can reach. *)
Lemma objectPrint_frame D (m m' : memory) :
  closed_on D m -> (forall q, D q -> m' !! q = m !! q) ->
  forall fuel p, D p -> objectPrint fuel m' p = objectPrint fuel m p.
Proof.
  intros Hc Heq. induction fuel as [|fuel IH]; intros p Hp; [reflexivity|].
  simpl. destruct (Hc p Hp) as [Hnn [o [Ho Hch]]].
  rewrite (load_Some m p o), (load_Some m' p o); auto; [|rewrite Heq; auto].
  rewrite !bind_Ret_l. destruct (type o) eqn:Ht; [reflexivity|].
  destruct (Hch eq_refl) as [Hh Htl]. rewrite (IH _ Hh), (IH _ Htl). reflexivity.
Qed.

(** More fuel does not change the text of a call that returns. *)
Lemma objectPrint_fuel m : forall fuel fuel' p s,
  objectPrint fuel m p = Ret s -> (fuel <= fuel')%nat ->
  objectPrint fuel' m p = Ret s.
Proof.
  induction fuel as [|fuel IH]; intros fuel' p s H Hle; [discriminate|].
  destruct fuel' as [|fuel']; [lia|]. simpl in *.
  apply bind_Ret in H. destruct H as [o [Ho H]]. rewrite Ho, bind_Ret_l.
  destruct (type o); [exact H|].
  apply bind_Ret in H. destruct H as [h [Hh H]].
  apply bind_Ret in H. destruct H as [t [Ht H]].
  rewrite (IH fuel' _ _ Hh), bind_Ret_l by lia.
  rewrite (IH fuel' _ _ Ht), bind_Ret_l by lia. exact H.
Qed.

Lemma objectPrint_relocated (R : Z -> Prop) (m m' : memory) (f : Z -> Z) :
  (forall p, R p -> p <> NULL /\ f p <> NULL /\
     exists o, m !! p = Some o /\ m' !! f p = Some (relocate f o) /\
       (type o = OBJ_PAIR -> R (head o) /\ R (tail o))) ->
  forall fuel p, R p -> objectPrint fuel m' (f p) = objectPrint fuel m p.
Proof.
  intros HR. induction fuel as [|fuel IH]; intros p Hp; [reflexivity|].
  simpl. destruct (HR p Hp) as [Hnn [Hfn [o [Ho [Ho' Hch]]]]].
  rewrite (load_Some m p o), (load_Some m' (f p) (relocate f o)); auto.
  rewrite !bind_Ret_l, type_relocate. destruct (type o) eqn:Ht.
  - rewrite value_relocate. reflexivity.
  - destruct (Hch eq_refl) as [Hh Htl].
    rewrite head_relocate, tail_relocate by exact Ht.
    rewrite (IH _ Hh), (IH _ Htl). reflexivity.
Qed.

Module FixedPrint.
Import Fixed FixedSpec FixedProofs.

(** A collection, as the printer sees it. *)
Lemma gc_print n vm : wf_n n vm ->
  exists vm' (f : Z -> Z) k, gc vm = Ret vm' /\ wf_n k vm' /\
    stack vm' = f <$> stack vm /\
    forall p, reachable (mem vm) (stack vm) p ->
      is_cell (heap vm') k (f p) /\
      forall fuel, objectPrint fuel (mem vm') (f p) = objectPrint fuel (mem vm) p.
Proof.
  intros Hwf.
  destruct (gc_spec n vm Hwf)
    as [vm' [f [k [Hgc [Hh [Hn [Hst [Hout [Hr [Hsurj [Hmono [Hlist [Hid [Hrest Hwf']]]]]]]]]]]]]].
  exists vm', f, k. split; auto. split; auto. split; auto. intros p Hp. split.
  { rewrite Hh. destruct (Hr p Hp) as [_ [H _]]. exact H. }
  intros fuel.
  apply (objectPrint_relocated (reachable (mem vm) (stack vm))); [|exact Hp].
  clear p Hp. intros p Hp.
  destruct (Hr p Hp) as [[i [_ ->]] [[j [_ Hj]] [_ [o [Ho Ho']]]]].
  destruct Hwf as [Hb _].
  split; [apply cell_not_null; exact Hb|].
  split; [rewrite Hj; apply cell_not_null; exact Hb|].
  exists o. split; [exact Ho|]. split; [exact Ho'|]. intros Ht. split.
  - eapply reachable_head; eauto.
  - eapply reachable_tail; eauto.
Qed.

(** X10. A collection of the fixed-heap program does not change what
    [objectPrint] prints: for every object reachable from the stack, printing
    its copy in the collected heap yields the text printing the object
    yielded before, for every recursion budget.  Entry [i] of the new stack is
    the copy of entry [i] of the old one. *)
Theorem fixed_gc_keeps_print vm :
  mutator_state vm ->
  exists vm' (f : Z -> Z), gc vm = Ret vm' /\ stack vm' = f <$> stack vm /\
    forall fuel p, reachable (mem vm) (stack vm) p ->
      objectPrint fuel (mem vm') (f p) = objectPrint fuel (mem vm) p.
Proof.
  intros Hms. pose proof (mutator_state_wf vm Hms) as Hwf.
  apply wf_wf_n in Hwf. destruct Hwf as [n Hwf].
  destruct (gc_print n vm Hwf) as [vm' [f [k [Hgc [_ [Hst Hp]]]]]].
  exists vm', f. split; [exact Hgc|]. split; [exact Hst|].
  intros fuel p Hr. destruct (Hp p Hr) as [_ H]. apply H.
Qed.

Lemma fixed_gc_keeps_print_witness :
  mutator_state fixed_garbage /\
  exists vm' (f : Z -> Z), gc fixed_garbage = Ret vm' /\
    stack vm' = f <$> stack fixed_garbage /\
    forall fuel p, reachable (mem fixed_garbage) (stack fixed_garbage) p ->
      objectPrint fuel (mem vm') (f p) = objectPrint fuel (mem fixed_garbage) p.
Proof.
  assert (H : mutator_state fixed_garbage) by FixedMachines.by_run garbage_ops.
  split; [exact H|]. exact (fixed_gc_keeps_print fixed_garbage H).
Defined.

(** An allocation, as the printer sees it. *)
Lemma newObject_print vm t : wf vm ->
  forall vm1 object, newObject vm t = Ret (vm1, object) ->
  exists vm0 n (f : Z -> Z),
    wf_n n vm0 /\ stack vm0 = f <$> stack vm /\
    (forall p, reachable (mem vm) (stack vm) p ->
       is_cell (heap vm0) n (f p) /\
       forall fuel, objectPrint fuel (mem vm0) (f p) = objectPrint fuel (mem vm) p) /\
    object = cell (heap vm0) n /\
    vm1 = mkVM (stack vm0) (heap vm0) (cell (heap vm0) (S n))
            (<[object := set_moveTo NULL (set_type t (raw (mem vm0) object))]>
               (mem vm0)) (out vm0).
Proof.
  intros Hwf vm1 object H.
  destruct (FixedAlloc.newObject_cases vm t Hwf)
    as [[vm0 [n [Hvm0 [Hn [Hc Hnew]]]]]|[Hoom _]]; [|rewrite Hoom in H; discriminate].
  rewrite Hnew in H. inversion H; subst vm1 object; clear H.
  destruct Hvm0 as [->|[_ Hgc]].
  - exists vm, n, id. split; [exact Hn|]. split; [rewrite list_fmap_id; reflexivity|].
    split; [|split; reflexivity].
    intros p Hp. split; [|reflexivity]. unfold id.
    destruct Hn as [_ [_ [_ [Hcl [_ Hst]]]]].
    eapply reachable_closed; eauto.
  - apply wf_wf_n in Hwf. destruct Hwf as [n0 Hn0].
    destruct (gc_print n0 vm Hn0) as [vm' [f [k [Hgc' [Hwf' [Hst Hp]]]]]].
    rewrite Hgc in Hgc'. inversion Hgc'; subst vm'; clear Hgc'.
    assert (k = n).
    { destruct Hn as [_ [Hx _]]. destruct Hwf' as [_ [Hy _]]. rewrite Hx in Hy.
      apply cell_inj in Hy. auto. }
    subst k. exists vm0, n, f. auto.
Qed.

(** X11. In the fixed-heap program [pushPair] builds the pair of the two top
    entries: when the entry below the top prints as [sh] and the top prints as
    [st], the object [pushPair] returns is the new top of the stack and prints
    as [(sh, st)], also when the allocation ran a collection; the entries
    below keep their positions and print as before. *)
Theorem fixed_pushPair_prints vm l h t vm' p fuel sh st :
  mutator_state vm -> stack vm = l ++ [h; t] ->
  pushPair vm = Ret (vm', p) ->
  objectPrint fuel (mem vm) h = Ret sh ->
  objectPrint fuel (mem vm) t = Ret st ->
  exists l', stack vm' = l' ++ [p] /\
    objectPrint (S fuel) (mem vm') p = Ret ("(" +:+ sh +:+ ", " +:+ st +:+ ")") /\
    length l' = length l /\
    forall i r, l !! i = Some r ->
      exists r', l' !! i = Some r' /\
        forall fuel', objectPrint fuel' (mem vm') r' = objectPrint fuel' (mem vm) r.
Proof.
  intros Hms Hstack Hpair Hh Ht. pose proof (mutator_state_wf vm Hms) as Hwf.
  unfold pushPair in Hpair. apply bind_Ret in Hpair.
  destruct Hpair as [[vm1 object] [Hnew Hpair]].
  destruct (newObject_print vm OBJ_PAIR Hwf vm1 object Hnew)
    as [vm0 [n [f [Hn [Hst0 [Hp [Hobj Hvm1]]]]]]].
  assert (Hb : 0 < heap vm0) by (destruct Hn as [Hb _]; exact Hb).
  assert (Hnn : object <> NULL) by (rewrite Hobj; apply cell_not_null; exact Hb).
  assert (Hfresh : ~ is_cell (heap vm0) n object) by (rewrite Hobj; apply is_cell_fresh).
  assert (Hcl : closed_on (is_cell (heap vm0) n) (mem vm0))
    by (destruct Hn as [_ [_ [_ [Hcl _]]]]; exact Hcl).
  rewrite Hstack, fmap_app in Hst0. simpl in Hst0.
  change [f h; f t] with ([f h] ++ [f t]) in Hst0. rewrite app_assoc in Hst0.
  rewrite Hvm1, Hst0 in Hpair. clear Hvm1.
  rewrite FixedStack.fixed_pop_snoc, bind_Ret_l in Hpair.
  unfold store at 1 in Hpair. simpl in Hpair.
  rewrite (load_Some _ object _ Hnn (lookup_insert_eq _ _ _)), !bind_Ret_l in Hpair.
  rewrite FixedStack.fixed_pop_snoc, bind_Ret_l in Hpair.
  unfold store in Hpair. simpl in Hpair.
  rewrite (load_Some _ object _ Hnn (lookup_insert_eq _ _ _)), !bind_Ret_l in Hpair.
  unfold push in Hpair. destruct (decide _); [discriminate|]. simpl in Hpair.
  inversion Hpair; subst vm' p; clear Hpair. simpl.
  exists (f <$> l). split; [reflexivity|].
  set (o0 := set_moveTo NULL (set_type OBJ_PAIR (raw (mem vm0) object))).
  set (mF := <[object := set_head (f h) (set_tail (f t) o0)]>
               (<[object := set_tail (f t) o0]> (<[object := o0]> (mem vm0)))).
  assert (Hframe : forall q, is_cell (heap vm0) n q -> mF !! q = mem vm0 !! q).
  { intros q Hq. assert (q <> object) by (intros ->; auto).
    unfold mF. rewrite !lookup_insert_ne by auto. reflexivity. }
  assert (Hsame : forall q, reachable (mem vm) (stack vm) q ->
            forall fuel', objectPrint fuel' mF (f q) = objectPrint fuel' (mem vm) q).
  { intros q Hq fuel'. destruct (Hp q Hq) as [Hc Hpr].
    rewrite <- Hpr. apply (objectPrint_frame (is_cell (heap vm0) n)); auto. }
  split; [|split; [apply length_fmap|]].
  - simpl. rewrite (load_Some mF object (set_head (f h) (set_tail (f t) o0)));
      [|exact Hnn|apply lookup_insert_eq].
    rewrite bind_Ret_l. simpl.
    rewrite (Hsame h), Hh, bind_Ret_l.
    + rewrite (Hsame t), Ht, bind_Ret_l; [reflexivity|].
      apply reachable_root. rewrite Hstack, !elem_of_app, !elem_of_cons. tauto.
    + apply reachable_root. rewrite Hstack, !elem_of_app, !elem_of_cons. tauto.
  - intros i r Hi. exists (f r). split; [rewrite list_lookup_fmap, Hi; reflexivity|].
    apply Hsame. apply reachable_root. rewrite Hstack.
    apply elem_of_app. left. eapply list_elem_of_lookup_2; eauto.
Qed.

Lemma fixed_pushPair_prints_witness :
  mutator_state fixed_pair_and_int /\
  stack fixed_pair_and_int = [] ++ [4160; 4192] /\
  pushPair fixed_pair_and_int = Ret (fixed_pair_of_pair, 4224) /\
  objectPrint 2 (mem fixed_pair_and_int) 4160 = Ret "(1, 2)" /\
  objectPrint 2 (mem fixed_pair_and_int) 4192 = Ret "3" /\
  exists l', stack fixed_pair_of_pair = l' ++ [4224] /\
    objectPrint 3 (mem fixed_pair_of_pair) 4224
      = Ret ("(" +:+ "(1, 2)" +:+ ", " +:+ "3" +:+ ")") /\
    length l' = length (@nil Z) /\
    forall i r, (@nil Z) !! i = Some r ->
      exists r', l' !! i = Some r' /\
        forall fuel', objectPrint fuel' (mem fixed_pair_of_pair) r'
                      = objectPrint fuel' (mem fixed_pair_and_int) r.
Proof.
  assert (H : mutator_state fixed_pair_and_int)
    by FixedMachines.by_run [PushInt 1; PushInt 2; PushPair; PushInt 3].
  assert (Hs : stack fixed_pair_and_int = [] ++ [4160; 4192])
    by (vm_compute; reflexivity).
  assert (Hp : pushPair fixed_pair_and_int = Ret (fixed_pair_of_pair, 4224))
    by (vm_compute; reflexivity).
  assert (Hh : objectPrint 2 (mem fixed_pair_and_int) 4160 = Ret "(1, 2)")
    by (vm_compute; reflexivity).
  assert (Ht : objectPrint 2 (mem fixed_pair_and_int) 4192 = Ret "3")
    by (vm_compute; reflexivity).
  split; [exact H|]. split; [exact Hs|]. split; [exact Hp|].
  split; [exact Hh|]. split; [exact Ht|].
  exact (fixed_pushPair_prints fixed_pair_and_int [] 4160 4192 fixed_pair_of_pair 4224
           2 "(1, 2)" "3" H Hs Hp Hh Ht).
Defined.

End FixedPrint.

(** ** Forwarding addresses and the full stack, in both programs *)

(** X15. [calculateNewLocations], in both programs, hands out the cells of
    the heap from its start, in address order, to the marked objects: over a
    heap of [n] cells it returns the address [rank] cells above the start,
    where [rank] counts the marked cells; a marked cell is given the address
    of the cell whose index is the number of marked cells below it, which is
    not above its own address; two marked cells are given distinct addresses
    in the order of their own; unmarked cells and memory outside the heap are
    left alone. *)
Theorem plan_forwarding_addresses (base : Z) (n : nat) (m : memory) :
  0 < base ->
  Forall (fun p => is_Some (m !! p)) (cells base n) ->
  exists m2,
    plan base (cell base n) m = Ret (m2, cell base (rank m base n)) /\
    (forall i, (i < n)%nat -> ~ marked m (cell base i) ->
       m2 !! cell base i = m !! cell base i) /\
    (forall i o, (i < n)%nat -> m !! cell base i = Some o -> moveTo o <> NULL ->
       m2 !! cell base i = Some (set_moveTo (cell base (rank m base i)) o) /\
       base <= cell base (rank m base i) <= cell base i) /\
    (forall i j, (i < j)%nat -> (j < n)%nat ->
       marked m (cell base i) -> marked m (cell base j) ->
       fwd m2 (cell base i) + sizeof_Object <= fwd m2 (cell base j)) /\
    (forall q, ~ is_cell base n q -> m2 !! q = m !! q).
Proof.
  intros Hb Hall.
  assert (Hsome : forall i, (i < n)%nat -> is_Some (m !! cell base i)).
  { intros i Hi. rewrite Forall_forall in Hall. apply Hall.
    apply elem_of_cells. exists i. auto. }
  destruct (plan_cells base m Hb n Hsome) as [m2 [H2 [A2 B2]]].
  exists m2. unfold plan. rewrite cell_addrs_cells.
  split; [exact H2|]. split; [|split; [|split; [|exact B2]]].
  - intros i Hi Hm. destruct (Hsome i Hi) as [o Ho].
    rewrite (A2 i o Hi Ho), Ho. rewrite decide_True; [reflexivity|].
    destruct (decide (moveTo o = NULL)); [auto|]. exfalso. apply Hm. exists o. auto.
  - intros i o Hi Ho Hm. rewrite (A2 i o Hi Ho), decide_False by exact Hm.
    split; [reflexivity|]. pose proof (rank_le m base i).
    unfold cell, sizeof_Object. lia.
  - intros i j Hij Hj [oi [Hoi Hmi]] [oj [Hoj Hmj]].
    unfold fwd. rewrite (A2 i oi ltac:(lia) Hoi), (A2 j oj Hj Hoj).
    rewrite !decide_False by auto. simpl.
    assert (rank m base i < rank m base j)%nat.
    { apply rank_lt; [exact Hij|]. exists oi. auto. }
    unfold cell, sizeof_Object. lia.
Qed.

Lemma plan_forwarding_addresses_witness :
  0 < 4096 /\
  Forall (fun p => is_Some (cyclic_marked !! p)) (cells 4096 3) /\
  exists m2,
    plan 4096 (cell 4096 3) cyclic_marked
      = Ret (m2, cell 4096 (rank cyclic_marked 4096 3)) /\
    (forall i, (i < 3)%nat -> ~ marked cyclic_marked (cell 4096 i) ->
       m2 !! cell 4096 i = cyclic_marked !! cell 4096 i) /\
    (forall i o, (i < 3)%nat -> cyclic_marked !! cell 4096 i = Some o ->
       moveTo o <> NULL ->
       m2 !! cell 4096 i = Some (set_moveTo (cell 4096 (rank cyclic_marked 4096 i)) o) /\
       4096 <= cell 4096 (rank cyclic_marked 4096 i) <= cell 4096 i) /\
    (forall i j, (i < j)%nat -> (j < 3)%nat ->
       marked cyclic_marked (cell 4096 i) -> marked cyclic_marked (cell 4096 j) ->
       fwd m2 (cell 4096 i) + sizeof_Object <= fwd m2 (cell 4096 j)) /\
    (forall q, ~ is_cell 4096 3 q -> m2 !! q = cyclic_marked !! q).
Proof.
  assert (H1 : 0 < 4096) by lia.
  assert (H2 : Forall (fun p => is_Some (cyclic_marked !! p)) (cells 4096 3))
    by by_decide.
  split; [exact H1|]. split; [exact H2|].
  exact (plan_forwarding_addresses 4096 3 cyclic_marked H1 H2).
Defined.

(** X14. In both programs [pushInt] never returns when the stack already
    holds [STACK_MAX] entries: the object is allocated first, and the [push]
    that follows exits with a stack overflow. *)
Theorem pushInt_on_full_stack
  (vmf : Fixed.VM) (al : Z -> Z -> Z) (vmr : Realloc.VM) (v : Z)
  (Hf : Fixed.stackSize vmf = STACK_MAX)
  (Hr : Realloc.stackSize vmr = STACK_MAX) :
  (forall vm1 p, Fixed.newObject vmf OBJ_INT = Ret (vm1, p) ->
     Fixed.pushInt vmf v = Exit StackOverflow) /\
  (forall vm', Fixed.pushInt vmf v <> Ret vm') /\
  (forall vm1 p, Realloc.newObject al vmr OBJ_INT = Ret (vm1, p) ->
     Realloc.pushInt al vmr v = Exit StackOverflow) /\
  (forall vm', Realloc.pushInt al vmr v <> Ret vm').
Proof.
  assert (F : forall vm1 p, Fixed.newObject vmf OBJ_INT = Ret (vm1, p) ->
            Fixed.pushInt vmf v = Exit StackOverflow).
  { intros vm1 p H. unfold Fixed.pushInt. rewrite H, bind_Ret_l.
    apply FixedStack.fixed_newObject_cell in H. destruct H as [Hp [Hlen [o [Ho _]]]].
    unfold Fixed.store. rewrite (load_Some _ p o Hp Ho), !bind_Ret_l.
    unfold Fixed.push, Fixed.stackSize in *. simpl.
    rewrite decide_True by (rewrite Hlen; exact Hf). reflexivity. }
  assert (R : forall vm1 p, Realloc.newObject al vmr OBJ_INT = Ret (vm1, p) ->
            Realloc.pushInt al vmr v = Exit StackOverflow).
  { intros vm1 p H. unfold Realloc.pushInt. rewrite H, bind_Ret_l.
    apply ReallocMachines.realloc_newObject_cell in H. destruct H as [Hp [Hlen [o [Ho _]]]].
    unfold Realloc.store. rewrite (load_Some _ p o Hp Ho), !bind_Ret_l.
    unfold Realloc.push, Realloc.stackSize in *. simpl.
    rewrite decide_False by (rewrite Hlen; lia). reflexivity. }
  split; [exact F|]. split; [|split; [exact R|]].
  - intros vm' H. pose proof H as H0. unfold Fixed.pushInt in H0.
    apply bind_Ret in H0. destruct H0 as [[vm1 q] [H1 _]].
    rewrite (F _ _ H1) in H. discriminate.
  - intros vm' H. pose proof H as H0. unfold Realloc.pushInt in H0.
    apply bind_Ret in H0. destruct H0 as [[vm1 q] [H1 _]].
    rewrite (R _ _ H1) in H. discriminate.
Qed.

Lemma pushInt_on_full_stack_witness :
  Fixed.stackSize fixed_full_stack = STACK_MAX /\
  Realloc.stackSize realloc_full_stack = STACK_MAX /\
  (forall vm1 p, Fixed.newObject fixed_full_stack OBJ_INT = Ret (vm1, p) ->
     Fixed.pushInt fixed_full_stack 7 = Exit StackOverflow) /\
  (forall vm', Fixed.pushInt fixed_full_stack 7 <> Ret vm') /\
  (forall vm1 p, Realloc.newObject in_place realloc_full_stack OBJ_INT = Ret (vm1, p) ->
     Realloc.pushInt in_place realloc_full_stack 7 = Exit StackOverflow) /\
  (forall vm', Realloc.pushInt in_place realloc_full_stack 7 <> Ret vm').
Proof.
  assert (Hf : Fixed.stackSize fixed_full_stack = STACK_MAX)
    by (vm_compute; reflexivity).
  assert (Hr : Realloc.stackSize realloc_full_stack = STACK_MAX)
    by (vm_compute; reflexivity).
  split; [exact Hf|]. split; [exact Hr|].
  exact (pushInt_on_full_stack fixed_full_stack in_place realloc_full_stack 7 Hf Hr).
Defined.

(** ** The performance test in the fixed-heap program *)

Module FixedChurn.
Import Fixed FixedSpec FixedProofs FixedChurnSpec.

Lemma in_heap_is_cell n vm q : wf_n n vm -> (in_heap vm q <-> is_cell (heap vm) n q).
Proof. intros [_ [Hn _]]. unfold in_heap. rewrite Hn. apply in_block_is_cell. Qed.

Lemma gc_ints n vm vm' :
  wf_n n vm -> heap_of_ints vm -> gc vm = Ret vm' -> heap_of_ints vm'.
Proof.
  intros Hwf Hints Hgc0.
  destruct (gc_spec n vm Hwf)
    as [vm1 [f [k [Hgc [Hh [Hn [Hst [Hout [Hr [Hsurj [Hmono [Hlist [Hid [Hrest Hwf']]]]]]]]]]]]]].
  rewrite Hgc0 in Hgc. inversion Hgc; subst vm1; clear Hgc.
  intros q Hq. apply (in_heap_is_cell k vm' q Hwf') in Hq. rewrite Hh in Hq.
  destruct (Hsurj q Hq) as [p [Hp <-]].
  destruct (Hr p Hp) as [Hc [_ [_ [o [Ho Ho']]]]].
  exists (relocate f o). split; [exact Ho'|]. rewrite type_relocate.
  apply (in_heap_is_cell n vm p Hwf) in Hc. destruct (Hints p Hc) as [o' [Ho2 Ht]].
  congruence.
Qed.

Lemma ints_all_ints vm : wf vm -> heap_of_ints vm -> all_ints (mem vm) (stack vm).
Proof.
  intros [_ [_ [_ [_ [_ Hs]]]]] Hints. unfold all_ints.
  eapply Forall_impl; [exact Hs|]. intros r Hr. simpl.
  destruct (Hints r Hr) as [o [-> Ht]]. exact Ht.
Qed.

Lemma pushInt_ints vm v :
  mutator_state vm -> heap_of_ints vm -> stackSize vm < STACK_MAX ->
  exists vm', pushInt vm v = Ret vm' /\ heap_of_ints vm' /\
    length (stack vm') = S (length (stack vm)).
Proof.
  intros Hms Hints Hlt. pose proof (mutator_state_wf vm Hms) as Hwf.
  destruct (FixedAlloc.newObject_cases vm OBJ_INT Hwf)
    as [[vm0 [n [Hvm0 [Hn [Hc Hnew]]]]]|[_ [_ Hfull]]].
  - assert (Hlen : length (stack vm0) = length (stack vm)).
    { destruct Hvm0 as [->|[_ Hgc]]; [reflexivity|].
      apply FixedMachines.fixed_gc_stack_length. exact Hgc. }
    assert (Hints0 : heap_of_ints vm0).
    { destruct Hvm0 as [->|[_ Hgc]]; [exact Hints|].
      pose proof Hwf as Hwf1. apply wf_wf_n in Hwf1. destruct Hwf1 as [n1 Hn1].
      eapply gc_ints; eauto. }
    assert (Hb : 0 < heap vm0) by (destruct Hn as [Hb _]; exact Hb).
    unfold pushInt. rewrite Hnew, bind_Ret_l. unfold store. simpl.
    rewrite (load_Some _ _ _ (cell_not_null _ n Hb) (lookup_insert_eq _ _ _)).
    rewrite !bind_Ret_l. unfold push, stackSize. simpl.
    rewrite decide_False by (unfold stackSize in Hlt; rewrite Hlen; lia).
    eexists. split; [reflexivity|]. split.
    + intros q Hq. unfold in_heap in Hq. simpl in Hq.
      apply in_block_is_cell in Hq. apply is_cell_S in Hq. simpl.
      destruct Hq as [Hq| ->].
      * assert (q <> cell (heap vm0) n) by (intros ->; revert Hq; apply is_cell_fresh).
        rewrite !lookup_insert_ne by auto.
        apply Hints0. apply (in_heap_is_cell n vm0 q Hn). exact Hq.
      * rewrite lookup_insert_eq. eexists. split; reflexivity.
    + simpl. rewrite length_app. simpl. lia.
  - exfalso. pose proof (ints_all_ints vm Hwf Hints) as Hall.
    pose proof (FixedMachines.stack_bound vm Hms) as Hbound.
    assert (Hsub : cells (heap vm) 257 ⊆+ stack vm).
    { apply NoDup_submseteq; [apply NoDup_cells|]. intros x Hx.
      apply elem_of_cells in Hx. destruct Hx as [i [Hi ->]].
      apply (reachable_ints (mem vm) (stack vm) _ Hall). apply Hfull.
      apply in_block_cell. unfold cell, sizeof_Object, HEAP_SIZE. lia. }
    apply submseteq_length in Hsub. unfold cells in Hsub.
    rewrite length_fmap, length_seq in Hsub.
    unfold stackSize, STACK_MAX in *. lia.
Qed.

Lemma churn_pushes i : forall j s vm,
  churning s vm -> (s + j <= 256)%nat ->
  exists vm', run (replicate j (PushInt i)) vm = Ret vm' /\ churning (s + j) vm'.
Proof.
  induction j as [|j IH]; intros s vm Hch Hle.
  - exists vm. split; [reflexivity|]. rewrite Nat.add_0_r. exact Hch.
  - destruct Hch as [Hms [Hints Hlen]].
    destruct (pushInt_ints vm i Hms Hints) as [vm1 [Hpush [Hints1 Hlen1]]].
    { unfold stackSize, STACK_MAX. lia. }
    destruct (IH (S s) vm1) as [vm' [Hrun Hch']]; [|lia|].
    { split; [eapply ms_pushInt; eauto|]. split; [exact Hints1|lia]. }
    exists vm'. split.
    + change (run (replicate (S j) (PushInt i)) vm)
        with (do vm1 <- pushInt vm i; run (replicate j (PushInt i)) vm1).
      rewrite Hpush, bind_Ret_l. exact Hrun.
    + replace (s + S j)%nat with (S s + j)%nat by lia. exact Hch'.
Qed.

Lemma churn_pops : forall j s vm,
  churning s vm -> (j <= s)%nat ->
  exists vm', run (replicate j Pop) vm = Ret vm' /\ churning (s - j) vm'.
Proof.
  induction j as [|j IH]; intros s vm Hch Hle.
  - exists vm. split; [reflexivity|]. rewrite Nat.sub_0_r. exact Hch.
  - destruct Hch as [Hms [Hints Hlen]].
    destruct (stack vm) as [|a l] eqn:Hst using rev_ind; [simpl in Hlen; lia|].
    clear IHl. rewrite length_app in Hlen. simpl in Hlen.
    assert (Hpop : pop vm = Ret (mkVM l (heap vm) (next vm) (mem vm) (out vm), a)).
    { unfold pop. rewrite Hst, last_snoc, removelast_last. reflexivity. }
    destruct (IH (s - 1)%nat (mkVM l (heap vm) (next vm) (mem vm) (out vm)))
      as [vm' [Hrun Hch']]; [|lia|].
    { split; [eapply ms_pop; eauto|]. split; [|simpl; lia].
      intros q Hq. apply Hints. exact Hq. }
    exists vm'. split.
    + change (run (replicate (S j) Pop) vm)
        with (do vm1 <- (do (vm1, _) <- pop vm; Ret vm1); run (replicate j Pop) vm1).
      rewrite Hpop, !bind_Ret_l. exact Hrun.
    + replace (s - S j)%nat with (s - 1 - j)%nat by lia. exact Hch'.
Qed.

Lemma churn_round i vm :
  churning 0 vm -> exists vm', run (perfTest_round i) vm = Ret vm' /\ churning 0 vm'.
Proof.
  intros Hch. unfold perfTest_round, run. rewrite foldM_app.
  destruct (churn_pushes i 20 0 vm Hch) as [vm1 [H1 Hch1]]; [lia|].
  unfold run in H1. rewrite H1, bind_Ret_l.
  destruct (churn_pops 20 (0 + 20) vm1 Hch1) as [vm2 [H2 Hch2]]; [lia|].
  exists vm2. split; [exact H2|exact Hch2].
Qed.

Lemma churn_rounds : forall rounds a vm,
  churning 0 vm ->
  exists vm', run (flat_map (fun i => perfTest_round (Z.of_nat i)) (seq a rounds)) vm
              = Ret vm' /\ churning 0 vm'.
Proof.
  induction rounds as [|rounds IH]; intros a vm Hch.
  - exists vm. split; [reflexivity|exact Hch].
  - cbn [seq flat_map]. unfold run. rewrite foldM_app.
    destruct (churn_round (Z.of_nat a) vm Hch) as [vm1 [H1 Hch1]].
    unfold run in H1. rewrite H1, bind_Ret_l. apply IH. exact Hch1.
Qed.

(** X16. [perfTest] of the fixed-heap program runs to its end, for any number
    of rounds: no [pushInt] of it overflows the stack or runs out of memory,
    no [pop] finds the stack empty, nothing is undefined, and the stack is
    empty again after the last round. *)
Theorem fixed_perfTest_returns (rounds : nat) (base : Z) :
  0 < base ->
  exists vm, run (perfTest_ops rounds) (newVM base) = Ret vm /\
    stack vm = [] /\ wf vm.
Proof.
  intros Hb.
  destruct (churn_rounds rounds 0 (newVM base)) as [vm [Hrun [Hms [_ Hlen]]]].
  { split; [apply ms_new; exact Hb|]. split; [|reflexivity].
    intros q [H1 [H2 _]]. simpl in *. unfold sizeof_Object in *. lia. }
  exists vm. split; [exact Hrun|]. split; [destruct (stack vm); [reflexivity|discriminate]|].
  apply mutator_state_wf; exact Hms.
Qed.

Lemma fixed_perfTest_returns_witness :
  0 < 4096 /\
  exists vm, run (perfTest_ops 3) (newVM 4096) = Ret vm /\ stack vm = [] /\ wf vm.
Proof.
  assert (H : 0 < 4096) by lia.
  split; [exact H|]. exact (fixed_perfTest_returns 3 4096 H).
Defined.

End FixedChurn.

(** ** The reallocating collector when no dead cell lies below a live one *)

Lemma rank_prefix (m : memory) base n k :
  (k <= n)%nat ->
  (forall i, (i < n)%nat -> (marked m (cell base i) <-> (i < k)%nat)) ->
  forall j, (j <= n)%nat -> rank m base j = Nat.min j k.
Proof.
  intros Hk H. induction j as [|j IH]; intros Hj; [reflexivity|].
  cbn [rank]. rewrite IH by lia. destruct (decide (marked m (cell base j))) as [Hm|Hm].
  - apply H in Hm; lia.
  - assert (~ (j < k)%nat) by (intros Hlt; apply Hm, H; lia). lia.
Qed.

Lemma elem_of_cell_addrs lo hi (i : nat) :
  lo + sizeof_Object * Z.of_nat i < hi ->
  lo + sizeof_Object * Z.of_nat i ∈ cell_addrs lo hi.
Proof.
  intros H. unfold cell_addrs.
  apply (list_elem_of_fmap_2 (fun i => lo + sizeof_Object * Z.of_nat i)).
  apply elem_of_seq. split; [lia|]. simpl.
  assert (Z.of_nat i + 1 <= (hi - lo + sizeof_Object - 1) `div` sizeof_Object).
  { apply Z.div_le_lower_bound; unfold sizeof_Object in *; lia. }
  lia.
Qed.

Lemma realloc_mem_offsets (m : memory) old new : forall l off,
  off ∈ l ->
  (list_to_map (omap (fun off => (fun o => (new + off, o)) <$> m !! (old + off)) l)
     : memory) !! (new + off) = m !! (old + off).
Proof.
  induction l as [|a l IH]; intros off Hin; [inversion Hin|].
  simpl. destruct (decide (off = a)) as [->|Hne].
  - destruct (m !! (old + a)) as [o|] eqn:E; simpl.
    + apply lookup_insert_eq.
    + destruct (decide (a ∈ l)) as [Ha|Ha]; [rewrite IH by exact Ha; exact E|].
      apply not_elem_of_list_to_map_1. intros Hk.
      apply list_elem_of_fmap in Hk. destruct Hk as [[q o] [Hq Hk]]. simpl in Hq.
      apply list_elem_of_omap in Hk. destruct Hk as [b [Hb Hk]].
      destruct (m !! (old + b)) as [ob|] eqn:Eb; simpl in Hk; [|discriminate].
      inversion Hk; subst. assert (a = b) by lia. subst b. auto.
  - assert (Hin' : off ∈ l) by (apply elem_of_cons in Hin; tauto).
    destruct (m !! (old + a)) as [o|]; simpl; [|apply IH; exact Hin'].
    rewrite lookup_insert_ne by lia. apply IH; exact Hin'.
Qed.

(** A cell that fits in the new size is found again after [realloc]. *)
Lemma realloc_mem_cell (m : memory) old new size (i : nat) :
  new <> NULL -> sizeof_Object * Z.of_nat i + sizeof_Object <= size ->
  Realloc.realloc_mem m old new size !! cell new i = m !! cell old i.
Proof.
  intros Hn Hi. unfold Realloc.realloc_mem. rewrite decide_False by exact Hn.
  unfold cell. apply realloc_mem_offsets.
  apply (elem_of_cell_addrs 0 (size - sizeof_Object + 1) i). lia.
Qed.

Module ReallocGood.
Import Realloc ReallocSpec ReallocProofs.

Section Staged.

Variables (base : Z) (k : nat) (m0 M : memory).
Hypothesis Hbase : 0 < base.

(** The memory between the resize and the two loops, when the live cells are
    the first [k] and the block stayed where it was: every live cell carries
    its own address as forwarding address. *)
Hypothesis Hstaged : forall i, (i < k)%nat ->
  exists o, m0 !! cell base i = Some o /\ moveTo o = NULL /\
    (type o = OBJ_PAIR -> is_cell base k (head o) /\ is_cell base k (tail o)) /\
    M !! cell base i = Some (set_moveTo (cell base i) o).

Lemma staged_load p : is_cell base k p ->
  exists o, load M p = Ret o /\ moveTo o = p.
Proof.
  intros [i [Hi ->]]. destruct (Hstaged i Hi) as [o [_ [_ [_ HM]]]].
  eexists. split; [apply load_Some; [apply cell_not_null; exact Hbase|exact HM]|].
  reflexivity.
Qed.

Lemma staged_update_step i : (i < k)%nat ->
  update_step base base M (cell base i) = Ret M.
Proof.
  intros Hi. destruct (Hstaged i Hi) as [o [_ [_ [Hch HM]]]].
  unfold update_step.
  rewrite (load_Some M _ _ (cell_not_null base i Hbase) HM), bind_Ret_l.
  rewrite decide_False by (simpl; apply cell_not_null; exact Hbase).
  simpl. destruct (type o) eqn:Ht; [reflexivity|].
  destruct (Hch eq_refl) as [Hh Htl].
  destruct (staged_load _ Hh) as [oh [Hoh Hmh]].
  destruct (staged_load _ Htl) as [ot [Hot Hmt]].
  rewrite Hoh, bind_Ret_l, Hmh.
  replace (base + (head o - base)) with (head o) by lia.
  assert (E1 : set_head (head o) (set_moveTo (cell base i) o) = set_moveTo (cell base i) o)
    by (destruct o; reflexivity).
  rewrite E1, (insert_id M _ _ HM). simpl.
  rewrite Hot, bind_Ret_l, Hmt.
  replace (base + (tail o - base)) with (tail o) by lia.
  assert (E2 : set_tail (tail o) (set_moveTo (cell base i) o) = set_moveTo (cell base i) o)
    by (destruct o; reflexivity).
  rewrite E2, (insert_id M _ _ HM). reflexivity.
Qed.

Lemma staged_update_cells j : (j <= k)%nat ->
  foldM (update_step base base) (cells base j) M = Ret M.
Proof.
  induction j as [|j IH]; intros Hj; [reflexivity|].
  rewrite cells_S, foldM_snoc, IH, bind_Ret_l by lia.
  apply staged_update_step. lia.
Qed.

Lemma staged_update_roots roots :
  Forall (is_cell base k) roots -> update_roots base base M roots = Ret roots.
Proof.
  induction 1 as [|r roots Hr _ IH]; [reflexivity|].
  simpl. replace (r - base + base) with r by lia.
  destruct (staged_load r Hr) as [o [Ho Hm]].
  rewrite Ho, bind_Ret_l, IH, bind_Ret_l, Hm.
  replace (base + (r - base)) with r by lia. reflexivity.
Qed.

Lemma staged_compact_cells limit : cell base k <= limit ->
  forall j, (j <= k)%nat ->
  exists M', foldM (compact_step base limit base) (cells base j) M = Ret M' /\
    (forall i, (i < j)%nat -> M' !! cell base i = m0 !! cell base i) /\
    (forall q, (forall i, (i < j)%nat -> q <> cell base i) -> M' !! q = M !! q).
Proof.
  intros Hlim. induction j as [|j IH]; intros Hj.
  - exists M. split; [reflexivity|]. split; [intros; lia|reflexivity].
  - destruct IH as [M' [Hf [Hlow Hrest]]]; [lia|].
    destruct (Hstaged j) as [o [Ho [Hz [_ HM]]]]; [lia|].
    assert (HM' : M' !! cell base j = Some (set_moveTo (cell base j) o)).
    { rewrite Hrest; [exact HM|]. intros i Hi E. apply cell_inj in E. lia. }
    exists (<[cell base j := o]> M').
    split; [|split].
    + rewrite cells_S, foldM_snoc, Hf, bind_Ret_l. unfold compact_step.
      rewrite (load_Some M' _ _ (cell_not_null base j Hbase) HM'), bind_Ret_l.
      rewrite decide_False by (simpl; apply cell_not_null; exact Hbase).
      simpl. replace (base + (cell base j - base)) with (cell base j) by lia.
      rewrite decide_True.
      * rewrite insert_insert_eq. f_equal. f_equal.
        destruct o; simpl in *; subst; reflexivity.
      * apply in_block_cell. unfold cell, sizeof_Object in *. lia.
    + intros i Hi. destruct (decide (i = j)) as [->|Hne].
      * rewrite lookup_insert_eq. auto.
      * rewrite lookup_insert_ne by (intros E; apply cell_inj in E; lia).
        apply Hlow. lia.
    + intros q Hq. rewrite lookup_insert_ne by (intros E; apply (Hq j); [lia|auto]).
      apply Hrest. intros i Hi. apply Hq. lia.
Qed.

End Staged.

(** The collection of a machine whose live cells are the lowest ones, by an
    allocator that leaves the block where it is. *)
Lemma gc_live_prefix (al : Z -> Z -> Z) (vm : VM) (add : Z) (n k : nat) :
  wf_n n vm -> live_prefix n k vm -> 0 <= add ->
  (forall size, al (heap vm) size = heap vm) ->
  exists vm',
    gc al vm add = Ret vm' /\
    heap vm' = heap vm /\ stack vm' = stack vm /\
    next vm' = cell (heap vm) k /\
    end_ vm' = heap vm + heapSize_for (sizeof_Object * Z.of_nat k) add /\
    (forall i, (i < k)%nat ->
       mem vm' !! cell (heap vm) i = mem vm !! cell (heap vm) i) /\
    wf_n k vm' /\ live_prefix k k vm'.
Proof.
  intros [Hb [Hnext [Hc [Hu Hs]]]] [Hkn Hlive] Hadd Hal.
  set (base := heap vm) in *.
  destruct (mark_roots_spec (is_cell base n) (stack vm) (mem vm) Hc Hs Hu)
    as [m1 [H1 [E1 [F1 R1]]]].
  assert (Hex : forall i, (i < n)%nat -> exists o, mem vm !! cell base i = Some o /\
            moveTo o = NULL /\
            (type o = OBJ_PAIR -> is_cell base n (head o) /\ is_cell base n (tail o))).
  { intros i Hi. assert (Hcell : is_cell base n (cell base i)) by (exists i; auto).
    destruct (Hc _ Hcell) as [_ [o [Ho Hch]]]. exists o. split; [exact Ho|].
    split; [|exact Hch].
    destruct (decide (moveTo o = NULL)) as [|Hz]; [auto|].
    exfalso. apply (Hu _ Hcell). exists o. auto. }
  assert (Hm1 : forall i, (i < n)%nat -> (marked m1 (cell base i) <-> (i < k)%nat)).
  { intros i Hi. rewrite R1 by (exists i; auto). apply Hlive. exact Hi. }
  pose proof (rank_prefix m1 base n k Hkn Hm1) as Hrank.
  destruct (plan_cells base m1 Hb n) as [m2 [H2 [A2 B2]]].
  { intros i Hi. destruct (Hex i Hi) as [o [Ho _]].
    destruct (mark_ext_lookup _ _ _ _ E1 Ho) as [o' [Ho' _]]. eauto. }
  rewrite (Hrank n) in H2 by lia. rewrite Nat.min_r in H2 by lia.
  set (heapSize := heapSize_for (sizeof_Object * Z.of_nat k) add).
  assert (Hsize : sizeof_Object * Z.of_nat k <= heapSize).
  { unfold heapSize. exact (heapSize_for_live k add Hadd). }
  set (m3 := realloc_mem m2 base base heapSize).
  assert (Hreach_k : forall p, reachable (mem vm) (stack vm) p -> is_cell base k p).
  { intros p Hp. destruct (reachable_closed _ _ _ _ Hc Hs Hp) as [i [Hi ->]].
    exists i. split; [apply Hlive; auto|reflexivity]. }
  assert (Hstaged : forall i, (i < k)%nat ->
            exists o, mem vm !! cell base i = Some o /\ moveTo o = NULL /\
              (type o = OBJ_PAIR -> is_cell base k (head o) /\ is_cell base k (tail o)) /\
              m3 !! cell base i = Some (set_moveTo (cell base i) o)).
  { intros i Hi. destruct (Hex i) as [o [Ho [Hz Hch]]]; [lia|].
    assert (Hri : reachable (mem vm) (stack vm) (cell base i)) by (apply Hlive; [lia|auto]).
    exists o. split; [exact Ho|]. split; [exact Hz|]. split.
    { intros Ht. split; apply Hreach_k.
      - eapply reachable_head; eauto.
      - eapply reachable_tail; eauto. }
    unfold m3. rewrite realloc_mem_cell;
      [|intros E; unfold NULL in E; lia|unfold sizeof_Object in *; lia].
    assert (Hmk : marked m1 (cell base i)) by (apply Hm1; [lia|auto]).
    destruct (E1 (cell base i)) as [E|[o' [Ho' [_ [_ E]]]]].
    - exfalso. destruct Hmk as [o1 [Ho1 Hm]]. rewrite E, Ho in Ho1.
      inversion Ho1; subst. auto.
    - rewrite Ho in Ho'. inversion Ho'; subst o'.
      rewrite (A2 i _ ltac:(lia) E). simpl.
      rewrite decide_False by (apply cell_not_null; exact Hb).
      rewrite (Hrank i) by lia. rewrite Nat.min_l by lia.
      destruct o; reflexivity. }
  assert (Hsk : Forall (is_cell base k) (stack vm)).
  { apply Forall_forall. intros r Hr. apply Hreach_k. apply reachable_root. exact Hr. }
  destruct (staged_compact_cells base k (mem vm) m3 Hb Hstaged (base + heapSize))
    with (j := k) as [m5 [H5 [A5 B5]]];
    [unfold cell, sizeof_Object in *; lia|lia|].
  assert (Hgc : gc al vm add =
            Ret (mkVM (stack vm) base (base + heapSize) (cell base k) m5
                   (out vm ++ [(sizeof_Object * Z.of_nat k, heapSize)]))).
  { unfold gc, gc_resize, markAll. rewrite H1. simpl.
    unfold calculateNewLocations, plan. simpl. fold base.
    rewrite Hnext, cell_addrs_cells, H2. simpl. fold base.
    replace (cell base k - base) with (sizeof_Object * Z.of_nat k)
      by (unfold cell; lia).
    fold heapSize. rewrite Hal. fold m3.
    unfold updateAllObjectPointers. simpl.
    replace (base + sizeof_Object * Z.of_nat k) with (cell base k) by reflexivity.
    rewrite cell_addrs_cells.
    rewrite (staged_update_cells base k (mem vm) m3 Hb Hstaged k) by lia. simpl.
    rewrite (staged_update_roots base k (mem vm) m3 Hb Hstaged _ Hsk). simpl.
    unfold compact. simpl. rewrite cell_addrs_cells, H5. simpl.
    replace (cell base k - base) with (sizeof_Object * Z.of_nat k)
      by (unfold cell; lia).
    replace (base + heapSize - base) with heapSize by lia. reflexivity. }
  eexists. split; [exact Hgc|]. simpl.
  split; [reflexivity|]. split; [reflexivity|]. split; [reflexivity|].
  split; [reflexivity|]. split; [exact A5|].
  assert (Hc5 : closed_on (is_cell base k) m5).
  { intros p [i [Hi ->]]. split; [apply cell_not_null; exact Hb|].
    destruct (Hstaged i Hi) as [o [Ho [_ [Hch _]]]].
    exists o. split; [rewrite A5 by exact Hi; exact Ho|exact Hch]. }
  split.
  - split; [exact Hb|]. split; [reflexivity|]. simpl. split; [exact Hc5|].
    split; [|exact Hsk].
    intros q [i [Hi ->]] [o' [Ho' Hm]]. rewrite A5 in Ho' by exact Hi.
    destruct (Hstaged i Hi) as [o [Ho [Hz _]]]. congruence.
  - split; [lia|]. simpl. intros i Hi. split; [auto|]. intros _.
    assert (Hri : reachable (mem vm) (stack vm) (cell base i)) by (apply Hlive; [lia|auto]).
    destruct Hri as [r [Hr Hpath]]. exists r. split; [exact Hr|].
    assert (Hrk : is_cell base k r) by (apply Hreach_k, reachable_root; exact Hr).
    clear Hi. induction Hpath as [|q o Hq IH Ho Ht|q o Hq IH Ho Ht].
    + constructor.
    + assert (Hqk : is_cell base k q) by (apply Hreach_k; exists r; auto).
      eapply reach_head; [exact IH| |exact Ht].
      destruct Hqk as [j [Hj ->]]. rewrite A5 by exact Hj. exact Ho.
    + assert (Hqk : is_cell base k q) by (apply Hreach_k; exists r; auto).
      eapply reach_tail; [exact IH| |exact Ht].
      destruct Hqk as [j [Hj ->]]. rewrite A5 by exact Hj. exact Ho.
Qed.

(** States [wf_n] by evaluation. *)
Lemma wf_n_by_graph n vm :
  0 < heap vm -> next vm = cell (heap vm) n ->
  graph_ok (cells (heap vm) n) (mem vm) ->
  Forall (fun r => r ∈ cells (heap vm) n) (stack vm) ->
  wf_n n vm.
Proof.
  intros Hb Hn Hg Hs. destruct (graph_ok_closed _ _ Hg) as [Hc Hu].
  split; [exact Hb|]. split; [exact Hn|]. split; [|split].
  - intros p Hp. apply elem_of_cells in Hp. destruct (Hc p Hp) as [Hnn [o [Ho Hch]]].
    split; [exact Hnn|]. exists o. split; [exact Ho|]. intros Ht.
    destruct (Hch Ht). split; apply elem_of_cells; auto.
  - intros q Hq. apply Hu. apply elem_of_cells. exact Hq.
  - eapply Forall_impl; [exact Hs|]. intros r Hr. apply elem_of_cells. exact Hr.
Qed.

(** States [live_prefix] by running the mark phase. *)
Lemma live_prefix_by_marks n k vm (m1 : memory) :
  wf_n n vm -> (k <= n)%nat ->
  mark_roots (stack vm) (mem vm) = Ret m1 ->
  Forall (marked m1) (cells (heap vm) k) ->
  Forall (fun p => ~ marked m1 p) (drop k (cells (heap vm) n)) ->
  live_prefix n k vm.
Proof.
  intros [Hb [Hn [Hc [Hu Hs]]]] Hk Hmark Hlow Hhigh. split; [exact Hk|].
  destruct (mark_roots_spec _ _ _ Hc Hs Hu) as [m' [Hm' [_ [_ HR]]]].
  rewrite Hmark in Hm'. inversion Hm'; subst m'; clear Hm'.
  intros i Hi. rewrite <- HR by (exists i; auto). split.
  - intros Hm. destruct (decide (i < k)%nat) as [|Hge]; [assumption|]. exfalso.
    rewrite Forall_forall in Hhigh. apply (Hhigh (cell (heap vm) i)); [|exact Hm].
    apply (list_elem_of_lookup_2 _ (i - k)). rewrite lookup_drop.
    replace (k + (i - k))%nat with i by lia.
    unfold cells. rewrite list_lookup_fmap, lookup_seq_lt by exact Hi. reflexivity.
  - intros Hlt. rewrite Forall_forall in Hlow. apply Hlow.
    apply elem_of_cells. exists i. auto.
Qed.

(** X17. In the reallocating program a collection is right on a machine
    that is well formed (every cell below [next] holds an unmarked object,
    the fields of pairs and the stack entries point at such cells), when no
    dead cell lies below a live one, [realloc] leaves the block where it is
    and the sizes are values of [size_t]: the stack and every live object
    stay as and where they are, the frontier drops to the end of the live
    cells, the live count is the number of live objects, the heap is resized
    to the size [gc] computes, which is what it prints, and the machine that
    results is well formed and free of garbage. *)
Theorem realloc_gc_live_prefix (al : Z -> Z -> Z) (vm : VM) (add : Z) (n k : nat) :
  wf_n n vm -> live_prefix n k vm -> 0 <= add < 2 ^ 64 ->
  heapSize_for (sizeof_Object * Z.of_nat k) add < 2 ^ 64 ->
  (forall size, al (heap vm) size = heap vm) ->
  exists vm',
    gc al vm add = Ret vm' /\
    heap vm' = heap vm /\ stack vm' = stack vm /\
    next vm' = cell (heap vm) k /\ liveCount vm' = Z.of_nat k /\
    end_ vm' = heap vm + heapSize_for (sizeof_Object * Z.of_nat k) add /\
    out vm' = out vm ++ [(sizeof_Object * Z.of_nat k,
                          heapSize_for (sizeof_Object * Z.of_nat k) add)] /\
    (forall i, (i < k)%nat ->
       mem vm' !! cell (heap vm) i = mem vm !! cell (heap vm) i) /\
    wf_n k vm' /\ live_prefix k k vm'.
Proof.
  intros Hwf Hlive [Hadd _] _ Hal.
  destruct (gc_live_prefix al vm add n k Hwf Hlive Hadd Hal)
    as [vm' [Hgc [Hh [Hst [Hnx [He [Hm [Hwf' Hlive']]]]]]]].
  exists vm'. split; [exact Hgc|]. split; [exact Hh|]. split; [exact Hst|].
  split; [exact Hnx|]. split.
  { unfold liveCount. rewrite Hnx, Hh. unfold cell, sizeof_Object.
    replace (heap vm + 32 * Z.of_nat k - heap vm) with (Z.of_nat k * 32) by lia.
    apply Z.div_mul. lia. }
  split; [exact He|]. split; [|split; [exact Hm|split; [exact Hwf'|exact Hlive']]].
  destruct (gc_fields al vm add vm' Hgc) as [k' [_ [_ [Hnx' Hout]]]].
  assert (k' = k).
  { simpl in Hnx'. rewrite Hnx, Hh in Hnx'. unfold cell, sizeof_Object in Hnx'. lia. }
  subst k'. exact Hout.
Qed.

Lemma realloc_gc_live_prefix_witness :
  wf_n 4 realloc_top_dropped /\ live_prefix 4 3 realloc_top_dropped /\
  0 <= 0 < 2 ^ 64 /\
  heapSize_for (sizeof_Object * Z.of_nat 3) 0 < 2 ^ 64 /\
  (forall size, in_place (heap realloc_top_dropped) size = heap realloc_top_dropped) /\
  exists vm',
    gc in_place realloc_top_dropped 0 = Ret vm' /\
    heap vm' = heap realloc_top_dropped /\ stack vm' = stack realloc_top_dropped /\
    next vm' = cell (heap realloc_top_dropped) 3 /\ liveCount vm' = Z.of_nat 3 /\
    end_ vm' = heap realloc_top_dropped + heapSize_for (sizeof_Object * Z.of_nat 3) 0 /\
    out vm' = out realloc_top_dropped
              ++ [(sizeof_Object * Z.of_nat 3, heapSize_for (sizeof_Object * Z.of_nat 3) 0)] /\
    (forall i, (i < 3)%nat ->
       mem vm' !! cell (heap realloc_top_dropped) i
       = mem realloc_top_dropped !! cell (heap realloc_top_dropped) i) /\
    wf_n 3 vm' /\ live_prefix 3 3 vm'.
Proof.
  assert (H1 : wf_n 4 realloc_top_dropped).
  { apply wf_n_by_graph; [vm_compute; reflexivity|vm_compute; reflexivity
                         |by_decide|by_decide]. }
  assert (H2 : live_prefix 4 3 realloc_top_dropped).
  { apply (live_prefix_by_marks 4 3 realloc_top_dropped
             (match mark_roots (stack realloc_top_dropped) (mem realloc_top_dropped) with
              | Ret m => m
              | _ => ∅
              end));
      [exact H1|lia|vm_compute; reflexivity|by_decide|by_decide]. }
  assert (H3 : 0 <= 0 < 2 ^ 64) by lia.
  assert (H4 : heapSize_for (sizeof_Object * Z.of_nat 3) 0 < 2 ^ 64)
    by (vm_compute; reflexivity).
  assert (H5 : forall size,
             in_place (heap realloc_top_dropped) size = heap realloc_top_dropped)
    by (intros size; reflexivity).
  split; [exact H1|]. split; [exact H2|]. split; [exact H3|]. split; [exact H4|].
  split; [exact H5|].
  exact (realloc_gc_live_prefix in_place realloc_top_dropped 0 4 3 H1 H2 H3 H4 H5).
Defined.

End ReallocGood.

(** ** Runs of the reallocating program that never pop *)

(** Paths read only the objects they pass through. *)
Lemma reach_frame D (m m' : memory) r q :
  closed_on D m -> (forall p, D p -> m' !! p = m !! p) -> D r ->
  reach m r q -> reach m' r q.
Proof.
  intros Hc Heq Hr Hpath.
  induction Hpath as [|p o Hp IH Ho Ht|p o Hp IH Ho Ht].
  - constructor.
  - eapply reach_head; [exact IH| |exact Ht].
    rewrite Heq; [exact Ho|]. eapply reach_closed; eauto.
  - eapply reach_tail; [exact IH| |exact Ht].
    rewrite Heq; [exact Ho|]. eapply reach_closed; eauto.
Qed.

Module ReallocTidy.
Import Realloc ReallocSpec ReallocProofs.

Section InPlace.

Variable al : Z -> Z -> Z.
Hypothesis Hal : forall old size, al old size = old.

(** An allocation on a tidy machine. *)
Lemma newObject_tidy n vm t :
  tidy n vm ->
  exists vm0, tidy n vm0 /\ stack vm0 = stack vm /\ heap vm0 = heap vm /\
    cell (heap vm0) (S n) <= end_ vm0 /\
    newObject al vm t =
      Ret (mkVM (stack vm0) (heap vm0) (end_ vm0) (cell (heap vm0) (S n))
             (<[cell (heap vm0) n :=
                  set_moveTo NULL (set_type t (raw (mem vm0) (cell (heap vm0) n)))]>
                (mem vm0)) (out vm0),
           cell (heap vm0) n).
Proof.
  intros [Hwf [Hlive Hend]].
  assert (Hbump : forall vm0, wf_n n vm0 ->
            bump vm0 t =
              Ret (mkVM (stack vm0) (heap vm0) (end_ vm0) (cell (heap vm0) (S n))
                     (<[cell (heap vm0) n :=
                          set_moveTo NULL (set_type t (raw (mem vm0) (cell (heap vm0) n)))]>
                        (mem vm0)) (out vm0),
                   cell (heap vm0) n)).
  { intros vm0 [Hb [Hnx _]]. unfold bump. rewrite Hnx.
    rewrite decide_False by (apply cell_not_null; exact Hb).
    rewrite cell_S. reflexivity. }
  unfold newObject. destruct (decide (next vm + sizeof_Object > end_ vm)) as [Hfull|Hroom].
  - destruct (ReallocGood.gc_live_prefix al vm sizeof_Object n n Hwf Hlive)
      as [vm' [Hgc [Hh [Hst [Hnx [He [Hm [Hwf' Hlive']]]]]]]].
    { unfold sizeof_Object. lia. }
    { intros size. apply Hal. }
    rewrite Hgc, bind_Ret_l. exists vm'.
    assert (Hroom' : cell (heap vm') (S n) <= end_ vm').
    { rewrite He, Hh. pose proof (heapSize_for_room n) as Hg.
      unfold cell, sizeof_Object in *. lia. }
    split.
    { split; [exact Hwf'|]. split; [exact Hlive'|].
      rewrite Hnx, <- Hh. rewrite cell_S in Hroom'. unfold sizeof_Object in *. lia. }
    split; [exact Hst|]. split; [exact Hh|]. split; [exact Hroom'|].
    apply Hbump. exact Hwf'.
  - exists vm. split; [split; [exact Hwf|split; [exact Hlive|exact Hend]]|].
    split; [reflexivity|]. split; [reflexivity|]. split.
    { rewrite cell_S. destruct Hwf as [_ [<- _]]. lia. }
    apply Hbump. exact Hwf.
Qed.

(** A tidy machine with one more cell. *)
Lemma tidy_alloc n vm o stk e out' :
  tidy n vm -> cell (heap vm) (S n) <= e ->
  moveTo o = NULL ->
  (type o = OBJ_PAIR -> is_cell (heap vm) n (head o) /\ is_cell (heap vm) n (tail o)) ->
  Forall (is_cell (heap vm) (S n)) stk ->
  cell (heap vm) n ∈ stk ->
  (forall r, r ∈ stack vm -> r ∈ stk \/
     type o = OBJ_PAIR /\ (r = head o \/ r = tail o)) ->
  tidy (S n) (mkVM stk (heap vm) e (cell (heap vm) (S n))
                (<[cell (heap vm) n := o]> (mem vm)) out').
Proof.
  intros [[Hb [Hnx [Hc [Hu Hs]]]] [[_ Hlive] _]] He Hz Hch Hstk Hnew Hroots.
  set (m' := <[cell (heap vm) n := o]> (mem vm)).
  assert (Hframe : forall p, is_cell (heap vm) n p -> m' !! p = mem vm !! p).
  { intros p Hp. unfold m'. apply lookup_insert_ne. intros <-.
    revert Hp. apply is_cell_fresh. }
  assert (Hnn : cell (heap vm) n <> NULL) by (apply cell_not_null; exact Hb).
  split; [|split].
  - split; [exact Hb|]. split; [reflexivity|]. simpl. fold m'. split; [|split].
    + intros p Hp. apply is_cell_S in Hp. destruct Hp as [Hp| ->].
      * destruct (Hc p Hp) as [Hpn [o' [Ho' Hch']]]. split; [exact Hpn|].
        exists o'. split; [rewrite Hframe; auto|]. intros Ht.
        destruct (Hch' Ht). split; apply is_cell_S; auto.
      * split; [exact Hnn|]. exists o. split; [apply lookup_insert_eq|].
        intros Ht. destruct (Hch Ht). split; apply is_cell_S; auto.
    + intros q Hq [o' [Ho' Hm]]. apply is_cell_S in Hq. destruct Hq as [Hq| ->].
      * apply (Hu q Hq). exists o'. rewrite <- Hframe by exact Hq. auto.
      * unfold m' in Ho'. rewrite lookup_insert_eq in Ho'. inversion Ho'; subst. auto.
    + exact Hstk.
  - split; [lia|]. simpl. fold m'. intros i Hi. split; [auto|]. intros _.
    destruct (decide (i = n)) as [->|Hne].
    { exists (cell (heap vm) n). split; [exact Hnew|constructor]. }
    assert (Hold : reachable (mem vm) (stack vm) (cell (heap vm) i))
      by (apply Hlive; lia).
    destruct Hold as [r [Hr Hpath]].
    assert (Hrc : is_cell (heap vm) n r).
    { rewrite Forall_forall in Hs. apply Hs. exact Hr. }
    pose proof (reach_frame _ _ m' _ _ Hc Hframe Hrc Hpath) as Hpath'.
    destruct (Hroots r Hr) as [Hin|[Ht [-> | ->]]].
    + exists r. split; [exact Hin|exact Hpath'].
    + exists (cell (heap vm) n). split; [exact Hnew|].
      eapply reach_trans; [|exact Hpath'].
      eapply reach_head; [constructor|apply lookup_insert_eq|exact Ht].
    + exists (cell (heap vm) n). split; [exact Hnew|].
      eapply reach_trans; [|exact Hpath'].
      eapply reach_tail; [constructor|apply lookup_insert_eq|exact Ht].
  - simpl. rewrite cell_S in *. unfold sizeof_Object in *. lia.
Qed.

Lemma pushInt_tidy n vm v : tidy n vm -> tidy_outcome (S n) (pushInt al vm v).
Proof.
  intros Htidy.
  destruct (newObject_tidy n vm OBJ_INT Htidy)
    as [vm0 [Ht0 [Hst [Hh [Hroom Hnew]]]]].
  pose proof Ht0 as [[Hb [Hnx [Hc [Hu Hs]]]] _].
  unfold pushInt. rewrite Hnew, bind_Ret_l. unfold store. simpl.
  rewrite (load_Some _ _ _ (cell_not_null _ n Hb) (lookup_insert_eq _ _ _)).
  rewrite !bind_Ret_l, insert_insert_eq. unfold push, stackSize. simpl.
  destruct (decide _); [|exact I]. simpl.
  apply (tidy_alloc n vm0); auto.
  - intros Ht. discriminate.
  - apply Forall_app. split.
    + eapply Forall_impl; [exact Hs|]. intros p Hp. apply is_cell_S. auto.
    + constructor; [|constructor]. apply is_cell_S. auto.
  - apply elem_of_app. right. apply list_elem_of_singleton. reflexivity.
  - intros r Hr. left. apply elem_of_app. auto.
Qed.

Lemma pushPair_tidy n vm :
  tidy n vm ->
  tidy_outcome (S n) (do (vm', _) <- pushPair al vm; Ret vm').
Proof.
  intros Htidy.
  destruct (newObject_tidy n vm OBJ_PAIR Htidy)
    as [vm0 [Ht0 [Hst [Hh [Hroom Hnew]]]]].
  pose proof Ht0 as [[Hb [Hnx [Hc [Hu Hs]]]] _].
  unfold pushPair. rewrite Hnew, bind_Ret_l.
  assert (Hnn := cell_not_null (heap vm0) n Hb).
  destruct (stack vm0) as [|t l] eqn:Hst0 using rev_ind; [exact I|]. clear IHl.
  rewrite ReallocMachines.realloc_pop_snoc, bind_Ret_l. unfold store at 1. simpl.
  rewrite (load_Some _ _ _ Hnn (lookup_insert_eq _ _ _)), !bind_Ret_l.
  destruct l as [|h l] using rev_ind; [exact I|]. clear IHl.
  rewrite ReallocMachines.realloc_pop_snoc, bind_Ret_l. unfold store. simpl.
  rewrite (load_Some _ _ _ Hnn (lookup_insert_eq _ _ _)), !bind_Ret_l.
  rewrite !insert_insert_eq. unfold push, stackSize. simpl.
  destruct (decide _); [|exact I]. simpl.
  rewrite !Forall_app in Hs. destruct Hs as [[Hl Hhc] Htc].
  rewrite Forall_singleton in Hhc, Htc.
  apply (tidy_alloc n vm0); auto.
  - apply Forall_app. split.
    + eapply Forall_impl; [exact Hl|]. intros p Hp. apply is_cell_S. auto.
    + constructor; [|constructor]. apply is_cell_S. auto.
  - apply elem_of_app. right. apply list_elem_of_singleton. reflexivity.
  - intros r Hr. rewrite Hst0 in Hr. rewrite !elem_of_app in Hr.
    rewrite !list_elem_of_singleton in Hr. rewrite elem_of_app.
    destruct Hr as [[Hr| ->]| ->]; simpl; auto.
Qed.

Lemma run_tidy : forall ops n vm,
  Forall (fun op => op <> Pop) ops -> tidy n vm ->
  tidy_outcome (n + length ops) (run al ops vm).
Proof.
  induction ops as [|op ops IH]; intros n vm Hops Htidy.
  - simpl. rewrite Nat.add_0_r. exact Htidy.
  - inversion Hops as [|? ? Hop Hrest]; subst.
    change (run al (op :: ops) vm) with (do vm1 <- step al vm op; run al ops vm1).
    assert (Hstep : tidy_outcome (S n) (step al vm op)).
    { destruct op as [v| |]; [apply pushInt_tidy|apply pushPair_tidy|congruence];
        exact Htidy. }
    destruct (step al vm op) as [vm1|[]| |]; simpl in Hstep; try contradiction;
      try exact I.
    rewrite bind_Ret_l. simpl length.
    replace (n + S (length ops))%nat with (S n + length ops)%nat by lia.
    apply IH; auto.
Qed.

End InPlace.

(** X18. The reallocating program is safe on runs that never call [pop]
    directly, when [realloc] leaves the block where it is: a run of [pushInt]
    and [pushPair] from [newVM] either stops at a guard of the stack
    (overflow, or a [pushPair] on fewer than two entries) or returns a
    well-formed machine whose heap holds one cell for every operation, all of
    them reachable, with the frontier inside the block.  It has no undefined
    behaviour, and every collection on the way keeps every object. *)
Theorem realloc_push_only_run (al : Z -> Z -> Z) (ops : list Op) (base : Z) :
  (forall old size, al old size = old) ->
  Forall (fun op => op <> Pop) ops -> 0 < base ->
  tidy_outcome (length ops) (run al ops (newVM base)).
Proof.
  intros Hal Hops Hb. apply (run_tidy al Hal ops 0 (newVM base) Hops).
  split; [|split].
  - split; [exact Hb|]. split; [unfold cell; simpl; lia|]. simpl.
    split; [intros p [i [Hi _]]; lia|]. split; [intros q [i [Hi _]]; lia|constructor].
  - split; [lia|]. intros i Hi. lia.
  - simpl. unfold HEAP_MIN. lia.
Qed.

Lemma realloc_push_only_run_witness :
  (forall old size, in_place old size = old) /\
  Forall (fun op => op <> Pop)
    [PushInt 1; PushInt 2; PushPair; PushInt 3; PushInt 4; PushPair; PushPair] /\
  0 < 4096 /\
  tidy_outcome 7
    (run in_place
       [PushInt 1; PushInt 2; PushPair; PushInt 3; PushInt 4; PushPair; PushPair]
       (newVM 4096)).
Proof.
  assert (H1 : forall old size, in_place old size = old)
    by (intros old size; reflexivity).
  assert (H2 : Forall (fun op => op <> Pop)
                 [PushInt 1; PushInt 2; PushPair; PushInt 3; PushInt 4; PushPair;
                  PushPair])
    by (repeat constructor; discriminate).
  assert (H3 : 0 < 4096) by lia.
  split; [exact H1|]. split; [exact H2|]. split; [exact H3|].
  exact (realloc_push_only_run in_place
           [PushInt 1; PushInt 2; PushPair; PushInt 3; PushInt 4; PushPair; PushPair]
           4096 H1 H2 H3).
Defined.

End ReallocTidy.

(** ** The reallocating collector when the heap shrinks below a root *)


Module ReallocShrink.
Import Realloc ReallocProofs.





End ReallocShrink.


(** The second round of [perfTest] runs into it: its 47th operation, the
    seventh [pushInt] of round 1, collects a heap whose six live integers lie
    above twenty dead ones. *)
Example realloc_perfTest_undefined :
  Realloc.run in_place (perfTest_ops 2) (Realloc.newVM 4096) = Undef /\
  Realloc.run moving (perfTest_ops 2) (Realloc.newVM 4096) = Undef.
Proof. split; vm_compute; reflexivity. Qed.

(** ** The mark phase in the two programs *)

Module FixedMark.
Import Fixed FixedSpec FixedProofs.

Lemma wf_n_graph_ok n vm :
  wf_n n vm ->
  graph_ok (cells (heap vm) n) (mem vm) /\
  Forall (fun r => r ∈ cells (heap vm) n) (stack vm).
Proof.
  intros [_ [_ [_ [Hc [Hu Hs]]]]]. split.
  - unfold graph_ok. apply Forall_forall. intros p Hp. apply elem_of_cells in Hp.
    destruct (Hc p Hp) as [Hnn [o [Ho Hch]]]. split; [exact Hnn|]. rewrite Ho. split.
    + destruct (decide (moveTo o = NULL)) as [|Hz]; [assumption|].
      exfalso. apply (Hu p Hp). exists o. auto.
    + intros Ht. destruct (Hch Ht). split; apply elem_of_cells; assumption.
  - eapply Forall_impl; [exact Hs|]. intros r Hr. apply elem_of_cells. exact Hr.
Qed.

(** X20. In the fixed-heap program, on every machine the mutator can build,
    cyclic structures included, [markAll] returns and leaves the stack, the
    heap bounds and every tag, value, head and tail as they were; the stores
    [object->moveTo = object] it makes, in order, form a list without
    repetition whose members are exactly the objects reachable from the
    stack, and the cells of the heap that carry a mark afterwards are exactly
    those objects. *)
Theorem fixed_markAll_marks_once vm :
  mutator_state vm ->
  exists vm1 log,
    markAll vm = Ret vm1 /\
    stack vm1 = stack vm /\ heap vm1 = heap vm /\ next vm1 = next vm /\
    out vm1 = out vm /\
    mark_roots_log (stack vm) (mem vm) = Ret (mem vm1, log) /\
    NoDup log /\
    (forall q, q ∈ log <-> reachable (mem vm) (stack vm) q) /\
    (forall q, in_heap vm q ->
       (marked (mem vm1) q <-> reachable (mem vm) (stack vm) q)) /\
    (forall q o, mem vm !! q = Some o ->
       exists o', mem vm1 !! q = Some o' /\ type o' = type o /\
         value o' = value o /\ head o' = head o /\ tail o' = tail o).
Proof.
  intros Hms. pose proof (mutator_state_wf vm Hms) as Hwf.
  apply wf_wf_n in Hwf. destruct Hwf as [n Hwf].
  destruct (wf_n_graph_ok n vm Hwf) as [Hg Hs].
  destruct (mark_phase_marks_once _ _ _ Hg Hs)
    as [m' [log [Hlog [Hmark [Hnd [Hl [Hm _]]]]]]].
  pose proof Hwf as [_ [Hnext [_ [Hc [Hu Hst]]]]].
  destruct (mark_roots_spec _ _ _ Hc Hst Hu) as [m2 [Hmark2 [Hext _]]].
  rewrite Hmark in Hmark2. inversion Hmark2; subst m2; clear Hmark2.
  exists (mkVM (stack vm) (heap vm) (next vm) m' (out vm)), log.
  split; [unfold markAll; rewrite Hmark; reflexivity|]. simpl.
  split; [reflexivity|]. split; [reflexivity|]. split; [reflexivity|].
  split; [reflexivity|]. split; [exact Hlog|]. split; [exact Hnd|].
  split; [exact Hl|]. split.
  - intros q Hq. apply Hm. apply elem_of_cells. unfold in_heap in Hq.
    rewrite Hnext in Hq. apply in_block_is_cell in Hq. exact Hq.
  - intros q o Ho. destruct (mark_ext_lookup _ _ _ _ Hext Ho)
      as [o' [Ho' [Ht [Hv [Hh [Htl _]]]]]].
    exists o'. auto.
Qed.

Lemma fixed_markAll_marks_once_witness :
  mutator_state fixed_garbage /\
  exists vm1 log,
    markAll fixed_garbage = Ret vm1 /\
    stack vm1 = stack fixed_garbage /\ heap vm1 = heap fixed_garbage /\
    next vm1 = next fixed_garbage /\ out vm1 = out fixed_garbage /\
    mark_roots_log (stack fixed_garbage) (mem fixed_garbage) = Ret (mem vm1, log) /\
    NoDup log /\
    (forall q, q ∈ log <-> reachable (mem fixed_garbage) (stack fixed_garbage) q) /\
    (forall q, in_heap fixed_garbage q ->
       (marked (mem vm1) q <-> reachable (mem fixed_garbage) (stack fixed_garbage) q)) /\
    (forall q o, mem fixed_garbage !! q = Some o ->
       exists o', mem vm1 !! q = Some o' /\ type o' = type o /\
         value o' = value o /\ head o' = head o /\ tail o' = tail o).
Proof.
  assert (H : mutator_state fixed_garbage) by FixedMachines.by_run garbage_ops.
  split; [exact H|]. exact (fixed_markAll_marks_once fixed_garbage H).
Defined.

End FixedMark.

(** C5 (the reallocating program departs from it).  After the run
    [pushInt] five times, [pop], [pushPair] twice, [pushInt], whose last
    allocation collects, the stack entry [4256] refers to a pair that still
    carries the forwarding address [4224] of that collection.  The mark phase
    of the next collection finds it marked and returns at once: it leaves the
    pair as it is and never marks its head [4160] nor its tail [4192], both
    reachable from the stack. *)
Theorem realloc_mark_skips_stale_root :
  exists vm1,
    Realloc.markAll realloc_stale_root = Ret vm1 /\
    4256 ∈ Realloc.stack realloc_stale_root /\
    Realloc.mem realloc_stale_root !! 4256
      = Some (mkObject OBJ_PAIR 4224 0 4160 4192) /\
    reachable (Realloc.mem realloc_stale_root) (Realloc.stack realloc_stale_root) 4160 /\
    reachable (Realloc.mem realloc_stale_root) (Realloc.stack realloc_stale_root) 4192 /\
    Realloc.mem vm1 !! 4256 = Realloc.mem realloc_stale_root !! 4256 /\
    ~ marked (Realloc.mem vm1) 4160 /\
    ~ marked (Realloc.mem vm1) 4192.
Proof.
  assert (Hroot : 4256 ∈ Realloc.stack realloc_stale_root) by by_decide.
  assert (Hpair : Realloc.mem realloc_stale_root !! 4256
                  = Some (mkObject OBJ_PAIR 4224 0 4160 4192))
    by (vm_compute; reflexivity).
  exists (realloc_state (Realloc.markAll realloc_stale_root)).
  split; [vm_compute; reflexivity|]. split; [exact Hroot|]. split; [exact Hpair|].
  split; [|split; [|split; [vm_compute; reflexivity|split; by_decide]]].
  - exists 4256. split; [exact Hroot|].
    exact (reach_head _ _ _ _ (reach_refl _ _) Hpair eq_refl).
  - exists 4256. split; [exact Hroot|].
    exact (reach_tail _ _ _ _ (reach_refl _ _) Hpair eq_refl).
Qed.

(** ** The heap size beyond double precision *)

(** C10 fails as stated: called on a new machine with [2^53 + 1] additional
    bytes, [gc] resizes the heap to [2^53] bytes, one byte less than the
    live bytes plus the additional bytes, because [2^53 + 1] is not a
    [double]. *)
Lemma realloc_gc_capacity_rounds :
  exists vm',
    Realloc.gc in_place (Realloc.newVM 4096) (2 ^ 53 + 1) = Ret vm' /\
    Realloc.next vm' - Realloc.heap vm' = 0 /\
    Realloc.end_ vm' - Realloc.heap vm' = 2 ^ 53 /\
    Realloc.end_ vm' - Realloc.heap vm'
      <> Z.max Realloc.HEAP_MIN
           (spec_headroom (Realloc.next vm' - Realloc.heap vm') + (2 ^ 53 + 1)) /\
    ~ (Realloc.end_ vm' - Realloc.heap vm'
       >= (Realloc.next vm' - Realloc.heap vm') + (2 ^ 53 + 1)).
Proof.
  destruct (ReallocGood.gc_live_prefix in_place (Realloc.newVM 4096) (2 ^ 53 + 1) 0 0)
    as [vm' [Hgc [Hh [_ [Hnx [He _]]]]]].
  - split; [simpl; lia|]. split; [reflexivity|]. simpl.
    split; [intros p [i [Hi _]]; lia|]. split; [intros q [i [Hi _]]; lia|constructor].
  - split; [lia|]. intros i Hi. lia.
  - lia.
  - intros size. reflexivity.
  - exists vm'. split; [exact Hgc|].
    assert (En : Realloc.next vm' - Realloc.heap vm' = 0).
    { rewrite Hnx, Hh. unfold cell. simpl. lia. }
    assert (Ee : Realloc.end_ vm' - Realloc.heap vm' = 2 ^ 53).
    { rewrite He, Hh.
      replace (Realloc.heapSize_for (sizeof_Object * Z.of_nat 0) (2 ^ 53 + 1))
        with (2 ^ 53) by (vm_compute; reflexivity).
      lia. }
    split; [exact En|]. split; [exact Ee|]. rewrite En, Ee.
    split; vm_compute; intros H; try discriminate H; apply H; reflexivity.
Qed.
